(** * Cowrie dashboard: bounded collections, alerting, tailing, snapshots

    A shallow embedding of [ip_utils.py] (BoundedCounter, BoundedSet) and of
    the ingestion core of [cowrie_dashboard.py] (CowrieMonitor,
    APIRateLimiter, stats_push_loop), followed by the properties
    established about them.

    Conventions of the embedding:
    - Python [int] is [Z]; Python [str] is [string]; a value that may be
      [None] (a missing dict key read with [.get]) is an [option].
    - A Python [dict] keeps its keys in insertion order: it is an
      association list, oldest key first, without repeated keys. The dict
      of the rate limiter, whose order is never read, is a [gmap].
    - A Python [set] is a [gset].
    - Python [float] values (the success rate, the coordinates, the clock)
      are exact rationals [Qc]; rounding is not modelled.
    - Mutation of [self] is explicit state passing; what a call sends to the
      socket ([socketio.emit]) is returned as a list next to the new state. *)

From stdpp Require Import base decidable option list sorting numbers strings pretty gmap fin_sets.
From Stdlib Require Import ZArith Lia QArith Qcanon Ascii.

Local Open Scope Z_scope.

(** ** Python dictionaries with integer values *)

Module PyDict.
Section Dict.
Context {K : Type} `{EqDecision K}.

Definition dict := list (K * Z).

(** [d.get(k)] *)
Fixpoint lookup (k : K) (d : dict) : option Z :=
  match d with
  | [] => None
  | (k', v) :: d' => if decide (k = k') then Some v else lookup k d'
  end.

(** [d.get(k, default)] *)
Definition get (k : K) (default : Z) (d : dict) : Z :=
  match lookup k d with Some v => v | None => default end.

(** [d[k] = v]: an existing key keeps its place, a new key goes last. *)
Fixpoint set (k : K) (v : Z) (d : dict) : dict :=
  match d with
  | [] => [(k, v)]
  | (k', v') :: d' =>
      if decide (k = k') then (k', v) :: d' else (k', v') :: set k v d'
  end.

(** [del d[k]] *)
Fixpoint del (k : K) (d : dict) : dict :=
  match d with
  | [] => []
  | (k', v') :: d' => if decide (k = k') then d' else (k', v') :: del k d'
  end.

(** [k in d] *)
Definition contains (k : K) (d : dict) : bool := bool_decide (is_Some (lookup k d)).

(** iteration order of [d] *)
Definition keys (d : dict) : list K := d.*1.

(** [len(d)] *)
Definition len (d : dict) : Z := Z.of_nat (length d).

(** Stable insertion of one item into a list ordered by [le] on the
    counts: the item goes before the first item it is [le] to, so an item
    that came earlier stays ahead of its equals. *)
Fixpoint insert_by (le : Z → Z → bool) (x : K * Z) (l : list (K * Z)) : list (K * Z) :=
  match l with
  | [] => [x]
  | y :: l' => if le x.2 y.2 then x :: y :: l' else y :: insert_by le x l'
  end.

(** [sorted(d.items(), key=count)], a stable sort as Python's is;
    [le := Z.leb] is ascending, [le := Z.geb] is [reverse=True]. *)
Definition sorted_by (le : Z → Z → bool) (d : dict) : list (K * Z) :=
  foldr (insert_by le) [] d.

(** [l[:n]] for a Python slice bound [n] of either sign. *)
Definition slice_to {A} (n : Z) (l : list A) : list A :=
  if 0 <=? n then take (Z.to_nat n) l
  else take (length l - Z.to_nat (- n)) l.
End Dict.
Global Arguments dict : clear implicits.
End PyDict.

(** ** BoundedCounter *)

Module BoundedCounter.
Section Counter.
Context {K : Type} `{EqDecision K}.

Record t := mk { _data : PyDict.dict K; _maxsize : Z }.

(** [__init__] *)
Definition init (maxsize : Z) : t := {| _data := []; _maxsize := maxsize |}.

(** [_maybe_evict]: when over capacity, delete the [max(1, maxsize // 10)]
    first keys of the keys sorted by count. *)
Definition _maybe_evict (c : t) : t :=
  if _maxsize c <? PyDict.len (_data c) then
    let evict_count := Z.max 1 (_maxsize c / 10) in
    let sorted_keys := (PyDict.sorted_by Z.leb (_data c)).*1 in
    {| _data := foldl (λ d k, PyDict.del k d) (_data c)
                      (PyDict.slice_to evict_count sorted_keys);
       _maxsize := _maxsize c |}
  else c.

(** [increment]: the new state and the returned count. *)
Definition increment (key : K) (c : t) : t * Z :=
  let data := PyDict.set key (PyDict.get key 0 (_data c) + 1) (_data c) in
  let count := PyDict.get key 0 data in
  (_maybe_evict {| _data := data; _maxsize := _maxsize c |}, count).

(** [__getitem__] *)
Definition getitem (key : K) (c : t) : Z := PyDict.get key 0 (_data c).

(** [__setitem__] *)
Definition setitem (key : K) (value : Z) (c : t) : t :=
  _maybe_evict {| _data := PyDict.set key value (_data c); _maxsize := _maxsize c |}.

(** [__contains__] *)
Definition contains (key : K) (c : t) : bool := PyDict.contains key (_data c).

(** [__len__] *)
Definition len (c : t) : Z := PyDict.len (_data c).

(** [get] *)
Definition get (key : K) (default : Z) (c : t) : Z := PyDict.get key default (_data c).

(** [items] *)
Definition items (c : t) : list (K * Z) := _data c.

(** [top]: the [n] first items by count, highest first. *)
Definition top (n : Z) (c : t) : PyDict.dict K :=
  PyDict.slice_to n (PyDict.sorted_by Z.geb (_data c)).

(** The operations that change a counter, as data, to speak of any
    sequence of calls. *)
Inductive op := Increment (key : K) | SetItem (key : K) (value : Z).

Definition apply (o : op) (c : t) : t :=
  match o with
  | Increment key => (increment key c).1
  | SetItem key value => setitem key value c
  end.

Definition run (ops : list op) (c : t) : t := foldl (λ c o, apply o c) c ops.

(** One [increment] for each key of a list, in order. *)
Definition increment_all (keys : list K) (c : t) : t :=
  foldl (λ c key, (increment key c).1) c keys.
End Counter.
Global Arguments t : clear implicits.
Global Arguments op : clear implicits.
End BoundedCounter.

(** ** BoundedSet *)

Module BoundedSet.
Section Set_.
Context {K : Type} `{Countable K}.

Record t := mk { _data : gset K; _maxsize : Z; _overflow_count : Z }.

(** [__init__] *)
Definition init (maxsize : Z) : t :=
  {| _data := ∅; _maxsize := maxsize; _overflow_count := 0 |}.

(** [add] *)
Definition add (item : K) (s : t) : t :=
  if decide (item ∈ _data s) then s
  else if Z.of_nat (size (_data s)) <? _maxsize s then
    {| _data := _data s ∪ {[item]};
       _maxsize := _maxsize s; _overflow_count := _overflow_count s |}
  else
    {| _data := _data s;
       _maxsize := _maxsize s; _overflow_count := _overflow_count s + 1 |}.

(** [__len__] *)
Definition len (s : t) : Z := Z.of_nat (size (_data s)).

(** [total_seen] *)
Definition total_seen (s : t) : Z := Z.of_nat (size (_data s)) + _overflow_count s.

(** [__contains__] *)
Definition contains (item : K) (s : t) : bool := bool_decide (item ∈ _data s).
End Set_.
Global Arguments t _ {_ _}.
End BoundedSet.

(** ** Bounded histories and the enrichment queue *)

(** [collections.deque(maxlen=n)]: appending to a full deque drops its
    oldest item. (The constructor rejects a negative [maxlen], hence [nat].) *)
Record Deque (A : Type) := mkDeque { dq_items : list A; dq_maxlen : nat }.
Arguments mkDeque {A}.
Arguments dq_items {A}.
Arguments dq_maxlen {A}.

Definition deque_new {A} (maxlen : nat) : Deque A :=
  {| dq_items := []; dq_maxlen := maxlen |}.

Definition deque_append {A} (x : A) (q : Deque A) : Deque A :=
  let l := dq_items q ++ [x] in
  {| dq_items := drop (length l - dq_maxlen q) l; dq_maxlen := dq_maxlen q |}.

(** [queue.Queue(maxsize)]; [maxsize <= 0] means unbounded. *)
Record Queue (A : Type) := mkQueue { q_items : list A; q_maxsize : Z }.
Arguments mkQueue {A}.
Arguments q_items {A}.
Arguments q_maxsize {A}.

Definition queue_new {A} (maxsize : Z) : Queue A :=
  {| q_items := []; q_maxsize := maxsize |}.

(** [put_nowait] inside [try ... except queue.Full]: a full queue drops
    the item. *)
Definition put_nowait {A} (x : A) (q : Queue A) : Queue A :=
  if (0 <? q_maxsize q) && (q_maxsize q <=? Z.of_nat (length (q_items q)))
  then q
  else {| q_items := q_items q ++ [x]; q_maxsize := q_maxsize q |}.

(** ** Records of the log and of the aggregate *)

(** The [geo_location] dict of an entry; [geo_other] tells whether it holds
    keys besides the four that are read. *)
Record GeoLocation := mkGeo {
  geo_country : option string;
  geo_city : option string;
  geo_latitude : option Qc;
  geo_longitude : option Qc;
  geo_other : bool }.

(** The [asn_info] dict of an entry. *)
Record AsnInfo := mkAsn {
  asn_organization : option string;
  asn_asn : option string;
  asn_other : bool }.

(** A parsed log entry: the keys the monitor reads, each with the type the
    honeypot writes it with; [None] is a missing key. *)
Record Entry := mkEntry {
  eventid : option string;
  src_ip : option string;
  timestamp : option string;
  username : option string;
  password : option string;
  input : option string;
  geo_location : option GeoLocation;
  asn_info : option AsnInfo }.

Record Attack := mkAttack {
  at_timestamp : option string;
  at_ip : option string;
  at_event : string;
  at_country : string;
  at_organization : string;
  at_latitude : option Qc;
  at_longitude : option Qc;
  at_username : option string;
  at_password : option string }.

Record Marker := mkMarker {
  mk_lat : Qc;
  mk_lng : Qc;
  mk_ip : option string;
  mk_country : string;
  mk_city : option string;
  mk_timestamp : option string;
  mk_event : option string;
  mk_username : option string;
  mk_organization : string;
  mk_asn : string }.

Record Heatpoint := mkHeat { hp_lat : Qc; hp_lng : Qc; hp_intensity : Z }.

Record TimelineEntry := mkTimeline {
  tl_timestamp : option string;
  tl_event : option string;
  tl_ip : option string;
  tl_country : string;
  tl_organization : string;
  tl_username : option string }.

Record Alert := mkAlert {
  al_timestamp : string;
  al_level : string;
  al_message : string;
  al_ip : option string;
  al_country : string;
  al_organization : string }.

(** [dashboard_config.py]: the settings the monitor reads. *)
Record Config := mkConfig {
  MAX_MAP_MARKERS : nat;
  MAX_RECENT_ATTACKS : nat;
  MAX_TIMELINE_ENTRIES : nat;
  MAX_ALERTS : nat;
  MAX_UNIQUE_IPS : Z;
  MAX_UNIQUE_PASSWORDS : Z;
  MAX_UNIQUE_USERS : Z;
  MAX_TOP_ENTRIES : Z;
  STATS_CACHE_TTL : Qc;
  ENRICHMENT_QUEUE_SIZE : Z;
  COWRIE_LOG_PATH : string }.

(** The values used when no environment variable overrides them. *)
Definition default_config : Config := {|
  MAX_MAP_MARKERS := 1000;
  MAX_RECENT_ATTACKS := 100;
  MAX_TIMELINE_ENTRIES := 50;
  MAX_ALERTS := 50;
  MAX_UNIQUE_IPS := 50000;
  MAX_UNIQUE_PASSWORDS := 20000;
  MAX_UNIQUE_USERS := 10000;
  MAX_TOP_ENTRIES := 10000;
  STATS_CACHE_TTL := Qc_of_Z 2;
  ENRICHMENT_QUEUE_SIZE := 1000;
  COWRIE_LOG_PATH := "/home/cowrie/cowrie/var/log/cowrie/cowrie.json" |}.

(** The [stats] dict of the monitor (its [map_data] entry is the two
    fields [markers] and [heatpoints]). *)
Record Stats := mkStats {
  total_connections : Z;
  failed_logins : Z;
  successful_logins : Z;
  commands_executed : Z;
  unique_ips : BoundedSet.t (option string);
  unique_passwords : BoundedSet.t string;
  unique_users : BoundedSet.t string;
  recent_attacks : Deque Attack;
  top_ips : BoundedCounter.t (option string);
  top_passwords : BoundedCounter.t string;
  top_users : BoundedCounter.t string;
  top_commands : BoundedCounter.t string;
  attack_timeline : Deque TimelineEntry;
  countries : BoundedCounter.t string;
  organizations : BoundedCounter.t string;
  asns : BoundedCounter.t string;
  markers : Deque Marker;
  heatpoints : Deque Heatpoint }.

(** The dict built by [get_stats_summary]. *)
Record Summary := mkSummary {
  sm_total_connections : Z;
  sm_failed_logins : Z;
  sm_successful_logins : Z;
  sm_commands_executed : Z;
  sm_unique_ips : Z;
  sm_unique_passwords : Z;
  sm_unique_users : Z;
  sm_success_rate : Qc;
  sm_top_ips : PyDict.dict (option string);
  sm_top_passwords : PyDict.dict string;
  sm_top_users : PyDict.dict string;
  sm_top_commands : PyDict.dict string;
  sm_top_countries : PyDict.dict string;
  sm_top_organizations : PyDict.dict string;
  sm_top_asns : PyDict.dict string;
  sm_recent_attacks : list Attack;
  sm_markers : list Marker;
  sm_heatpoints : list Heatpoint;
  sm_alerts : list Alert }.

(** The fields of a [CowrieMonitor] (the two lookup services are the
    functions the operations below are parameterised by). *)
Record CowrieMonitor := mkMonitor {
  log_path : string;
  stats : Stats;
  alerts : Deque Alert;
  _alerted_ips : BoundedSet.t string;
  _alerted_countries : BoundedSet.t string;
  _alerted_orgs : BoundedSet.t string;
  running : bool;
  last_position : Z;
  _last_inode : option Z;
  _stats_cache : option Summary;
  _stats_cache_time : Qc;
  _stats_dirty : bool;
  _enrich_queue : Queue Entry }.

(** Field updates ([self.x = v], [self.stats['x'] = v]). *)

Definition set_total_connections (v : Z) (s : Stats) : Stats :=
  {| total_connections := v; failed_logins := failed_logins s;
     successful_logins := successful_logins s; commands_executed := commands_executed s;
     unique_ips := unique_ips s; unique_passwords := unique_passwords s;
     unique_users := unique_users s; recent_attacks := recent_attacks s;
     top_ips := top_ips s; top_passwords := top_passwords s; top_users := top_users s;
     top_commands := top_commands s; attack_timeline := attack_timeline s;
     countries := countries s; organizations := organizations s; asns := asns s;
     markers := markers s; heatpoints := heatpoints s |}.

Definition set_failed_logins (v : Z) (s : Stats) : Stats :=
  {| total_connections := total_connections s; failed_logins := v;
     successful_logins := successful_logins s; commands_executed := commands_executed s;
     unique_ips := unique_ips s; unique_passwords := unique_passwords s;
     unique_users := unique_users s; recent_attacks := recent_attacks s;
     top_ips := top_ips s; top_passwords := top_passwords s; top_users := top_users s;
     top_commands := top_commands s; attack_timeline := attack_timeline s;
     countries := countries s; organizations := organizations s; asns := asns s;
     markers := markers s; heatpoints := heatpoints s |}.

Definition set_successful_logins (v : Z) (s : Stats) : Stats :=
  {| total_connections := total_connections s; failed_logins := failed_logins s;
     successful_logins := v; commands_executed := commands_executed s;
     unique_ips := unique_ips s; unique_passwords := unique_passwords s;
     unique_users := unique_users s; recent_attacks := recent_attacks s;
     top_ips := top_ips s; top_passwords := top_passwords s; top_users := top_users s;
     top_commands := top_commands s; attack_timeline := attack_timeline s;
     countries := countries s; organizations := organizations s; asns := asns s;
     markers := markers s; heatpoints := heatpoints s |}.

Definition set_commands_executed (v : Z) (s : Stats) : Stats :=
  {| total_connections := total_connections s; failed_logins := failed_logins s;
     successful_logins := successful_logins s; commands_executed := v;
     unique_ips := unique_ips s; unique_passwords := unique_passwords s;
     unique_users := unique_users s; recent_attacks := recent_attacks s;
     top_ips := top_ips s; top_passwords := top_passwords s; top_users := top_users s;
     top_commands := top_commands s; attack_timeline := attack_timeline s;
     countries := countries s; organizations := organizations s; asns := asns s;
     markers := markers s; heatpoints := heatpoints s |}.

Definition set_unique_ips (v : BoundedSet.t (option string)) (s : Stats) : Stats :=
  {| total_connections := total_connections s; failed_logins := failed_logins s;
     successful_logins := successful_logins s; commands_executed := commands_executed s;
     unique_ips := v; unique_passwords := unique_passwords s;
     unique_users := unique_users s; recent_attacks := recent_attacks s;
     top_ips := top_ips s; top_passwords := top_passwords s; top_users := top_users s;
     top_commands := top_commands s; attack_timeline := attack_timeline s;
     countries := countries s; organizations := organizations s; asns := asns s;
     markers := markers s; heatpoints := heatpoints s |}.

Definition set_unique_passwords (v : BoundedSet.t string) (s : Stats) : Stats :=
  {| total_connections := total_connections s; failed_logins := failed_logins s;
     successful_logins := successful_logins s; commands_executed := commands_executed s;
     unique_ips := unique_ips s; unique_passwords := v; unique_users := unique_users s;
     recent_attacks := recent_attacks s; top_ips := top_ips s;
     top_passwords := top_passwords s; top_users := top_users s;
     top_commands := top_commands s; attack_timeline := attack_timeline s;
     countries := countries s; organizations := organizations s; asns := asns s;
     markers := markers s; heatpoints := heatpoints s |}.

Definition set_unique_users (v : BoundedSet.t string) (s : Stats) : Stats :=
  {| total_connections := total_connections s; failed_logins := failed_logins s;
     successful_logins := successful_logins s; commands_executed := commands_executed s;
     unique_ips := unique_ips s; unique_passwords := unique_passwords s;
     unique_users := v; recent_attacks := recent_attacks s; top_ips := top_ips s;
     top_passwords := top_passwords s; top_users := top_users s;
     top_commands := top_commands s; attack_timeline := attack_timeline s;
     countries := countries s; organizations := organizations s; asns := asns s;
     markers := markers s; heatpoints := heatpoints s |}.

Definition set_recent_attacks (v : Deque Attack) (s : Stats) : Stats :=
  {| total_connections := total_connections s; failed_logins := failed_logins s;
     successful_logins := successful_logins s; commands_executed := commands_executed s;
     unique_ips := unique_ips s; unique_passwords := unique_passwords s;
     unique_users := unique_users s; recent_attacks := v; top_ips := top_ips s;
     top_passwords := top_passwords s; top_users := top_users s;
     top_commands := top_commands s; attack_timeline := attack_timeline s;
     countries := countries s; organizations := organizations s; asns := asns s;
     markers := markers s; heatpoints := heatpoints s |}.

Definition set_top_ips (v : BoundedCounter.t (option string)) (s : Stats) : Stats :=
  {| total_connections := total_connections s; failed_logins := failed_logins s;
     successful_logins := successful_logins s; commands_executed := commands_executed s;
     unique_ips := unique_ips s; unique_passwords := unique_passwords s;
     unique_users := unique_users s; recent_attacks := recent_attacks s; top_ips := v;
     top_passwords := top_passwords s; top_users := top_users s;
     top_commands := top_commands s; attack_timeline := attack_timeline s;
     countries := countries s; organizations := organizations s; asns := asns s;
     markers := markers s; heatpoints := heatpoints s |}.

Definition set_top_passwords (v : BoundedCounter.t string) (s : Stats) : Stats :=
  {| total_connections := total_connections s; failed_logins := failed_logins s;
     successful_logins := successful_logins s; commands_executed := commands_executed s;
     unique_ips := unique_ips s; unique_passwords := unique_passwords s;
     unique_users := unique_users s; recent_attacks := recent_attacks s;
     top_ips := top_ips s; top_passwords := v; top_users := top_users s;
     top_commands := top_commands s; attack_timeline := attack_timeline s;
     countries := countries s; organizations := organizations s; asns := asns s;
     markers := markers s; heatpoints := heatpoints s |}.

Definition set_top_users (v : BoundedCounter.t string) (s : Stats) : Stats :=
  {| total_connections := total_connections s; failed_logins := failed_logins s;
     successful_logins := successful_logins s; commands_executed := commands_executed s;
     unique_ips := unique_ips s; unique_passwords := unique_passwords s;
     unique_users := unique_users s; recent_attacks := recent_attacks s;
     top_ips := top_ips s; top_passwords := top_passwords s; top_users := v;
     top_commands := top_commands s; attack_timeline := attack_timeline s;
     countries := countries s; organizations := organizations s; asns := asns s;
     markers := markers s; heatpoints := heatpoints s |}.

Definition set_top_commands (v : BoundedCounter.t string) (s : Stats) : Stats :=
  {| total_connections := total_connections s; failed_logins := failed_logins s;
     successful_logins := successful_logins s; commands_executed := commands_executed s;
     unique_ips := unique_ips s; unique_passwords := unique_passwords s;
     unique_users := unique_users s; recent_attacks := recent_attacks s;
     top_ips := top_ips s; top_passwords := top_passwords s; top_users := top_users s;
     top_commands := v; attack_timeline := attack_timeline s; countries := countries s;
     organizations := organizations s; asns := asns s; markers := markers s;
     heatpoints := heatpoints s |}.

Definition set_attack_timeline (v : Deque TimelineEntry) (s : Stats) : Stats :=
  {| total_connections := total_connections s; failed_logins := failed_logins s;
     successful_logins := successful_logins s; commands_executed := commands_executed s;
     unique_ips := unique_ips s; unique_passwords := unique_passwords s;
     unique_users := unique_users s; recent_attacks := recent_attacks s;
     top_ips := top_ips s; top_passwords := top_passwords s; top_users := top_users s;
     top_commands := top_commands s; attack_timeline := v; countries := countries s;
     organizations := organizations s; asns := asns s; markers := markers s;
     heatpoints := heatpoints s |}.

Definition set_countries (v : BoundedCounter.t string) (s : Stats) : Stats :=
  {| total_connections := total_connections s; failed_logins := failed_logins s;
     successful_logins := successful_logins s; commands_executed := commands_executed s;
     unique_ips := unique_ips s; unique_passwords := unique_passwords s;
     unique_users := unique_users s; recent_attacks := recent_attacks s;
     top_ips := top_ips s; top_passwords := top_passwords s; top_users := top_users s;
     top_commands := top_commands s; attack_timeline := attack_timeline s; countries := v;
     organizations := organizations s; asns := asns s; markers := markers s;
     heatpoints := heatpoints s |}.

Definition set_organizations (v : BoundedCounter.t string) (s : Stats) : Stats :=
  {| total_connections := total_connections s; failed_logins := failed_logins s;
     successful_logins := successful_logins s; commands_executed := commands_executed s;
     unique_ips := unique_ips s; unique_passwords := unique_passwords s;
     unique_users := unique_users s; recent_attacks := recent_attacks s;
     top_ips := top_ips s; top_passwords := top_passwords s; top_users := top_users s;
     top_commands := top_commands s; attack_timeline := attack_timeline s;
     countries := countries s; organizations := v; asns := asns s; markers := markers s;
     heatpoints := heatpoints s |}.

Definition set_asns (v : BoundedCounter.t string) (s : Stats) : Stats :=
  {| total_connections := total_connections s; failed_logins := failed_logins s;
     successful_logins := successful_logins s; commands_executed := commands_executed s;
     unique_ips := unique_ips s; unique_passwords := unique_passwords s;
     unique_users := unique_users s; recent_attacks := recent_attacks s;
     top_ips := top_ips s; top_passwords := top_passwords s; top_users := top_users s;
     top_commands := top_commands s; attack_timeline := attack_timeline s;
     countries := countries s; organizations := organizations s; asns := v;
     markers := markers s; heatpoints := heatpoints s |}.

Definition set_markers (v : Deque Marker) (s : Stats) : Stats :=
  {| total_connections := total_connections s; failed_logins := failed_logins s;
     successful_logins := successful_logins s; commands_executed := commands_executed s;
     unique_ips := unique_ips s; unique_passwords := unique_passwords s;
     unique_users := unique_users s; recent_attacks := recent_attacks s;
     top_ips := top_ips s; top_passwords := top_passwords s; top_users := top_users s;
     top_commands := top_commands s; attack_timeline := attack_timeline s;
     countries := countries s; organizations := organizations s; asns := asns s;
     markers := v; heatpoints := heatpoints s |}.

Definition set_heatpoints (v : Deque Heatpoint) (s : Stats) : Stats :=
  {| total_connections := total_connections s; failed_logins := failed_logins s;
     successful_logins := successful_logins s; commands_executed := commands_executed s;
     unique_ips := unique_ips s; unique_passwords := unique_passwords s;
     unique_users := unique_users s; recent_attacks := recent_attacks s;
     top_ips := top_ips s; top_passwords := top_passwords s; top_users := top_users s;
     top_commands := top_commands s; attack_timeline := attack_timeline s;
     countries := countries s; organizations := organizations s; asns := asns s;
     markers := markers s; heatpoints := v |}.

Definition set_stats (v : Stats) (m : CowrieMonitor) : CowrieMonitor :=
  {| log_path := log_path m; stats := v; alerts := alerts m;
     _alerted_ips := _alerted_ips m; _alerted_countries := _alerted_countries m;
     _alerted_orgs := _alerted_orgs m; running := running m;
     last_position := last_position m; _last_inode := _last_inode m;
     _stats_cache := _stats_cache m; _stats_cache_time := _stats_cache_time m;
     _stats_dirty := _stats_dirty m; _enrich_queue := _enrich_queue m |}.

Definition set_alerts (v : Deque Alert) (m : CowrieMonitor) : CowrieMonitor :=
  {| log_path := log_path m; stats := stats m; alerts := v;
     _alerted_ips := _alerted_ips m; _alerted_countries := _alerted_countries m;
     _alerted_orgs := _alerted_orgs m; running := running m;
     last_position := last_position m; _last_inode := _last_inode m;
     _stats_cache := _stats_cache m; _stats_cache_time := _stats_cache_time m;
     _stats_dirty := _stats_dirty m; _enrich_queue := _enrich_queue m |}.

Definition set_alerted_ips (v : BoundedSet.t string) (m : CowrieMonitor) : CowrieMonitor :=
  {| log_path := log_path m; stats := stats m; alerts := alerts m; _alerted_ips := v;
     _alerted_countries := _alerted_countries m; _alerted_orgs := _alerted_orgs m;
     running := running m; last_position := last_position m; _last_inode := _last_inode m;
     _stats_cache := _stats_cache m; _stats_cache_time := _stats_cache_time m;
     _stats_dirty := _stats_dirty m; _enrich_queue := _enrich_queue m |}.

Definition set_alerted_countries (v : BoundedSet.t string) (m : CowrieMonitor) : CowrieMonitor :=
  {| log_path := log_path m; stats := stats m; alerts := alerts m;
     _alerted_ips := _alerted_ips m; _alerted_countries := v;
     _alerted_orgs := _alerted_orgs m; running := running m;
     last_position := last_position m; _last_inode := _last_inode m;
     _stats_cache := _stats_cache m; _stats_cache_time := _stats_cache_time m;
     _stats_dirty := _stats_dirty m; _enrich_queue := _enrich_queue m |}.

Definition set_alerted_orgs (v : BoundedSet.t string) (m : CowrieMonitor) : CowrieMonitor :=
  {| log_path := log_path m; stats := stats m; alerts := alerts m;
     _alerted_ips := _alerted_ips m; _alerted_countries := _alerted_countries m;
     _alerted_orgs := v; running := running m; last_position := last_position m;
     _last_inode := _last_inode m; _stats_cache := _stats_cache m;
     _stats_cache_time := _stats_cache_time m; _stats_dirty := _stats_dirty m;
     _enrich_queue := _enrich_queue m |}.

Definition set_last_position (v : Z) (m : CowrieMonitor) : CowrieMonitor :=
  {| log_path := log_path m; stats := stats m; alerts := alerts m;
     _alerted_ips := _alerted_ips m; _alerted_countries := _alerted_countries m;
     _alerted_orgs := _alerted_orgs m; running := running m; last_position := v;
     _last_inode := _last_inode m; _stats_cache := _stats_cache m;
     _stats_cache_time := _stats_cache_time m; _stats_dirty := _stats_dirty m;
     _enrich_queue := _enrich_queue m |}.

Definition set_last_inode (v : option Z) (m : CowrieMonitor) : CowrieMonitor :=
  {| log_path := log_path m; stats := stats m; alerts := alerts m;
     _alerted_ips := _alerted_ips m; _alerted_countries := _alerted_countries m;
     _alerted_orgs := _alerted_orgs m; running := running m;
     last_position := last_position m; _last_inode := v; _stats_cache := _stats_cache m;
     _stats_cache_time := _stats_cache_time m; _stats_dirty := _stats_dirty m;
     _enrich_queue := _enrich_queue m |}.

Definition set_stats_cache (v : option Summary) (m : CowrieMonitor) : CowrieMonitor :=
  {| log_path := log_path m; stats := stats m; alerts := alerts m;
     _alerted_ips := _alerted_ips m; _alerted_countries := _alerted_countries m;
     _alerted_orgs := _alerted_orgs m; running := running m;
     last_position := last_position m; _last_inode := _last_inode m; _stats_cache := v;
     _stats_cache_time := _stats_cache_time m; _stats_dirty := _stats_dirty m;
     _enrich_queue := _enrich_queue m |}.

Definition set_stats_cache_time (v : Qc) (m : CowrieMonitor) : CowrieMonitor :=
  {| log_path := log_path m; stats := stats m; alerts := alerts m;
     _alerted_ips := _alerted_ips m; _alerted_countries := _alerted_countries m;
     _alerted_orgs := _alerted_orgs m; running := running m;
     last_position := last_position m; _last_inode := _last_inode m;
     _stats_cache := _stats_cache m; _stats_cache_time := v;
     _stats_dirty := _stats_dirty m; _enrich_queue := _enrich_queue m |}.

Definition set_stats_dirty (v : bool) (m : CowrieMonitor) : CowrieMonitor :=
  {| log_path := log_path m; stats := stats m; alerts := alerts m;
     _alerted_ips := _alerted_ips m; _alerted_countries := _alerted_countries m;
     _alerted_orgs := _alerted_orgs m; running := running m;
     last_position := last_position m; _last_inode := _last_inode m;
     _stats_cache := _stats_cache m; _stats_cache_time := _stats_cache_time m;
     _stats_dirty := v; _enrich_queue := _enrich_queue m |}.

Definition set_enrich_queue (v : Queue Entry) (m : CowrieMonitor) : CowrieMonitor :=
  {| log_path := log_path m; stats := stats m; alerts := alerts m;
     _alerted_ips := _alerted_ips m; _alerted_countries := _alerted_countries m;
     _alerted_orgs := _alerted_orgs m; running := running m;
     last_position := last_position m; _last_inode := _last_inode m;
     _stats_cache := _stats_cache m; _stats_cache_time := _stats_cache_time m;
     _stats_dirty := _stats_dirty m; _enrich_queue := v |}.

(** ** Python truth values and defaults *)

(** [if s:] for an optional string: present and not empty. *)
Definition nonempty (o : option string) : option string :=
  match o with
  | Some EmptyString => None
  | _ => o
  end.

(** [if x:] for an optional number: present and not zero. *)
Definition truthy_num (o : option Qc) : bool :=
  match o with
  | Some q => bool_decide (q ≠ Qc_of_Z 0)
  | None => false
  end.

(** [if geo:] and [if asn_info:] for a dict: it holds some key. *)
Definition geo_truthy (g : GeoLocation) : bool :=
  bool_decide (is_Some (geo_country g)) || bool_decide (is_Some (geo_city g))
  || bool_decide (is_Some (geo_latitude g)) || bool_decide (is_Some (geo_longitude g))
  || geo_other g.

Definition asn_truthy (a : AsnInfo) : bool :=
  bool_decide (is_Some (asn_organization a)) || bool_decide (is_Some (asn_asn a))
  || asn_other a.

(** [entry.get('geo_location', {}).get('country', 'Unknown')] *)
Definition country_of (entry : Entry) : string :=
  match geo_location entry with
  | Some g => default "Unknown"%string (geo_country g)
  | None => "Unknown"%string
  end.

(** [entry.get('asn_info', {}).get('organization', 'Unknown')] *)
Definition organization_of (entry : Entry) : string :=
  match asn_info entry with
  | Some a => default "Unknown"%string (asn_organization a)
  | None => "Unknown"%string
  end.

(** [entry.get('asn_info', {}).get('asn', 'Unknown')] *)
Definition asn_of (entry : Entry) : string :=
  match asn_info entry with
  | Some a => default "Unknown"%string (asn_asn a)
  | None => "Unknown"%string
  end.

(** [entry.get('geo_location', {}).get('latitude')] and [...('longitude')] *)
Definition latitude_of (entry : Entry) : option Qc :=
  geo_location entry ≫= geo_latitude.

Definition longitude_of (entry : Entry) : option Qc :=
  geo_location entry ≫= geo_longitude.

(** How a call ended: it returned, or [geo['country']] raised [KeyError]. *)
Inductive Outcome := Returned | RaisedKeyError.

(** The result of [update_stats]: the monitor afterwards, the alerts handed
    to [socketio.emit('alert', _)] in order, and how the call ended. *)
Record Step := mkStep {
  after : CowrieMonitor;
  emitted : list Alert;
  outcome : Outcome }.

(** ** CowrieMonitor *)

Section Monitor.
(** [cfg], and [enrich_log_entry] of the GeoIP and of the ASN service. *)
Context (cfg : Config) (geoip_enrich asn_enrich : Entry → Entry).

(** [__init__] *)
Definition init_stats : Stats := {|
  total_connections := 0;
  failed_logins := 0;
  successful_logins := 0;
  commands_executed := 0;
  unique_ips := BoundedSet.init (MAX_UNIQUE_IPS cfg);
  unique_passwords := BoundedSet.init (MAX_UNIQUE_PASSWORDS cfg);
  unique_users := BoundedSet.init (MAX_UNIQUE_USERS cfg);
  recent_attacks := deque_new (MAX_RECENT_ATTACKS cfg);
  top_ips := BoundedCounter.init (MAX_TOP_ENTRIES cfg);
  top_passwords := BoundedCounter.init (MAX_TOP_ENTRIES cfg);
  top_users := BoundedCounter.init (MAX_TOP_ENTRIES cfg);
  top_commands := BoundedCounter.init (MAX_TOP_ENTRIES cfg);
  attack_timeline := deque_new (MAX_TIMELINE_ENTRIES cfg);
  countries := BoundedCounter.init 500;
  organizations := BoundedCounter.init (MAX_TOP_ENTRIES cfg);
  asns := BoundedCounter.init (MAX_TOP_ENTRIES cfg);
  markers := deque_new (MAX_MAP_MARKERS cfg);
  heatpoints := deque_new (MAX_MAP_MARKERS cfg) |}.

Definition init : CowrieMonitor := {|
  log_path := COWRIE_LOG_PATH cfg;
  stats := init_stats;
  alerts := deque_new (MAX_ALERTS cfg);
  _alerted_ips := BoundedSet.init 10000;
  _alerted_countries := BoundedSet.init 500;
  _alerted_orgs := BoundedSet.init 5000;
  running := true;
  last_position := 0;
  _last_inode := None;
  _stats_cache := None;
  _stats_cache_time := Qc_of_Z 0;
  _stats_dirty := true;
  _enrich_queue := queue_new (ENRICHMENT_QUEUE_SIZE cfg) |}.

(** [_process_login] *)
Definition _process_login (entry : Entry) (is_success : bool) (s : Stats) : Stats :=
  let s := if is_success then set_successful_logins (successful_logins s + 1) s
           else set_failed_logins (failed_logins s + 1) s in
  let event_type := if is_success then "login.success"%string else "login.failed"%string in
  let s := match nonempty (password entry) with
           | Some p =>
               let s := set_unique_passwords (BoundedSet.add p (unique_passwords s)) s in
               set_top_passwords (BoundedCounter.increment p (top_passwords s)).1 s
           | None => s
           end in
  let s := match nonempty (username entry) with
           | Some u =>
               let s := set_unique_users (BoundedSet.add u (unique_users s)) s in
               set_top_users (BoundedCounter.increment u (top_users s)).1 s
           | None => s
           end in
  set_recent_attacks
    (deque_append {| at_timestamp := Some (default ""%string (timestamp entry));
                     at_ip := Some (default "Unknown"%string (src_ip entry));
                     at_event := event_type;
                     at_country := country_of entry;
                     at_organization := organization_of entry;
                     at_latitude := latitude_of entry;
                     at_longitude := longitude_of entry;
                     at_username := username entry;
                     at_password := password entry |}
                  (recent_attacks s)) s.

(** [_add_alert]; [now] is [datetime.now().isoformat()]. *)
Definition _add_alert (now level message : string) (entry : Entry)
    (m : CowrieMonitor) : CowrieMonitor * list Alert :=
  let alert := {| al_timestamp := now;
                  al_level := level;
                  al_message := message;
                  al_ip := src_ip entry;
                  al_country := country_of entry;
                  al_organization := organization_of entry |} in
  (set_alerts (deque_append alert (alerts m)) m, [alert]).

(** The four rules of [check_alerts], in the order of the source. *)
Definition check_ip (now : string) (entry : Entry) (m : CowrieMonitor)
    : CowrieMonitor * list Alert :=
  let ip := default ""%string (src_ip entry) in
  if bool_decide (eventid entry = Some "cowrie.session.connect"%string) then
    if (10 <? BoundedCounter.getitem (Some ip) (top_ips (stats m)))
       && negb (BoundedSet.contains ip (_alerted_ips m)) then
      _add_alert now "HIGH" ("High frequency attacks from " +:+ ip) entry
                 (set_alerted_ips (BoundedSet.add ip (_alerted_ips m)) m)
    else (m, [])
  else (m, []).

Definition check_password (now : string) (entry : Entry) (m : CowrieMonitor)
    : CowrieMonitor * list Alert :=
  let ip := default ""%string (src_ip entry) in
  if bool_decide (eventid entry = Some "cowrie.login.success"%string) then
    match nonempty (password entry) with
    | Some p =>
        if 20 <? Z.of_nat (String.length p) then
          _add_alert now "MEDIUM" ("Suspicious long password from " +:+ ip) entry m
        else (m, [])
    | None => (m, [])
    end
  else (m, []).

Definition check_country (now : string) (entry : Entry) (m : CowrieMonitor)
    : CowrieMonitor * list Alert :=
  match geo_location entry with
  | Some geo =>
      if geo_truthy geo then
        let country := default "Unknown"%string (geo_country geo) in
        if bool_decide (country ≠ "Unknown"%string) then
          let count := BoundedCounter.get country 0 (countries (stats m)) in
          if (20 <? count) && negb (BoundedSet.contains country (_alerted_countries m)) then
            _add_alert now "MEDIUM" ("High attack volume from " +:+ country) entry
              (set_alerted_countries (BoundedSet.add country (_alerted_countries m)) m)
          else (m, [])
        else (m, [])
      else (m, [])
  | None => (m, [])
  end.

Definition check_org (now : string) (entry : Entry) (m : CowrieMonitor)
    : CowrieMonitor * list Alert :=
  match asn_info entry with
  | Some a =>
      if asn_truthy a then
        match nonempty (asn_organization a) with
        | Some org =>
            let count := BoundedCounter.get org 0 (organizations (stats m)) in
            if (15 <? count) && negb (BoundedSet.contains org (_alerted_orgs m)) then
              _add_alert now "MEDIUM" ("High attack volume from " +:+ org) entry
                (set_alerted_orgs (BoundedSet.add org (_alerted_orgs m)) m)
            else (m, [])
        | None => (m, [])
        end
      else (m, [])
  | None => (m, [])
  end.

(** [check_alerts] *)
Definition check_alerts (now : string) (entry : Entry) (m : CowrieMonitor)
    : CowrieMonitor * list Alert :=
  let r1 := check_ip now entry m in
  let r2 := check_password now entry r1.1 in
  let r3 := check_country now entry r2.1 in
  let r4 := check_org now entry r3.1 in
  (r4.1, r1.2 ++ r2.2 ++ r3.2 ++ r4.2).

(** [_update_asn_stats] *)
Definition _update_asn_stats (entry : Entry) (m : CowrieMonitor) : CowrieMonitor :=
  match asn_info entry with
  | Some a =>
      if asn_truthy a then
        let s := stats m in
        let s := match nonempty (asn_organization a) with
                 | Some org =>
                     set_organizations (BoundedCounter.increment org (organizations s)).1 s
                 | None => s
                 end in
        let s := match nonempty (asn_asn a) with
                 | Some asn => set_asns (BoundedCounter.increment asn (asns s)).1 s
                 | None => s
                 end in
        set_stats_dirty true (set_stats s m)
      else m
  | None => m
  end.

(** One turn of the loop of [_enrichment_worker] that finds a job. *)
Definition _enrichment_worker (m : CowrieMonitor) : CowrieMonitor :=
  match q_items (_enrich_queue m) with
  | [] => m
  | entry :: rest =>
      let m := set_enrich_queue
                 {| q_items := rest; q_maxsize := q_maxsize (_enrich_queue m) |} m in
      _update_asn_stats (asn_enrich entry) m
  end.

(** [update_stats], the dispatch on the event kind; [evt] and [ip] are
    read from the entry before enrichment, the rest from the enriched
    [entry]. *)
Definition update_event (evt ip : option string) (entry : Entry) (s : Stats) : Stats :=
  if bool_decide (evt = Some "cowrie.session.connect"%string) then
    let s := set_total_connections (total_connections s + 1) s in
    let s := set_unique_ips (BoundedSet.add ip (unique_ips s)) s in
    let s := set_top_ips (BoundedCounter.increment ip (top_ips s)).1 s in
    set_recent_attacks
      (deque_append {| at_timestamp := timestamp entry;
                       at_ip := ip;
                       at_event := "connection";
                       at_country := country_of entry;
                       at_organization := organization_of entry;
                       at_latitude := latitude_of entry;
                       at_longitude := longitude_of entry;
                       at_username := username entry;
                       at_password := password entry |}
                    (recent_attacks s)) s
  else if bool_decide (evt = Some "cowrie.login.failed"%string) then
    _process_login entry false s
  else if bool_decide (evt = Some "cowrie.login.success"%string) then
    _process_login entry true s
  else if bool_decide (evt = Some "cowrie.command.input"%string) then
    let s := set_commands_executed (commands_executed s + 1) s in
    match nonempty (input entry) with
    | Some cmd => set_top_commands (BoundedCounter.increment cmd (top_commands s)).1 s
    | None => s
    end
  else s.

(** [update_stats], the map data: [None] when [geo['country']] raises. *)
Definition update_map_data (evt : option string) (entry : Entry) (s : Stats)
    : option Stats :=
  match geo_location entry with
  | Some geo =>
      if geo_truthy geo && truthy_num (geo_latitude geo) && truthy_num (geo_longitude geo)
      then
        match geo_latitude geo, geo_longitude geo, geo_country geo with
        | Some lat, Some lng, Some country =>
            let s := set_markers
              (deque_append {| mk_lat := lat;
                               mk_lng := lng;
                               mk_ip := src_ip entry;
                               mk_country := country;
                               mk_city := geo_city geo;
                               mk_timestamp := timestamp entry;
                               mk_event := evt;
                               mk_username := username entry;
                               mk_organization := organization_of entry;
                               mk_asn := asn_of entry |}
                            (markers s)) s in
            Some (set_heatpoints
              (deque_append {| hp_lat := lat; hp_lng := lng; hp_intensity := 1 |}
                            (heatpoints s)) s)
        | _, _, _ => None
        end
      else Some s
  | None => Some s
  end.

(** [update_stats], the country counter. *)
Definition update_country (entry : Entry) (s : Stats) : Stats :=
  match geo_location entry with
  | Some geo =>
      if geo_truthy geo then
        let country := default "Unknown"%string (geo_country geo) in
        if bool_decide (country ≠ "Unknown"%string) then
          set_countries (BoundedCounter.increment country (countries s)).1 s
        else s
      else s
  | None => s
  end.

(** [update_stats], the organization and ASN counters. *)
Definition update_asn (entry : Entry) (s : Stats) : Stats :=
  let org := asn_info entry ≫= asn_organization in
  let asn := asn_info entry ≫= asn_asn in
  let s := match nonempty org with
           | Some org =>
               set_organizations (BoundedCounter.increment org (organizations s)).1 s
           | None => s
           end in
  match nonempty asn with
  | Some asn => set_asns (BoundedCounter.increment asn (asns s)).1 s
  | None => s
  end.

(** [update_stats], the timeline. *)
Definition update_timeline (evt ip : option string) (entry : Entry) (s : Stats) : Stats :=
  set_attack_timeline
    (deque_append {| tl_timestamp := timestamp entry;
                     tl_event := evt;
                     tl_ip := ip;
                     tl_country := country_of entry;
                     tl_organization := organization_of entry;
                     tl_username := username entry |}
                  (attack_timeline s)) s.

(** [update_stats], the fallback: queue the entry for the background
    lookup when it has no organization. *)
Definition enqueue_fallback (entry : Entry) (m : CowrieMonitor) : CowrieMonitor :=
  match nonempty (asn_info entry ≫= asn_organization) with
  | Some _ => m
  | None => set_enrich_queue (put_nowait entry (_enrich_queue m)) m
  end.

(** [update_stats] *)
Definition update_stats (now : string) (entry : Entry) (m : CowrieMonitor) : Step :=
  let evt := eventid entry in
  let ip := src_ip entry in
  let entry := geoip_enrich entry in
  let entry := asn_enrich entry in
  let s := update_event evt ip entry (stats m) in
  match update_map_data evt entry s with
  | None => {| after := set_stats s m; emitted := []; outcome := RaisedKeyError |}
  | Some s =>
      let s := update_country entry s in
      let s := update_asn entry s in
      let s := update_timeline evt ip entry s in
      let m := set_stats_dirty true (set_stats s m) in
      let r := check_alerts now entry m in
      {| after := enqueue_fallback entry r.1; emitted := r.2; outcome := Returned |}
  end.

(** The records of a list fed to [update_stats] one after the other;
    [emitted] collects the alerts of all of them. *)
Definition feed (now : string) (entries : list Entry) (m : CowrieMonitor)
    : CowrieMonitor * list Alert :=
  foldl (λ acc entry, let r := update_stats now entry acc.1 in
                      (after r, acc.2 ++ emitted r))
        (m, []) entries.

(** [get_stats_summary], the block that builds the summary. *)
Definition build_summary (m : CowrieMonitor) : Summary :=
  let s := stats m in
  let total_logins := failed_logins s + successful_logins s in
  let success_rate :=
    (Qc_of_Z (successful_logins s) / Qc_of_Z (Z.max 1 total_logins) * Qc_of_Z 100)%Qc in
  {| sm_total_connections := total_connections s;
     sm_failed_logins := failed_logins s;
     sm_successful_logins := successful_logins s;
     sm_commands_executed := commands_executed s;
     sm_unique_ips := BoundedSet.len (unique_ips s);
     sm_unique_passwords := BoundedSet.len (unique_passwords s);
     sm_unique_users := BoundedSet.len (unique_users s);
     sm_success_rate := success_rate;
     sm_top_ips := BoundedCounter.top 500 (top_ips s);
     sm_top_passwords := BoundedCounter.top 500 (top_passwords s);
     sm_top_users := BoundedCounter.top 500 (top_users s);
     sm_top_commands := BoundedCounter.top 500 (top_commands s);
     sm_top_countries := BoundedCounter.top 500 (countries s);
     sm_top_organizations := BoundedCounter.top 500 (organizations s);
     sm_top_asns := BoundedCounter.top 500 (asns s);
     sm_recent_attacks :=
       drop (length (dq_items (recent_attacks s)) - 20) (dq_items (recent_attacks s));
     sm_markers := dq_items (markers s);
     sm_heatpoints := dq_items (heatpoints s);
     sm_alerts := dq_items (alerts m) |}.

(** The test that lets [get_stats_summary] answer from its cache. *)
Definition cache_fresh (now : Qc) (m : CowrieMonitor) : bool :=
  bool_decide (is_Some (_stats_cache m))
  && negb (_stats_dirty m)
  && bool_decide (now - _stats_cache_time m < STATS_CACHE_TTL cfg)%Qc.

(** [get_stats_summary]; [now] is [time.time()]. *)
Definition get_stats_summary (now : Qc) (m : CowrieMonitor) : Summary * CowrieMonitor :=
  match _stats_cache m with
  | Some cached =>
      if cache_fresh now m then (cached, m)
      else
        let summary := build_summary m in
        (summary, set_stats_dirty false
                    (set_stats_cache_time now (set_stats_cache (Some summary) m)))
  | None =>
      let summary := build_summary m in
      (summary, set_stats_dirty false
                  (set_stats_cache_time now (set_stats_cache (Some summary) m)))
  end.
End Monitor.

(** ** The log tailer *)

(** What the tailer sees of the file system: the inode a path names, if the
    path exists, and the bytes of each inode. *)
Record FileSystem := mkFS {
  path_inode : string → option Z;
  inode_data : Z → string }.

(** An open file: the inode it was opened on and its position. *)
Record FileHandle := mkHandle { fh_inode : Z; fh_pos : Z }.

(** The lines of a text, each with its newline; a last line without one is
    a line too. *)
Fixpoint lines_from (cur : string) (s : string) : list string :=
  match s with
  | EmptyString => match cur with EmptyString => [] | _ => [cur] end
  | String c s' =>
      if Ascii.eqb c "010"%char
      then (cur +:+ String c EmptyString) :: lines_from EmptyString s'
      else lines_from (cur +:+ String c EmptyString) s'
  end.

(** [readlines()] at position [pos] of the bytes [data]. *)
Definition readlines (data : string) (pos : Z) : list string :=
  let n := Z.to_nat pos in
  lines_from EmptyString (String.substring n (String.length data - n) data).

(** [tell()] after [readlines()]. *)
Definition tell_after_read (data : string) (pos : Z) : Z :=
  Z.max pos (Z.of_nat (String.length data)).

(** The state of the loop of [monitor_logs]: the monitor and the local
    [file_handle]. *)
Record Tailer := mkTailer {
  monitor : CowrieMonitor;
  file_handle : option FileHandle }.

Section Tailing.
Context (cfg : Config) (geoip_enrich asn_enrich : Entry → Entry).
(** [parse_log_entry] followed by the test [if entry:] of the loop: the
    entry of a line that holds a JSON object with some key. *)
Context (parse_log_entry : string → option Entry).

(** [_detect_log_rotation]: the answer and the monitor afterwards. *)
Definition _detect_log_rotation (fs : FileSystem) (m : CowrieMonitor)
    : bool * CowrieMonitor :=
  match path_inode fs (log_path m) with
  | Some current_inode =>
      let current_size := Z.of_nat (String.length (inode_data fs current_inode)) in
      if current_size <? last_position m then
        (true, set_last_inode (Some current_inode) (set_last_position 0 m))
      else if bool_decide (is_Some (_last_inode m))
              && bool_decide (Some current_inode ≠ _last_inode m) then
        (true, set_last_inode (Some current_inode) (set_last_position 0 m))
      else (false, set_last_inode (Some current_inode) m)
  | None => (false, m)
  end.

(** The first half of a turn of [monitor_logs], up to [tell()]: the lines
    read, and the tailer afterwards. A missing file closes the handle. *)
Definition poll_read (fs : FileSystem) (t : Tailer) : list string * Tailer :=
  match path_inode fs (log_path (monitor t)) with
  | None => ([], {| monitor := monitor t; file_handle := None |})
  | Some inode =>
      let (rotated, m) := _detect_log_rotation fs (monitor t) in
      let fh := match file_handle t with
                | Some fh => if rotated then {| fh_inode := inode; fh_pos := last_position m |}
                             else fh
                | None => {| fh_inode := inode; fh_pos := last_position m |}
                end in
      let data := inode_data fs (fh_inode fh) in
      let new_lines := readlines data (fh_pos fh) in
      let pos := tell_after_read data (fh_pos fh) in
      (new_lines,
       {| monitor := set_last_position pos m;
          file_handle := Some {| fh_inode := fh_inode fh; fh_pos := pos |} |})
  end.

(** The second half: each line that parses goes to [update_stats]; when a
    call raises, the handler closes the file and the rest of the lines is
    left. *)
Fixpoint process_lines (now : string) (lines : list string) (t : Tailer)
    : Tailer * list Alert :=
  match lines with
  | [] => (t, [])
  | line :: rest =>
      match parse_log_entry line with
      | Some entry =>
          let r := update_stats geoip_enrich asn_enrich now entry (monitor t) in
          match outcome r with
          | Returned =>
              let k := process_lines now rest
                         {| monitor := after r; file_handle := file_handle t |} in
              (k.1, emitted r ++ k.2)
          | RaisedKeyError =>
              ({| monitor := after r; file_handle := None |}, emitted r)
          end
      | None => process_lines now rest t
      end
  end.

(** One turn of the loop of [monitor_logs]. *)
Definition monitor_logs (now : string) (fs : FileSystem) (t : Tailer)
    : Tailer * list Alert :=
  let (new_lines, t) := poll_read fs t in
  process_lines now new_lines t.
End Tailing.

(** ** Vocabulary of the properties *)

(** The alert of the high-frequency rule for an address, and the alerts of
    the long-password rule. *)
Definition is_high_frequency (ip : string) (a : Alert) : Prop :=
  al_level a = "HIGH"%string
  ∧ al_message a = ("High frequency attacks from " +:+ ip)%string.

Definition is_long_password (a : Alert) : Prop :=
  al_level a = "MEDIUM"%string
  ∧ String.prefix "Suspicious long password from " (al_message a) = true.

Global Instance is_high_frequency_dec ip a : Decision (is_high_frequency ip a).
Proof. unfold is_high_frequency. apply _. Defined.

Global Instance is_long_password_dec a : Decision (is_long_password a).
Proof. unfold is_long_password. apply _. Defined.

(** An entry whose geolocation, when it has both coordinates, has a country:
    the entries on which [update_stats] does not raise. *)
Definition located_with_country (entry : Entry) : bool :=
  match geo_location entry with
  | Some geo =>
      if truthy_num (geo_latitude geo) && truthy_num (geo_longitude geo)
      then bool_decide (is_Some (geo_country geo))
      else true
  | None => true
  end.

(** A connect record from [ip] which the two lookups only annotate: they
    keep its kind and its address, and give it a well-formed geolocation. *)
Definition connect_from (geoip_enrich asn_enrich : Entry → Entry)
    (ip : string) (entry : Entry) : Prop :=
  eventid entry = Some "cowrie.session.connect"%string
  ∧ src_ip entry = Some ip
  ∧ eventid (asn_enrich (geoip_enrich entry)) = eventid entry
  ∧ src_ip (asn_enrich (geoip_enrich entry)) = src_ip entry
  ∧ located_with_country (asn_enrich (geoip_enrich entry)) = true.

(** A successful login with password [p], once the lookups have annotated
    the record, with a well-formed geolocation. *)
Definition login_success_with (geoip_enrich asn_enrich : Entry → Entry)
    (p : string) (entry : Entry) : Prop :=
  eventid (asn_enrich (geoip_enrich entry)) = Some "cowrie.login.success"%string
  ∧ password (asn_enrich (geoip_enrich entry)) = Some p
  ∧ located_with_country (asn_enrich (geoip_enrich entry)) = true.

(** The least connect record from [ip]. *)
Definition connect_entry (ip : string) : Entry :=
  {| eventid := Some "cowrie.session.connect"%string;
     src_ip := Some ip;
     timestamp := None;
     username := None;
     password := None;
     input := None;
     geo_location := None;
     asn_info := None |}.

(** [n] records in a row for each address of a list, address after address. *)
Fixpoint bursts (n : nat) (ips : list string) : list string :=
  match ips with
  | [] => []
  | ip :: rest => replicate n ip ++ bursts n rest
  end.

(** Distinct source addresses, as many as wanted. *)
Definition address (n : nat) : string := ("2001:db8::" +:+ pretty n)%string.

Definition addresses (n : nat) : list string := address <$> seq 0 n.

(** Two statistics that differ at most in the organization and ASN counters. *)
Definition stats_same_outside_asn (s s' : Stats) : Prop :=
  total_connections s' = total_connections s
  ∧ failed_logins s' = failed_logins s
  ∧ successful_logins s' = successful_logins s
  ∧ commands_executed s' = commands_executed s
  ∧ unique_ips s' = unique_ips s
  ∧ unique_passwords s' = unique_passwords s
  ∧ unique_users s' = unique_users s
  ∧ recent_attacks s' = recent_attacks s
  ∧ top_ips s' = top_ips s
  ∧ top_passwords s' = top_passwords s
  ∧ top_users s' = top_users s
  ∧ top_commands s' = top_commands s
  ∧ attack_timeline s' = attack_timeline s
  ∧ countries s' = countries s
  ∧ markers s' = markers s
  ∧ heatpoints s' = heatpoints s.

(** Two monitors that differ at most in the organization and ASN counters
    and in the dirty flag. *)
Definition same_outside_asn (m m' : CowrieMonitor) : Prop :=
  log_path m' = log_path m
  ∧ stats_same_outside_asn (stats m) (stats m')
  ∧ alerts m' = alerts m
  ∧ _alerted_ips m' = _alerted_ips m
  ∧ _alerted_countries m' = _alerted_countries m
  ∧ _alerted_orgs m' = _alerted_orgs m
  ∧ running m' = running m
  ∧ last_position m' = last_position m
  ∧ _last_inode m' = _last_inode m
  ∧ _stats_cache m' = _stats_cache m
  ∧ _stats_cache_time m' = _stats_cache_time m
  ∧ _enrich_queue m' = _enrich_queue m.

(** ** Further operations *)

(** [APIRateLimiter]: the request times kept for each client address. *)
Module APIRateLimiter.

Record t := mk {
  _requests : gmap string (list Qc);
  _max : Z;
  _window : Qc;
  _last_cleanup : Qc }.

(** [__init__]; [now] is [time.time()]. *)
Definition init (max_requests : Z) (window_seconds : Qc) (now : Qc) : t :=
  {| _requests := ∅; _max := max_requests; _window := window_seconds;
     _last_cleanup := now |}.

(** The test of the periodic cleanup: the list of an address is stale when
    it is empty or when its last time is older than the window. *)
Definition stale (now window : Qc) (v : list Qc) : Prop :=
  match last v with
  | None => True
  | Some t => (window < now - t)%Qc
  end.

Global Instance stale_dec now window v : Decision (stale now window v).
Proof. unfold stale. destruct (last v); apply _. Defined.

(** [is_allowed]: the answer and the limiter afterwards. *)
Definition is_allowed (ip : string) (now : Qc) (s : t) : bool * t :=
  let requests :=
    if decide (Qc_of_Z 300 < now - _last_cleanup s)%Qc
    then filter (λ kv, ¬ stale now (_window s) kv.2) (_requests s)
    else _requests s in
  let last_cleanup :=
    if decide (Qc_of_Z 300 < now - _last_cleanup s)%Qc then now else _last_cleanup s in
  let recent :=
    filter (λ t, (now - t < _window s)%Qc) (default [] (requests !! ip)) in
  if _max s <=? Z.of_nat (length recent) then
    (false, {| _requests := <[ip := recent]> requests; _max := _max s;
               _window := _window s; _last_cleanup := last_cleanup |})
  else
    (true, {| _requests := <[ip := recent ++ [now]]> requests; _max := _max s;
              _window := _window s; _last_cleanup := last_cleanup |}).

(** The calls of one client at the given times, in order: the answers, and
    the limiter afterwards. *)
Definition is_allowed_all (ip : string) (times : list Qc) (s : t) : list bool * t :=
  foldl (λ acc now, let r := is_allowed ip now acc.2 in (acc.1 ++ [r.1], r.2))
        ([], s) times.

End APIRateLimiter.

(** One turn of [stats_push_loop]: the summary pushed to the clients, if
    any, and the monitor afterwards. *)
Definition stats_push_loop (cfg : Config) (now : Qc) (m : CowrieMonitor)
    : option Summary * CowrieMonitor :=
  if _stats_dirty m then
    let r := get_stats_summary cfg now m in (Some r.1, r.2)
  else (None, m).

(** ** Vocabulary of the further properties *)

(** A counter, a set, a history and a queue within their capacities. *)
Definition counter_ok {K} `{EqDecision K} (c : BoundedCounter.t K) : Prop :=
  NoDup (PyDict.keys (BoundedCounter._data c))
  ∧ BoundedCounter.len c <= BoundedCounter._maxsize c.

Definition set_ok {K} `{Countable K} (s : BoundedSet.t K) : Prop :=
  BoundedSet.len s <= BoundedSet._maxsize s.

Definition deque_ok {A} (q : Deque A) : Prop :=
  (length (dq_items q) <= dq_maxlen q)%nat.

Definition queue_ok {A} (q : Queue A) : Prop :=
  0 < q_maxsize q → Z.of_nat (length (q_items q)) <= q_maxsize q.

(** All the bounded collections of the monitor within their capacities. *)
Definition stats_within_capacity (s : Stats) : Prop :=
  set_ok (unique_ips s) ∧ set_ok (unique_passwords s) ∧ set_ok (unique_users s)
  ∧ deque_ok (recent_attacks s)
  ∧ counter_ok (top_ips s) ∧ counter_ok (top_passwords s)
  ∧ counter_ok (top_users s) ∧ counter_ok (top_commands s)
  ∧ deque_ok (attack_timeline s)
  ∧ counter_ok (countries s) ∧ counter_ok (organizations s) ∧ counter_ok (asns s)
  ∧ deque_ok (markers s) ∧ deque_ok (heatpoints s).

Definition within_capacity (m : CowrieMonitor) : Prop :=
  stats_within_capacity (stats m)
  ∧ deque_ok (alerts m)
  ∧ set_ok (_alerted_ips m) ∧ set_ok (_alerted_countries m) ∧ set_ok (_alerted_orgs m)
  ∧ queue_ok (_enrich_queue m).

(** The job [update_stats] queues for the background lookup, if any: the
    enriched entry, when the call returns and found no organization. *)
Definition fallback_job (geoip_enrich asn_enrich : Entry → Entry) (entry : Entry)
    : option Entry :=
  let entry := asn_enrich (geoip_enrich entry) in
  if located_with_country entry then
    match nonempty (asn_info entry ≫= asn_organization) with
    | Some _ => None
    | None => Some entry
    end
  else None.

(** A connect record without a source address, which the lookups leave so. *)
Definition anonymous_connect (geoip_enrich asn_enrich : Entry → Entry)
    (entry : Entry) : Prop :=
  eventid entry = Some "cowrie.session.connect"%string
  ∧ src_ip entry = None
  ∧ eventid (asn_enrich (geoip_enrich entry)) = eventid entry
  ∧ src_ip (asn_enrich (geoip_enrich entry)) = None.

(** The tailer between two turns: an open handle stands at the saved
    offset, on the inode seen last. *)
Definition handle_in_step (t : Tailer) : Prop :=
  ∀ fh, file_handle t = Some fh →
        fh_pos fh = last_position (monitor t)
        ∧ _last_inode (monitor t) = Some (fh_inode fh).

(** What a rule of [check_alerts] may change from [m] to [r.1]: the sets of
    alerted keys, and the alert history, by the alerts [r.2] it emits. *)
Definition alert_rule_frame (m : CowrieMonitor) (r : CowrieMonitor * list Alert) : Prop :=
  stats r.1 = stats m
  ∧ _stats_dirty r.1 = _stats_dirty m
  ∧ _enrich_queue r.1 = _enrich_queue m
  ∧ _stats_cache r.1 = _stats_cache m
  ∧ _stats_cache_time r.1 = _stats_cache_time m
  ∧ last_position r.1 = last_position m
  ∧ _last_inode r.1 = _last_inode m
  ∧ log_path r.1 = log_path m
  ∧ alerts r.1 = foldl (λ q a, deque_append a q) (alerts m) r.2.

(** The times recorded for a client of the rate limiter (none when the
    client has no record). *)
Definition requests_of (ip : string) (s : APIRateLimiter.t) : list Qc :=
  default [] (APIRateLimiter._requests s !! ip).

(** No client of the rate limiter has more recorded times than the limit. *)
Definition requests_bounded (s : APIRateLimiter.t) : Prop :=
  ∀ ip l, APIRateLimiter._requests s !! ip = Some l →
          Z.of_nat (length l) <= Z.max 0 (APIRateLimiter._max s).

(** Times that are pairwise less than [window] apart (in either order). *)
Definition within_window (window : Qc) (times : list Qc) : Prop :=
  Forall (λ t, Forall (λ t', (t - t' < window)%Qc) times) times.

(** * Properties *)

(** ** Dictionaries *)

Section PyDictFacts.
Context {K : Type} `{EqDecision K}.
Implicit Types (d : PyDict.dict K) (k : K) (v : Z).

Lemma lookup_None_keys k d : PyDict.lookup k d = None ↔ k ∉ PyDict.keys d.
Proof.
  unfold PyDict.keys. induction d as [|[k' v'] d IH]; simpl.
  - split; [intros _; apply not_elem_of_nil | done].
  - rewrite not_elem_of_cons. destruct (decide (k = k')); [|tauto].
    split; [discriminate | tauto].
Qed.

Lemma lookup_Some_keys k d : is_Some (PyDict.lookup k d) ↔ k ∈ PyDict.keys d.
Proof.
  rewrite <- not_eq_None_Some, lookup_None_keys.
  destruct (decide (k ∈ PyDict.keys d)); tauto.
Qed.

Lemma set_fresh k v d : k ∉ PyDict.keys d → PyDict.set k v d = d ++ [(k, v)].
Proof.
  unfold PyDict.keys. induction d as [|[k' v'] d IH]; simpl; [done|].
  rewrite not_elem_of_cons. intros [Hne Hd].
  destruct (decide (k = k')); [done|]. by rewrite IH.
Qed.

Lemma lookup_set_eq k v d : PyDict.lookup k (PyDict.set k v d) = Some v.
Proof.
  induction d as [|[k' v'] d IH]; simpl.
  - by rewrite decide_True.
  - destruct (decide (k = k')) as [->|Hne]; simpl.
    + by rewrite decide_True.
    + by rewrite decide_False.
Qed.

Lemma lookup_set_ne k k' v d :
  k ≠ k' → PyDict.lookup k' (PyDict.set k v d) = PyDict.lookup k' d.
Proof.
  intros Hne. induction d as [|[k0 v0] d IH]; simpl.
  - by rewrite decide_False.
  - destruct (decide (k = k0)) as [->|]; simpl.
    + by rewrite !decide_False.
    + by rewrite IH.
Qed.

Lemma keys_set_present k v d :
  k ∈ PyDict.keys d → PyDict.keys (PyDict.set k v d) = PyDict.keys d.
Proof.
  unfold PyDict.keys. induction d as [|[k' v'] d IH]; simpl.
  - intros Hin. by apply elem_of_nil in Hin.
  - rewrite elem_of_cons. intros Hin.
    destruct (decide (k = k')); simpl; [done|].
    f_equal. apply IH. by destruct Hin.
Qed.

Lemma length_set_present k v d :
  k ∈ PyDict.keys d → length (PyDict.set k v d) = length d.
Proof.
  intros Hin. rewrite <- (length_fmap fst (PyDict.set k v d)), <- (length_fmap fst d).
  f_equal. by apply keys_set_present.
Qed.

Lemma NoDup_keys_set k v d :
  NoDup (PyDict.keys d) → NoDup (PyDict.keys (PyDict.set k v d)).
Proof.
  intros Hnd. destruct (decide (k ∈ PyDict.keys d)) as [Hin|Hout].
  - by rewrite keys_set_present.
  - rewrite set_fresh by done. unfold PyDict.keys. rewrite fmap_app. simpl.
    apply NoDup_app. split; [done|]. split; [|apply NoDup_singleton].
    intros x Hx Hx'. apply list_elem_of_singleton in Hx'. by subst.
Qed.

Lemma elem_of_keys_del k k' d :
  k' ∈ PyDict.keys (PyDict.del k d) → k' ∈ PyDict.keys d.
Proof.
  unfold PyDict.keys. induction d as [|[k0 v0] d IH]; simpl; [done|].
  destruct (decide (k = k0)); simpl; rewrite !elem_of_cons; tauto.
Qed.

Lemma elem_of_keys_del_ne k k' d :
  k ≠ k' → k' ∈ PyDict.keys d → k' ∈ PyDict.keys (PyDict.del k d).
Proof.
  intros Hne. unfold PyDict.keys. induction d as [|[k0 v0] d IH]; simpl; [done|].
  destruct (decide (k = k0)) as [->|]; simpl; rewrite !elem_of_cons; [|tauto].
  intros [?|?]; [congruence | done].
Qed.

Lemma NoDup_keys_del k d :
  NoDup (PyDict.keys d) → NoDup (PyDict.keys (PyDict.del k d)).
Proof.
  unfold PyDict.keys. induction d as [|[k0 v0] d IH]; simpl; [done|].
  rewrite NoDup_cons. intros [Hk0 Hd].
  destruct (decide (k = k0)); simpl; [done|].
  apply NoDup_cons. split; [|by apply IH].
  intros Hin. apply Hk0. by apply (elem_of_keys_del k).
Qed.

Lemma not_elem_of_keys_del k d :
  NoDup (PyDict.keys d) → k ∉ PyDict.keys (PyDict.del k d).
Proof.
  unfold PyDict.keys. induction d as [|[k0 v0] d IH]; simpl.
  - intros _. apply not_elem_of_nil.
  - rewrite NoDup_cons. intros [Hk0 Hd].
    destruct (decide (k = k0)) as [->|Hne]; simpl; [done|].
    rewrite not_elem_of_cons. split; [done | by apply IH].
Qed.

Lemma length_del k d :
  k ∈ PyDict.keys d → S (length (PyDict.del k d)) = length d.
Proof.
  unfold PyDict.keys. induction d as [|[k0 v0] d IH]; simpl.
  - intros Hin. by apply elem_of_nil in Hin.
  - rewrite elem_of_cons. intros Hin.
    destruct (decide (k = k0)); simpl; [done|].
    rewrite IH; [done|]. by destruct Hin.
Qed.

(** Deleting a list of distinct keys, all present, removes that many
    items. *)
Lemma length_del_all (ks : list K) d :
  NoDup ks → (∀ k, k ∈ ks → k ∈ PyDict.keys d) →
  (length (foldl (λ d k, PyDict.del k d) d ks) + length ks = length d)%nat.
Proof.
  revert d. induction ks as [|k ks IH]; intros d Hnd Hin; simpl; [lia|].
  apply NoDup_cons in Hnd as [Hk Hnd].
  rewrite <- (length_del k d) by (apply Hin; left).
  rewrite <- (IH (PyDict.del k d)); [lia | done |].
  intros k' Hk'. apply elem_of_keys_del_ne.
  - intros ->. done.
  - apply Hin. by right.
Qed.

Lemma NoDup_keys_del_all (ks : list K) d :
  NoDup (PyDict.keys d) → NoDup (PyDict.keys (foldl (λ d k, PyDict.del k d) d ks)).
Proof.
  revert d. induction ks as [|k ks IH]; intros d Hnd; simpl; [done|].
  apply IH. by apply NoDup_keys_del.
Qed.

Lemma elem_of_keys_del_all (ks : list K) k d :
  k ∈ PyDict.keys (foldl (λ d k, PyDict.del k d) d ks) → k ∈ PyDict.keys d.
Proof.
  revert d. induction ks as [|k0 ks IH]; intros d; simpl; [done|].
  intros Hin. apply IH in Hin. by apply elem_of_keys_del in Hin.
Qed.

Lemma not_elem_of_keys_del_all (ks : list K) k d :
  NoDup (PyDict.keys d) → k ∈ ks →
  k ∉ PyDict.keys (foldl (λ d k, PyDict.del k d) d ks).
Proof.
  revert d. induction ks as [|k0 ks IH]; intros d Hnd Hin; simpl.
  - by apply elem_of_nil in Hin.
  - apply elem_of_cons in Hin as [->|Hin].
    + intros Hk. apply elem_of_keys_del_all in Hk.
      by apply not_elem_of_keys_del in Hk.
    + apply IH; [by apply NoDup_keys_del | done].
Qed.

(** The items that stay keep their counts. *)
Lemma lookup_del_ne k k' d :
  k ≠ k' → PyDict.lookup k' (PyDict.del k d) = PyDict.lookup k' d.
Proof.
  intros Hne. induction d as [|[k0 v0] d IH]; simpl; [done|].
  destruct (decide (k = k0)) as [->|]; simpl.
  - by rewrite decide_False.
  - by rewrite IH.
Qed.

Lemma insert_by_perm le (x : K * Z) (l : list (K * Z)) :
  PyDict.insert_by le x l ≡ₚ x :: l.
Proof.
  induction l as [|y l IH]; simpl; [done|].
  destruct (le x.2 y.2); [done|]. rewrite IH. apply Permutation_swap.
Qed.

(** Sorting keeps the items. *)
Lemma sorted_by_perm le d : PyDict.sorted_by le d ≡ₚ d.
Proof.
  unfold PyDict.sorted_by. induction d as [|x d IH]; simpl; [done|].
  by rewrite insert_by_perm, IH.
Qed.

(** A new key whose count is below all others sorts first. *)
Lemma sorted_by_fresh_min k v d :
  Forall (λ kv, v < kv.2) d →
  PyDict.sorted_by Z.leb (d ++ [(k, v)]) = (k, v) :: PyDict.sorted_by Z.leb d.
Proof.
  unfold PyDict.sorted_by. induction 1 as [|y d Hy Hd IH]; simpl; [done|].
  rewrite IH. simpl. by rewrite (proj2 (Z.leb_gt _ _) Hy).
Qed.

Lemma slice_to_pos {A} (n : Z) (l : list A) :
  0 <= n → PyDict.slice_to n l = take (Z.to_nat n) l.
Proof. intros Hn. unfold PyDict.slice_to. by rewrite (proj2 (Z.leb_le _ _) Hn). Qed.
End PyDictFacts.

(** ** BoundedCounter *)

Section BoundedCounterFacts.
Context {K : Type} `{EqDecision K}.
Implicit Types (c : BoundedCounter.t K) (d : PyDict.dict K) (k : K).

Lemma maybe_evict_room d C :
  PyDict.len d <= C →
  BoundedCounter._maybe_evict (BoundedCounter.mk d C) = BoundedCounter.mk d C.
Proof.
  intros Hle. unfold BoundedCounter._maybe_evict. simpl.
  by rewrite (proj2 (Z.ltb_ge _ _) Hle).
Qed.

Lemma maybe_evict_maxsize c :
  BoundedCounter._maxsize (BoundedCounter._maybe_evict c) = BoundedCounter._maxsize c.
Proof. unfold BoundedCounter._maybe_evict. by destruct (_ <? _). Qed.

Lemma maybe_evict_NoDup c :
  NoDup (PyDict.keys (BoundedCounter._data c)) →
  NoDup (PyDict.keys (BoundedCounter._data (BoundedCounter._maybe_evict c))).
Proof.
  intros Hnd. unfold BoundedCounter._maybe_evict.
  destruct (_ <? _); [|done]. simpl. by apply NoDup_keys_del_all.
Qed.

Lemma maybe_evict_keys c k :
  k ∈ PyDict.keys (BoundedCounter._data (BoundedCounter._maybe_evict c)) →
  k ∈ PyDict.keys (BoundedCounter._data c).
Proof.
  unfold BoundedCounter._maybe_evict. destruct (_ <? _); [|done]. simpl.
  apply elem_of_keys_del_all.
Qed.

Lemma sorted_keys_perm d : (PyDict.sorted_by Z.leb d).*1 ≡ₚ PyDict.keys d.
Proof. unfold PyDict.keys. by rewrite sorted_by_perm. Qed.

(** Over capacity, eviction removes [max(1, maxsize // 10)] keys, or all
    of them when there are fewer. *)
Lemma maybe_evict_len c :
  NoDup (PyDict.keys (BoundedCounter._data c)) →
  BoundedCounter._maxsize c < BoundedCounter.len c →
  BoundedCounter.len (BoundedCounter._maybe_evict c)
  = BoundedCounter.len c
    - Z.min (Z.max 1 (BoundedCounter._maxsize c / 10)) (BoundedCounter.len c).
Proof.
  intros Hnd Hover. unfold BoundedCounter._maybe_evict, BoundedCounter.len in *.
  rewrite (proj2 (Z.ltb_lt _ _) Hover). simpl.
  set (e := Z.max 1 (BoundedCounter._maxsize c / 10)).
  assert (0 <= e) as He by (unfold e; lia).
  rewrite slice_to_pos by done.
  set (ks := take (Z.to_nat e) (PyDict.sorted_by Z.leb (BoundedCounter._data c)).*1).
  pose proof (sorted_keys_perm (BoundedCounter._data c)) as Hperm.
  assert (NoDup ks) as Hks.
  { unfold ks. eapply sublist_NoDup; [|apply sublist_take]. by rewrite Hperm. }
  assert (∀ k, k ∈ ks → k ∈ PyDict.keys (BoundedCounter._data c)) as Hin.
  { intros k Hk. rewrite <- Hperm. eapply subseteq_take, Hk. }
  pose proof (length_del_all ks _ Hks Hin) as Hlen.
  assert (length ks = Nat.min (Z.to_nat e) (length (BoundedCounter._data c))) as Hk.
  { unfold ks. rewrite length_take. f_equal.
    rewrite (Permutation_length Hperm). unfold PyDict.keys. by rewrite length_fmap. }
  unfold PyDict.len. lia.
Qed.

Lemma length_set_le k v d : (length (PyDict.set k v d) <= S (length d))%nat.
Proof.
  destruct (decide (k ∈ PyDict.keys d)).
  - rewrite length_set_present by done. lia.
  - rewrite set_fresh by done. rewrite length_app. simpl. lia.
Qed.

(** Storing into a counter that is within its capacity leaves it within
    its capacity. *)
Lemma maybe_evict_set_bound k v c :
  NoDup (PyDict.keys (BoundedCounter._data c)) →
  BoundedCounter.len c <= BoundedCounter._maxsize c →
  let c' := BoundedCounter._maybe_evict
              (BoundedCounter.mk (PyDict.set k v (BoundedCounter._data c))
                                 (BoundedCounter._maxsize c)) in
  NoDup (PyDict.keys (BoundedCounter._data c'))
  ∧ BoundedCounter.len c' <= BoundedCounter._maxsize c
  ∧ BoundedCounter._maxsize c' = BoundedCounter._maxsize c.
Proof.
  intros Hnd Hle c'.
  assert (NoDup (PyDict.keys (PyDict.set k v (BoundedCounter._data c)))) as Hnd'
    by by apply NoDup_keys_set.
  split; [by apply maybe_evict_NoDup|].
  split; [|unfold c'; by rewrite maybe_evict_maxsize].
  pose proof (length_set_le k v (BoundedCounter._data c)) as Hset.
  unfold BoundedCounter.len, PyDict.len in Hle.
  destruct (decide (PyDict.len (PyDict.set k v (BoundedCounter._data c))
                    <= BoundedCounter._maxsize c)) as [Hroom|Hfull].
  - unfold c'. rewrite maybe_evict_room by done. done.
  - unfold c'. rewrite maybe_evict_len; [|done|unfold BoundedCounter.len; simpl; lia].
    unfold BoundedCounter.len, PyDict.len in *. simpl in *. lia.
Qed.

Lemma apply_bound (o : BoundedCounter.op K) c :
  NoDup (PyDict.keys (BoundedCounter._data c)) →
  BoundedCounter.len c <= BoundedCounter._maxsize c →
  NoDup (PyDict.keys (BoundedCounter._data (BoundedCounter.apply o c)))
  ∧ BoundedCounter.len (BoundedCounter.apply o c) <= BoundedCounter._maxsize c
  ∧ BoundedCounter._maxsize (BoundedCounter.apply o c) = BoundedCounter._maxsize c.
Proof. intros Hnd Hle. destruct o; simpl; by apply maybe_evict_set_bound. Qed.

Lemma run_bound (ops : list (BoundedCounter.op K)) c :
  NoDup (PyDict.keys (BoundedCounter._data c)) →
  BoundedCounter.len c <= BoundedCounter._maxsize c →
  BoundedCounter.len (BoundedCounter.run ops c) <= BoundedCounter._maxsize c.
Proof.
  revert c. induction ops as [|o ops IH]; intros c Hnd Hle; simpl; [done|].
  destruct (apply_bound o c Hnd Hle) as (Hnd' & Hle' & Hmax).
  rewrite <- Hmax. apply IH; [done|]. by rewrite Hmax.
Qed.

(** A new key in a counter with room is appended with count 1. *)
Lemma increment_fresh_room k d C :
  k ∉ PyDict.keys d → PyDict.len d < C →
  BoundedCounter.increment k (BoundedCounter.mk d C)
  = (BoundedCounter.mk (d ++ [(k, 1)]) C, 1).
Proof.
  intros Hk Hlen. unfold BoundedCounter.increment, PyDict.get. simpl.
  rewrite lookup_set_eq.
  rewrite (proj2 (lookup_None_keys k d) Hk). simpl.
  rewrite set_fresh by done. rewrite maybe_evict_room; [done|].
  unfold PyDict.len in *. rewrite length_app. simpl. lia.
Qed.

(** A key that is present in a counter within its capacity is counted up
    in place. *)
Lemma increment_present_room k v d C :
  PyDict.lookup k d = Some v → PyDict.len d <= C →
  BoundedCounter.increment k (BoundedCounter.mk d C)
  = (BoundedCounter.mk (PyDict.set k (v + 1) d) C, v + 1).
Proof.
  intros Hk Hlen. unfold BoundedCounter.increment, PyDict.get. simpl.
  rewrite lookup_set_eq, Hk. rewrite maybe_evict_room; [done|].
  unfold PyDict.len in *. rewrite length_set_present; [done|].
  apply lookup_Some_keys. by rewrite Hk.
Qed.

(** A new key in a counter that is full: the eviction it triggers takes
    the key itself when all other counts are above 1. *)
Lemma increment_fresh_full k d C :
  NoDup (PyDict.keys d) → k ∉ PyDict.keys d → 0 <= C → PyDict.len d = C →
  let r := BoundedCounter.increment k (BoundedCounter.mk d C) in
  r.2 = 1
  ∧ NoDup (PyDict.keys (BoundedCounter._data r.1))
  ∧ BoundedCounter._maxsize r.1 = C
  ∧ BoundedCounter.len r.1 = C + 1 - Z.max 1 (C / 10)
  ∧ (Forall (λ kv, 1 < kv.2) d → k ∉ PyDict.keys (BoundedCounter._data r.1)).
Proof.
  intros Hnd Hk HC Hlen r. unfold r, BoundedCounter.increment, PyDict.get. simpl.
  rewrite lookup_set_eq. rewrite (proj2 (lookup_None_keys k d) Hk).
  change (0 + 1) with 1. rewrite set_fresh by done.
  assert (NoDup (PyDict.keys (d ++ [(k, 1)]))) as Hnd'.
  { rewrite <- (set_fresh k 1 d) by done. by apply NoDup_keys_set. }
  assert (PyDict.len (d ++ [(k, 1)]) = C + 1) as Hlen'.
  { unfold PyDict.len in *. rewrite length_app. simpl. lia. }
  split; [done|]. split; [by apply maybe_evict_NoDup|].
  split; [by apply maybe_evict_maxsize|]. split.
  - rewrite maybe_evict_len; [|done|].
    + unfold BoundedCounter.len.
      cbn [BoundedCounter._data BoundedCounter._maxsize]. rewrite Hlen'.
      assert (C / 10 <= C) by (apply Z.div_le_upper_bound; lia). lia.
    + unfold BoundedCounter.len.
      cbn [BoundedCounter._data BoundedCounter._maxsize]. rewrite Hlen'. lia.
  - intros Hbig. unfold BoundedCounter._maybe_evict. simpl.
    rewrite (proj2 (Z.ltb_lt C (PyDict.len (d ++ [(k, 1)])))) by lia. simpl.
    rewrite slice_to_pos by lia. rewrite sorted_by_fresh_min by done.
    apply not_elem_of_keys_del_all; [done|].
    destruct (Z.to_nat (Z.max 1 (C / 10))) as [|n] eqn:Hn; [lia|].
    simpl. left.
Qed.
End BoundedCounterFacts.

Section BoundedCounterClaims.
Context {K : Type} `{EqDecision K}.
Implicit Types (c : BoundedCounter.t K) (d : PyDict.dict K) (k : K).

Lemma increment_all_app (l1 l2 : list K) c :
  BoundedCounter.increment_all (l1 ++ l2) c
  = BoundedCounter.increment_all l2 (BoundedCounter.increment_all l1 c).
Proof. unfold BoundedCounter.increment_all. apply foldl_app. Qed.

(** Distinct new keys, as long as there is room, are appended with
    count 1 each. *)
Lemma increment_all_room (ks : list K) d C :
  NoDup ks → (∀ k, k ∈ ks → k ∉ PyDict.keys d) →
  PyDict.len d + Z.of_nat (length ks) <= C →
  BoundedCounter.increment_all ks (BoundedCounter.mk d C)
  = BoundedCounter.mk (d ++ ((λ k, (k, 1)) <$> ks)) C.
Proof.
  revert d. induction ks as [|k ks IH]; intros d Hnd Hout Hlen.
  - simpl. by rewrite app_nil_r.
  - apply NoDup_cons in Hnd as [Hk Hnd]. simpl in Hlen.
    change (BoundedCounter.increment_all (k :: ks) (BoundedCounter.mk d C))
      with (BoundedCounter.increment_all ks
              (BoundedCounter.increment k (BoundedCounter.mk d C)).1).
    rewrite increment_fresh_room; [|apply Hout; left|lia]. simpl.
    rewrite IH; [by rewrite <- app_assoc | done | |].
    + intros k' Hk'. unfold PyDict.keys. rewrite fmap_app, elem_of_app. simpl.
      intros [Hin|Hin%list_elem_of_singleton].
      * by apply (Hout k'); [right|].
      * by subst.
    + unfold PyDict.len in *. rewrite length_app. simpl. lia.
Qed.

Lemma keys_ones (ks : list K) : PyDict.keys ((λ k, (k, 1)) <$> ks) = ks.
Proof.
  unfold PyDict.keys. rewrite <- list_fmap_compose.
  rewrite <- (list_fmap_id ks) at 2. by apply list_fmap_ext.
Qed.

(** C1 (as amended). For a counter of capacity [C >= 0]: after any
    sequence of [increment] and [__setitem__] calls on a new counter the
    number of stored keys is at most [C]; and when [C + 1] distinct keys
    are inserted one [increment] each, the size is [n] after the first
    [n <= C] of them, and the last one, which takes the size over [C],
    triggers an eviction after which the size is
    [C + 1 - max(1, C // 10)]. *)
Theorem bounded_counter_capacity (C : Z) (ops : list (BoundedCounter.op K))
    (ks : list K) (n : nat) :
  0 <= C → NoDup ks → Z.of_nat (length ks) = C + 1 → Z.of_nat n <= C →
  BoundedCounter.len (BoundedCounter.run ops (BoundedCounter.init C)) <= C
  ∧ BoundedCounter.len
      (BoundedCounter.increment_all (take n ks) (BoundedCounter.init C)) = Z.of_nat n
  ∧ BoundedCounter.len (BoundedCounter.increment_all ks (BoundedCounter.init C))
    = C + 1 - Z.max 1 (C / 10).
Proof.
  intros HC Hnd Hlen Hn.
  assert (∀ l : list K, NoDup l → Z.of_nat (length l) <= C →
          BoundedCounter.increment_all l (BoundedCounter.init C)
          = BoundedCounter.mk ((λ k, (k, 1)) <$> l) C) as Hroom.
  { intros l Hl Hlen'. unfold BoundedCounter.init.
    rewrite increment_all_room; [done | done | |].
    - intros k _. apply not_elem_of_nil.
    - unfold PyDict.len. simpl. lia. }
  split; [|split].
  - apply (run_bound ops (BoundedCounter.init C)); simpl.
    + apply NoDup_nil_2.
    + unfold BoundedCounter.len, PyDict.len. simpl. lia.
  - rewrite Hroom.
    + unfold BoundedCounter.len, PyDict.len. simpl.
      rewrite length_fmap, length_take. lia.
    + eapply sublist_NoDup; [done | apply sublist_take].
    + rewrite length_take. lia.
  - destruct (decide (ks = [])) as [->|Hne]; [simpl in Hlen; lia|].
    destruct (exists_last Hne) as (l & k & ->).
    rewrite length_app in Hlen. simpl in Hlen.
    apply NoDup_app in Hnd as (Hl & Hk & _).
    rewrite increment_all_app, Hroom by (done || lia). simpl.
    edestruct (increment_fresh_full k ((λ k, (k, 1)) <$> l) C)
      as (_ & _ & _ & Hsize & _); [| | done | | exact Hsize].
    + by rewrite keys_ones.
    + rewrite keys_ones. intros Hin. apply (Hk k Hin). left.
    + unfold PyDict.len. rewrite length_fmap. lia.
Qed.

Lemma contains_false_keys k c :
  BoundedCounter.contains k c = false ↔ k ∉ PyDict.keys (BoundedCounter._data c).
Proof.
  unfold BoundedCounter.contains, PyDict.contains.
  rewrite bool_decide_eq_false, <- lookup_None_keys, <- not_eq_None_Some.
  destruct (PyDict.lookup k (BoundedCounter._data c)); split; intros Hk; try done.
  - destruct Hk. done.
  - intros Hne. by apply Hne.
Qed.

(** C10. [increment] returns the count it has just stored, before the
    eviction: on a counter that holds as many keys as its capacity, all
    with counts of at least 2, [increment] of a key that is not tracked
    returns 1, and the eviction of that very call removes the key, so
    that [get] answers 0 right afterwards. *)
Theorem increment_may_evict_its_key c k :
  NoDup (PyDict.keys (BoundedCounter._data c)) →
  BoundedCounter.len c = BoundedCounter._maxsize c →
  BoundedCounter.contains k c = false →
  Forall (λ kv, 2 <= kv.2) (BoundedCounter.items c) →
  (BoundedCounter.increment k c).2 = 1
  ∧ BoundedCounter.contains k (BoundedCounter.increment k c).1 = false
  ∧ BoundedCounter.get k 0 (BoundedCounter.increment k c).1 = 0.
Proof.
  destruct c as [d C]. unfold BoundedCounter.len, BoundedCounter.items. simpl.
  intros Hnd Hlen Hk%contains_false_keys Hbig. simpl in Hk.
  assert (0 <= C) as HC by (unfold PyDict.len in Hlen; lia).
  destruct (increment_fresh_full k d C Hnd Hk HC Hlen) as (Hret & _ & _ & _ & Hout).
  assert (k ∉ PyDict.keys
            (BoundedCounter._data
               (BoundedCounter.increment k (BoundedCounter.mk d C)).1)) as Hgone.
  { apply Hout. eapply Forall_impl; [exact Hbig|]. simpl. intros; lia. }
  split; [done|]. split; [by apply contains_false_keys|].
  unfold BoundedCounter.get, PyDict.get.
  by rewrite (proj2 (lookup_None_keys _ _) Hgone).
Qed.
End BoundedCounterClaims.

Lemma bounded_counter_capacity_witness :
  BoundedCounter.len
    (BoundedCounter.run
       [BoundedCounter.Increment "a"; BoundedCounter.SetItem "b" 7;
        BoundedCounter.Increment "c"; BoundedCounter.Increment "a"]%string
       (BoundedCounter.init 2)) <= 2
  ∧ BoundedCounter.len
      (BoundedCounter.increment_all (take 2 ["x"; "y"; "z"]%string)
         (BoundedCounter.init 2)) = Z.of_nat 2
  ∧ BoundedCounter.len
      (BoundedCounter.increment_all ["x"; "y"; "z"]%string (BoundedCounter.init 2))
    = 2 + 1 - Z.max 1 (2 / 10).
Proof.
  apply (bounded_counter_capacity 2); [lia | | reflexivity | simpl; lia].
  apply (bool_decide_unpack _). reflexivity.
Defined.

(** C1 as the specification words it fails twice. With capacity 10, the
    eleventh distinct key takes the size to 11 and the eviction removes one
    key: the size is 10, not [10 - max(1, 10 // 10) = 9]. And a counter
    created with a negative capacity holds no key after an [increment],
    which is more than its capacity. *)
Lemma bounded_counter_capacity_counterexample :
  BoundedCounter.len
    (BoundedCounter.increment_all
       ["k0"; "k1"; "k2"; "k3"; "k4"; "k5"; "k6"; "k7"; "k8"; "k9"; "k10"]%string
       (BoundedCounter.init 10))
  ≠ 10 - Z.max 1 (10 / 10)
  ∧ ¬ (BoundedCounter.len
         (BoundedCounter.increment "a"%string (BoundedCounter.init (-1))).1 <= -1).
Proof. split; vm_compute; [discriminate | by intros H]. Qed.

Lemma increment_may_evict_its_key_witness :
  let c := BoundedCounter.mk [("a", 2); ("b", 5)]%string 2 in
  (BoundedCounter.increment "z"%string c).2 = 1
  ∧ BoundedCounter.contains "z"%string (BoundedCounter.increment "z"%string c).1 = false
  ∧ BoundedCounter.get "z"%string 0 (BoundedCounter.increment "z"%string c).1 = 0.
Proof.
  apply increment_may_evict_its_key.
  - apply (bool_decide_unpack _). reflexivity.
  - reflexivity.
  - reflexivity.
  - repeat constructor; simpl; lia.
Defined.

(** ** BoundedSet *)

Section BoundedSetFacts.
Context {K : Type} `{Countable K}.
Implicit Types (s : BoundedSet.t K) (x : K).

Lemma add_stored x s : x ∈ BoundedSet._data s → BoundedSet.add x s = s.
Proof. intros Hin. unfold BoundedSet.add. by rewrite decide_True. Qed.

Lemma add_room x s :
  x ∉ BoundedSet._data s → BoundedSet.len s < BoundedSet._maxsize s →
  BoundedSet.add x s
  = BoundedSet.mk (BoundedSet._data s ∪ {[x]}) (BoundedSet._maxsize s)
                  (BoundedSet._overflow_count s).
Proof.
  intros Hout Hroom. unfold BoundedSet.add, BoundedSet.len in *.
  rewrite decide_False by done. by rewrite (proj2 (Z.ltb_lt _ _) Hroom).
Qed.

Lemma add_full x s :
  x ∉ BoundedSet._data s → BoundedSet._maxsize s <= BoundedSet.len s →
  BoundedSet.add x s
  = BoundedSet.mk (BoundedSet._data s) (BoundedSet._maxsize s)
                  (BoundedSet._overflow_count s + 1).
Proof.
  intros Hout Hfull. unfold BoundedSet.add, BoundedSet.len in *.
  rewrite decide_False by done. by rewrite (proj2 (Z.ltb_ge _ _) Hfull).
Qed.

(** C4 (as amended). A second [add] of the same item changes nothing when
    the item is stored or the set has room for it; when the set is full
    and the item is not stored, every [add] of it leaves the contents as
    they are and counts one more overflow. *)
Theorem add_twice x s :
  (x ∈ BoundedSet._data s ∨ BoundedSet.len s < BoundedSet._maxsize s →
   BoundedSet.add x (BoundedSet.add x s) = BoundedSet.add x s)
  ∧ (x ∉ BoundedSet._data s → BoundedSet._maxsize s <= BoundedSet.len s →
     BoundedSet._data (BoundedSet.add x (BoundedSet.add x s)) = BoundedSet._data s
     ∧ BoundedSet._overflow_count (BoundedSet.add x s)
       = BoundedSet._overflow_count s + 1
     ∧ BoundedSet._overflow_count (BoundedSet.add x (BoundedSet.add x s))
       = BoundedSet._overflow_count s + 2).
Proof.
  split.
  - intros Hcase. destruct (decide (x ∈ BoundedSet._data s)) as [Hin|Hout].
    + by rewrite !(add_stored x s Hin).
    + destruct Hcase as [?|Hroom]; [done|].
      rewrite (add_room x s) by done. apply add_stored. simpl. set_solver.
  - intros Hout Hfull. rewrite (add_full x s) by done.
    rewrite add_full by done. simpl. repeat split; lia.
Qed.
End BoundedSetFacts.

Lemma add_twice_witness :
  BoundedSet.add "a"%string (BoundedSet.add "a"%string (BoundedSet.init 2))
  = BoundedSet.add "a"%string (BoundedSet.init 2)
  ∧ BoundedSet._overflow_count
      (BoundedSet.add "c"%string (BoundedSet.add "c"%string (BoundedSet.init 0)))
    = 0 + 2.
Proof.
  split.
  - apply (proj1 (add_twice "a"%string (BoundedSet.init 2))). right. reflexivity.
  - apply (proj2 (add_twice "c"%string (BoundedSet.init 0))).
    + simpl. apply not_elem_of_empty.
    + reflexivity.
Defined.

(** C4 as the specification words it fails: on a set of capacity 2 that
    holds "a" and "b", a second [add] of "c" counts a second overflow. *)
Lemma add_twice_counterexample :
  let s := BoundedSet.add "b"%string (BoundedSet.add "a"%string (BoundedSet.init 2)) in
  BoundedSet.add "c"%string (BoundedSet.add "c"%string s) ≠ BoundedSet.add "c"%string s.
Proof.
  intros s Heq. apply (f_equal BoundedSet._overflow_count) in Heq.
  vm_compute in Heq. discriminate.
Qed.

(** C7. With capacity 2, after adding "a", "b", "c" and "a" again, the set
    stores 2 items, has seen 3, and does not contain "c". *)
Theorem bounded_set_overflow :
  let s := foldl (λ s x, BoundedSet.add x s) (BoundedSet.init 2)
                 ["a"; "b"; "c"; "a"]%string in
  BoundedSet.len s = 2
  ∧ BoundedSet.total_seen s = 3
  ∧ BoundedSet.contains "c"%string s = false.
Proof. vm_compute. done. Qed.

(** ** The asynchronous enrichment path *)

(** C9. [_update_asn_stats] changes the organization counter, the ASN
    counter and the dirty flag, and nothing else of the monitor. *)
Theorem update_asn_stats_frame (entry : Entry) (m : CowrieMonitor) :
  same_outside_asn m (_update_asn_stats entry m).
Proof.
  unfold _update_asn_stats.
  destruct (asn_info entry) as [a|]; [destruct (asn_truthy a)|];
    [destruct (nonempty (asn_organization a)); destruct (nonempty (asn_asn a))| |];
    repeat split.
Qed.

(** ** The snapshot *)

Section Snapshot.
Context (cfg : Config).

Lemma get_stats_summary_stale now m :
  cache_fresh cfg now m = false →
  (get_stats_summary cfg now m).1 = build_summary m.
Proof.
  intros Hstale. unfold get_stats_summary.
  destruct (_stats_cache m); [|done]. by rewrite Hstale.
Qed.

(** C2 (as amended). Whenever [get_stats_summary] computes a snapshot (its
    cache is missing, dirty or older than the TTL), the success rate of
    the snapshot is the percentage
    [successful_logins / max(1, successful_logins + failed_logins) * 100]. *)
Theorem success_rate_is_percentage now m :
  cache_fresh cfg now m = false →
  sm_success_rate (get_stats_summary cfg now m).1
  = (Qc_of_Z (successful_logins (stats m))
     / Qc_of_Z (Z.max 1 (successful_logins (stats m) + failed_logins (stats m)))
     * Qc_of_Z 100)%Qc.
Proof.
  intros Hstale. rewrite get_stats_summary_stale by done. simpl.
  by rewrite (Z.add_comm (failed_logins (stats m))).
Qed.
End Snapshot.

Lemma success_rate_is_percentage_witness :
  sm_success_rate (get_stats_summary default_config (Qc_of_Z 5) (init default_config)).1
  = (Qc_of_Z (successful_logins (stats (init default_config)))
     / Qc_of_Z (Z.max 1 (successful_logins (stats (init default_config))
                         + failed_logins (stats (init default_config))))
     * Qc_of_Z 100)%Qc.
Proof. apply success_rate_is_percentage. reflexivity. Defined.

(** C2 as the specification words it fails: after one successful login and
    no failed one, the snapshot gives the rate 100, not [1 / max(1, 1 + 0)]. *)
Lemma success_rate_counterexample :
  let login := {| eventid := Some "cowrie.login.success"%string;
                  src_ip := Some "203.0.113.7"%string;
                  timestamp := None;
                  username := Some "root"%string;
                  password := Some "123456"%string;
                  input := None;
                  geo_location := None;
                  asn_info := None |} in
  let m := (feed id id "12:00" [login] (init default_config)).1 in
  successful_logins (stats m) = 1
  ∧ failed_logins (stats m) = 0
  ∧ sm_success_rate (get_stats_summary default_config (Qc_of_Z 5) m).1 = Qc_of_Z 100
  ∧ sm_success_rate (get_stats_summary default_config (Qc_of_Z 5) m).1
    ≠ (Qc_of_Z (successful_logins (stats m))
       / Qc_of_Z (Z.max 1 (successful_logins (stats m) + failed_logins (stats m))))%Qc.
Proof.
  intros login m. split; [reflexivity|]. split; [reflexivity|].
  assert (sm_success_rate (get_stats_summary default_config (Qc_of_Z 5) m).1
          = Qc_of_Z 100) as Hrate by (apply Qc_is_canon; reflexivity).
  split; [done|]. rewrite Hrate. intros Heq.
  apply (f_equal this) in Heq. vm_compute in Heq. discriminate.
Qed.

(** ** The tailer *)

Lemma substring_all (s : string) : String.substring 0 (String.length s) s = s.
Proof. induction s as [|c s IH]; simpl; [done|]. by rewrite IH. Qed.

Lemma readlines_start (data : string) : readlines data 0 = lines_from EmptyString data.
Proof.
  unfold readlines. simpl. rewrite Nat.sub_0_r. by rewrite substring_all.
Qed.

(** C8. When the file at the log path is smaller than the saved offset (as
    with the offset 100 and a file of 40 bytes), [_detect_log_rotation]
    answers that the log was rotated and sets the offset to 0, and the turn
    of [monitor_logs] opens the file anew and reads it from its first byte:
    it gets all the lines of the present content and leaves the offset at
    the end of the file. *)
Theorem rotation_rereads_from_start (fs : FileSystem) (t : Tailer) (inode : Z) :
  path_inode fs (log_path (monitor t)) = Some inode →
  Z.of_nat (String.length (inode_data fs inode)) < last_position (monitor t) →
  (_detect_log_rotation fs (monitor t)).1 = true
  ∧ last_position (_detect_log_rotation fs (monitor t)).2 = 0
  ∧ (poll_read fs t).1 = readlines (inode_data fs inode) 0
  ∧ readlines (inode_data fs inode) 0 = lines_from EmptyString (inode_data fs inode)
  ∧ file_handle (poll_read fs t).2
    = Some {| fh_inode := inode;
              fh_pos := Z.of_nat (String.length (inode_data fs inode)) |}
  ∧ last_position (monitor (poll_read fs t).2)
    = Z.of_nat (String.length (inode_data fs inode)).
Proof.
  intros Hpath Hshrunk.
  assert (_detect_log_rotation fs (monitor t)
          = (true, set_last_inode (Some inode) (set_last_position 0 (monitor t))))
    as Hrot.
  { unfold _detect_log_rotation. rewrite Hpath.
    by rewrite (proj2 (Z.ltb_lt _ _) Hshrunk). }
  assert (tell_after_read (inode_data fs inode) 0
          = Z.of_nat (String.length (inode_data fs inode))) as Htell
    by (unfold tell_after_read; lia).
  rewrite Hrot. split; [done|]. split; [done|].
  unfold poll_read. rewrite Hpath, Hrot.
  split; [by destruct (file_handle t)|]. split; [apply readlines_start|].
  destruct (file_handle t); simpl; rewrite Htell; done.
Qed.

Lemma rotation_rereads_from_start_witness :
  let data := "first line of the fresh log
second line
"%string in
  let fs := {| path_inode := λ _, Some 7; inode_data := λ _, data |} in
  let t := {| monitor := set_last_position 100 (init default_config);
              file_handle := Some {| fh_inode := 7; fh_pos := 100 |} |} in
  (_detect_log_rotation fs (monitor t)).1 = true
  ∧ last_position (_detect_log_rotation fs (monitor t)).2 = 0
  ∧ (poll_read fs t).1 = readlines data 0
  ∧ readlines data 0 = lines_from EmptyString data
  ∧ file_handle (poll_read fs t).2 = Some {| fh_inode := 7; fh_pos := 40 |}
  ∧ last_position (monitor (poll_read fs t).2) = 40.
Proof.
  intros data fs t.
  exact (rotation_rereads_from_start fs t 7 eq_refl eq_refl).
Defined.

(** ** Alerts *)

Lemma filter_high_frequency_medium (x : string) (out : list Alert) :
  Forall (λ a, al_level a = "MEDIUM"%string) out →
  filter (is_high_frequency x) out = [].
Proof.
  induction 1 as [|a out Ha _ IH]; [done|].
  rewrite filter_cons_False; [done|]. intros [Hlevel _]. congruence.
Qed.

Lemma filter_long_password_none (out : list Alert) :
  Forall (λ a, ¬ is_long_password a) out → filter is_long_password out = [].
Proof.
  induction 1 as [|a out Ha _ IH]; [done|]. by rewrite filter_cons_False.
Qed.

Lemma prefix_append (p s : string) : String.prefix p (p +:+ s) = true.
Proof.
  induction p as [|c p IH]; simpl; [by destruct s|].
  destruct (ascii_dec c c); [exact IH | done].
Qed.

Lemma high_frequency_message_inj (x ip : string) :
  ("High frequency attacks from " +:+ ip)%string
  = ("High frequency attacks from " +:+ x)%string → ip = x.
Proof. intros Heq. cbv [String.append] in Heq. by simplify_eq. Qed.

Section AlertFacts.
Context (now : string) (entry : Entry) (m : CowrieMonitor).

(** What the three later rules leave alone, and what they emit. *)
Lemma check_password_frame :
  stats (check_password now entry m).1 = stats m
  ∧ _alerted_ips (check_password now entry m).1 = _alerted_ips m
  ∧ Forall (λ a, al_level a = "MEDIUM"%string) (check_password now entry m).2.
Proof.
  unfold check_password. repeat case_match; simpl; repeat split; auto.
Qed.

Lemma check_country_frame :
  stats (check_country now entry m).1 = stats m
  ∧ _alerted_ips (check_country now entry m).1 = _alerted_ips m
  ∧ Forall (λ a, al_level a = "MEDIUM"%string ∧ ¬ is_long_password a)
           (check_country now entry m).2.
Proof.
  unfold check_country. repeat case_match; simpl; repeat split; auto.
  repeat constructor. intros [_ Hprefix]. simpl in Hprefix. discriminate.
Qed.

Lemma check_org_frame :
  stats (check_org now entry m).1 = stats m
  ∧ _alerted_ips (check_org now entry m).1 = _alerted_ips m
  ∧ Forall (λ a, al_level a = "MEDIUM"%string ∧ ¬ is_long_password a)
           (check_org now entry m).2.
Proof.
  unfold check_org. repeat case_match; simpl; repeat split; auto.
  repeat constructor. intros [_ Hprefix]. simpl in Hprefix. discriminate.
Qed.

Lemma check_ip_frame :
  stats (check_ip now entry m).1 = stats m
  ∧ Forall (λ a, ¬ is_long_password a) (check_ip now entry m).2.
Proof.
  unfold check_ip. repeat case_match; simpl; repeat split; auto.
  repeat constructor. intros [Hlevel _]. simpl in Hlevel. discriminate.
Qed.
End AlertFacts.

Section UpdateFacts.
Context (geoip_enrich asn_enrich : Entry → Entry) (now : string).
Implicit Types (entry : Entry) (m : CowrieMonitor) (s : Stats) (ip : string).

Lemma feed_acc (entries : list Entry) m (out : list Alert) :
  foldl (λ acc entry,
           let r := update_stats geoip_enrich asn_enrich now entry acc.1 in
           (after r, acc.2 ++ emitted r)) (m, out) entries
  = ((feed geoip_enrich asn_enrich now entries m).1,
     out ++ (feed geoip_enrich asn_enrich now entries m).2).
Proof.
  unfold feed. revert m out. induction entries as [|e es IH]; intros m out; simpl.
  - by rewrite app_nil_r.
  - rewrite IH. rewrite (IH _ (emitted _)). simpl. by rewrite app_assoc.
Qed.

Lemma feed_cons entry (entries : list Entry) m :
  feed geoip_enrich asn_enrich now (entry :: entries) m
  = ((feed geoip_enrich asn_enrich now entries
        (after (update_stats geoip_enrich asn_enrich now entry m))).1,
     emitted (update_stats geoip_enrich asn_enrich now entry m)
     ++ (feed geoip_enrich asn_enrich now entries
           (after (update_stats geoip_enrich asn_enrich now entry m))).2).
Proof. unfold feed at 1. simpl. by rewrite feed_acc. Qed.

Lemma feed_nil m : feed geoip_enrich asn_enrich now [] m = (m, []).
Proof. reflexivity. Qed.

Lemma feed_app (es1 es2 : list Entry) m :
  feed geoip_enrich asn_enrich now (es1 ++ es2) m
  = ((feed geoip_enrich asn_enrich now es2
        (feed geoip_enrich asn_enrich now es1 m).1).1,
     (feed geoip_enrich asn_enrich now es1 m).2
     ++ (feed geoip_enrich asn_enrich now es2
           (feed geoip_enrich asn_enrich now es1 m).1).2).
Proof.
  revert m. induction es1 as [|e es1 IH]; intros m.
  - rewrite feed_nil. simpl. by destruct (feed _ _ _ es2 m).
  - rewrite <- app_comm_cons, !feed_cons. cbn [fst snd].
    rewrite IH. cbn [fst snd]. by rewrite app_assoc.
Qed.

Lemma update_map_data_located evt entry s :
  located_with_country entry = true →
  ∃ s', update_map_data evt entry s = Some s' ∧ top_ips s' = top_ips s.
Proof.
  unfold located_with_country, update_map_data. intros Hloc.
  destruct (geo_location entry) as [geo|]; [|by eexists].
  destruct (geo_latitude geo) as [lat|]; simpl in *;
    [|rewrite andb_false_r; by eexists].
  destruct (geo_longitude geo) as [lng|]; simpl in *;
    [|rewrite !andb_false_r; by eexists].
  destruct (geo_truthy geo && bool_decide (lat ≠ Qc_of_Z 0)
            && bool_decide (lng ≠ Qc_of_Z 0)) eqn:Hcoord; [|by eexists].
  apply andb_prop in Hcoord as [[_ Hlat]%andb_prop Hlng].
  rewrite Hlat, Hlng in Hloc. simpl in Hloc.
  apply bool_decide_eq_true in Hloc as [country Hc]. rewrite Hc. by eexists.
Qed.

Lemma update_country_top_ips entry s : top_ips (update_country entry s) = top_ips s.
Proof. unfold update_country. by repeat case_match. Qed.

Lemma update_asn_top_ips entry s : top_ips (update_asn entry s) = top_ips s.
Proof. unfold update_asn. by repeat case_match. Qed.

Lemma enqueue_fallback_frame entry m :
  stats (enqueue_fallback entry m) = stats m
  ∧ _alerted_ips (enqueue_fallback entry m) = _alerted_ips m.
Proof. unfold enqueue_fallback. by case_match. Qed.

(** An entry without a malformed geolocation goes through all of
    [update_stats]: the alerts are those of [check_alerts] on the enriched
    entry. *)
Lemma update_stats_returned entry m :
  located_with_country (asn_enrich (geoip_enrich entry)) = true →
  ∃ m', update_stats geoip_enrich asn_enrich now entry m
        = {| after := enqueue_fallback (asn_enrich (geoip_enrich entry))
                        (check_alerts now (asn_enrich (geoip_enrich entry)) m').1;
             emitted := (check_alerts now (asn_enrich (geoip_enrich entry)) m').2;
             outcome := Returned |}
        ∧ top_ips (stats m')
          = top_ips (update_event (eventid entry) (src_ip entry)
                                  (asn_enrich (geoip_enrich entry)) (stats m))
        ∧ _alerted_ips m' = _alerted_ips m.
Proof.
  intros Hloc. unfold update_stats.
  destruct (update_map_data_located (eventid entry) _
              (update_event (eventid entry) (src_ip entry)
                            (asn_enrich (geoip_enrich entry)) (stats m)) Hloc)
    as (s' & -> & Htop).
  eexists. split; [reflexivity|]. simpl. split; [|done].
  by rewrite update_asn_top_ips, update_country_top_ips.
Qed.

(** The high-frequency rule on a connect record from [ip]. *)
Lemma check_ip_connect entry m ip :
  eventid entry = Some "cowrie.session.connect"%string → src_ip entry = Some ip →
  let hot := (10 <? BoundedCounter.getitem (Some ip) (top_ips (stats m)))
             && negb (BoundedSet.contains ip (_alerted_ips m)) in
  stats (check_ip now entry m).1 = stats m
  ∧ _alerted_ips (check_ip now entry m).1
    = (if hot then BoundedSet.add ip (_alerted_ips m) else _alerted_ips m)
  ∧ ∀ x, length (filter (is_high_frequency x) (check_ip now entry m).2)
         = if hot && bool_decide (x = ip) then 1%nat else 0%nat.
Proof.
  intros Hevt Hip hot. unfold check_ip. rewrite Hevt, Hip.
  rewrite bool_decide_eq_true_2 by done. change (default ""%string (Some ip)) with ip.
  fold hot. destruct hot; cbn [fst snd andb]; [|done].
  unfold _add_alert. cbn [fst snd]. split; [done|]. split; [done|].
  intros x. rewrite filter_cons. case_bool_decide as Hx.
  - subst x. by rewrite decide_True.
  - rewrite decide_False; [done|]. intros [_ Hmsg]. cbn [al_message] in Hmsg.
    by apply high_frequency_message_inj in Hmsg.
Qed.

(** [update_stats] on a connect record from [ip]: the address is counted,
    and the high-frequency rule fires when the count is above 10 and the
    address is not in the set of alerted addresses. *)
Lemma update_stats_connect entry m ip :
  connect_from geoip_enrich asn_enrich ip entry →
  let r := update_stats geoip_enrich asn_enrich now entry m in
  let top := (BoundedCounter.increment (Some ip) (top_ips (stats m))).1 in
  let hot := (10 <? BoundedCounter.getitem (Some ip) top)
             && negb (BoundedSet.contains ip (_alerted_ips m)) in
  top_ips (stats (after r)) = top
  ∧ _alerted_ips (after r)
    = (if hot then BoundedSet.add ip (_alerted_ips m) else _alerted_ips m)
  ∧ ∀ x, length (filter (is_high_frequency x) (emitted r))
         = if hot && bool_decide (x = ip) then 1%nat else 0%nat.
Proof.
  intros (Hevt & Hip & Hevt' & Hip' & Hloc) r top hot.
  destruct (update_stats_returned entry m Hloc) as (m' & Hr & Htop & Hal).
  rewrite Hevt in Hevt'. rewrite Hip in Hip'.
  assert (top_ips (stats m') = top) as Htop'.
  { rewrite Htop. unfold update_event. by rewrite Hevt, Hip. }
  unfold r. rewrite Hr. cbn [after emitted]. clear Hr r.
  set (e' := asn_enrich (geoip_enrich entry)) in *.
  destruct (check_ip_connect e' m' ip Hevt' Hip') as (Hs1 & Ha1 & Hout1).
  rewrite Htop', Hal in Ha1, Hout1. fold hot in Ha1, Hout1.
  destruct (check_password_frame now e' (check_ip now e' m').1) as (Hs2 & Ha2 & Hout2).
  destruct (check_country_frame now e'
              (check_password now e' (check_ip now e' m').1).1) as (Hs3 & Ha3 & Hout3).
  destruct (check_org_frame now e'
              (check_country now e'
                 (check_password now e' (check_ip now e' m').1).1).1)
    as (Hs4 & Ha4 & Hout4).
  destruct (enqueue_fallback_frame e' (check_alerts now e' m').1) as (Hs5 & Ha5).
  unfold check_alerts in *. cbn [fst snd] in *.
  split; [|split].
  - by rewrite Hs5, Hs4, Hs3, Hs2, Hs1.
  - by rewrite Ha5, Ha4, Ha3, Ha2.
  - intros x. rewrite !filter_app, !length_app.
    rewrite (filter_high_frequency_medium x _ Hout2).
    rewrite (filter_high_frequency_medium x (check_country _ _ _).2)
      by (eapply Forall_impl; [exact Hout3|]; intros a [Ha _]; exact Ha).
    rewrite (filter_high_frequency_medium x (check_org _ _ _).2)
      by (eapply Forall_impl; [exact Hout4|]; intros a [Ha _]; exact Ha).
    rewrite Hout1. simpl. lia.
Qed.
End UpdateFacts.

(** ** One address, connect after connect *)

Section TrackedKey.
Context {K : Type} `{EqDecision K}.
Implicit Types (d : PyDict.dict K) (k : K).

Lemma lookup_last k (j : Z) d :
  k ∉ PyDict.keys d → PyDict.lookup k (d ++ [(k, j)]) = Some j.
Proof.
  unfold PyDict.keys. induction d as [|[k' v'] d IH]; simpl.
  - intros _. by rewrite decide_True.
  - rewrite not_elem_of_cons. intros [Hne Hd]. rewrite decide_False by done. auto.
Qed.

Lemma set_last k (j v : Z) d :
  k ∉ PyDict.keys d → PyDict.set k v (d ++ [(k, j)]) = d ++ [(k, v)].
Proof.
  unfold PyDict.keys. induction d as [|[k' v'] d IH]; simpl.
  - intros _. by rewrite decide_True.
  - rewrite not_elem_of_cons. intros [Hne Hd]. rewrite decide_False by done.
    by rewrite IH.
Qed.

(** The key inserted last, while the counter has room, counts up in
    place. *)
Lemma increment_last k (j : Z) d C :
  k ∉ PyDict.keys d → PyDict.len d < C →
  BoundedCounter.increment k (BoundedCounter.mk (d ++ [(k, j)]) C)
  = (BoundedCounter.mk (d ++ [(k, j + 1)]) C, j + 1).
Proof.
  intros Hk Hlen. rewrite (increment_present_room k j).
  - by rewrite set_last.
  - by apply lookup_last.
  - unfold PyDict.len in *. rewrite length_app. simpl. lia.
Qed.

Lemma getitem_last k (j : Z) d C :
  k ∉ PyDict.keys d →
  BoundedCounter.getitem k (BoundedCounter.mk (d ++ [(k, j)]) C) = j.
Proof.
  intros Hk. unfold BoundedCounter.getitem, PyDict.get. simpl.
  by rewrite lookup_last.
Qed.

Lemma getitem_untracked k d C :
  k ∉ PyDict.keys d → BoundedCounter.getitem k (BoundedCounter.mk d C) = 0.
Proof.
  intros Hk. unfold BoundedCounter.getitem, PyDict.get. simpl.
  by rewrite (proj2 (lookup_None_keys k d) Hk).
Qed.
End TrackedKey.

Section ConnectFacts.
Context (geoip_enrich asn_enrich : Entry → Entry) (now : string).
Implicit Types (entry : Entry) (m : CowrieMonitor) (ip : string)
               (d : PyDict.dict (option string)).

Local Abbreviation connect := (connect_from geoip_enrich asn_enrich).
Local Abbreviation step := (update_stats geoip_enrich asn_enrich now).
Local Abbreviation run := (feed geoip_enrich asn_enrich now).

(** A connect from an address that is not tracked and finds room: it is
    tracked with count 1, and nothing is alerted. *)
Lemma step_fresh entry m ip d C :
  connect ip entry → top_ips (stats m) = BoundedCounter.mk d C →
  Some ip ∉ PyDict.keys d → PyDict.len d < C →
  top_ips (stats (after (step entry m))) = BoundedCounter.mk (d ++ [(Some ip, 1)]) C
  ∧ _alerted_ips (after (step entry m)) = _alerted_ips m
  ∧ ∀ x, filter (is_high_frequency x) (emitted (step entry m)) = [].
Proof.
  intros Hc Htop Hk Hlen.
  destruct (update_stats_connect geoip_enrich asn_enrich now entry m ip Hc)
    as (Ht & Ha & Hout).
  rewrite Htop, increment_fresh_room in Ht, Ha, Hout by done.
  cbn [fst] in Ht, Ha, Hout. rewrite getitem_last in Ha, Hout by done.
  change (10 <? 1) with false in Ha, Hout. cbn [andb] in Ha, Hout.
  split; [done|]. split; [done|]. intros x. by apply nil_length_inv.
Qed.

(** A connect from the address tracked last with count [j]. *)
Lemma step_tracked entry m ip d C (j : Z) :
  connect ip entry → top_ips (stats m) = BoundedCounter.mk (d ++ [(Some ip, j)]) C →
  Some ip ∉ PyDict.keys d → PyDict.len d < C →
  let hot := (10 <? j + 1) && negb (BoundedSet.contains ip (_alerted_ips m)) in
  top_ips (stats (after (step entry m)))
  = BoundedCounter.mk (d ++ [(Some ip, j + 1)]) C
  ∧ _alerted_ips (after (step entry m))
    = (if hot then BoundedSet.add ip (_alerted_ips m) else _alerted_ips m)
  ∧ ∀ x, length (filter (is_high_frequency x) (emitted (step entry m)))
         = if hot && bool_decide (x = ip) then 1%nat else 0%nat.
Proof.
  intros Hc Htop Hk Hlen hot.
  destruct (update_stats_connect geoip_enrich asn_enrich now entry m ip Hc)
    as (Ht & Ha & Hout).
  rewrite Htop, increment_last in Ht, Ha, Hout by done.
  cbn [fst] in Ht, Ha, Hout. rewrite getitem_last in Ha, Hout by done.
  done.
Qed.

(** Connects that keep the count of the address at 10 or below alert
    nobody. *)
Lemma feed_quiet (entries : list Entry) m ip d C (j : Z) :
  Forall (connect ip) entries →
  top_ips (stats m) = BoundedCounter.mk (d ++ [(Some ip, j)]) C →
  Some ip ∉ PyDict.keys d → PyDict.len d < C →
  j + Z.of_nat (length entries) <= 10 →
  top_ips (stats (run entries m).1)
  = BoundedCounter.mk (d ++ [(Some ip, j + Z.of_nat (length entries))]) C
  ∧ _alerted_ips (run entries m).1 = _alerted_ips m
  ∧ ∀ x, filter (is_high_frequency x) (run entries m).2 = [].
Proof.
  intros Hall. revert m j.
  induction Hall as [|e es He _ IH]; intros m j Htop Hk Hlen Hj.
  - simpl. by rewrite Z.add_0_r.
  - rewrite feed_cons. cbn [fst snd]. simpl in Hj.
    destruct (step_tracked e m ip d C j He Htop Hk Hlen) as (Ht & Ha & Hout).
    rewrite (proj2 (Z.ltb_ge 10 (j + 1))) in Ha, Hout by lia.
    cbn [andb] in Ha, Hout.
    destruct (IH (after (step e m)) (j + 1) Ht Hk Hlen) as (Ht' & Ha' & Hout');
      [lia|].
    split; [|split].
    + replace (j + Z.of_nat (length (e :: es))) with (j + 1 + Z.of_nat (length es))
        by (cbn [length]; lia).
      exact Ht'.
    + by rewrite Ha', Ha.
    + intros x. rewrite filter_app, Hout', app_nil_r.
      by apply nil_length_inv.
Qed.

(** The first ten connects from a new address that finds room. *)
Lemma feed_ramp (entries : list Entry) m ip d C :
  Forall (connect ip) entries → length entries = 10%nat →
  top_ips (stats m) = BoundedCounter.mk d C →
  Some ip ∉ PyDict.keys d → PyDict.len d < C →
  top_ips (stats (run entries m).1) = BoundedCounter.mk (d ++ [(Some ip, 10)]) C
  ∧ _alerted_ips (run entries m).1 = _alerted_ips m
  ∧ ∀ x, filter (is_high_frequency x) (run entries m).2 = [].
Proof.
  intros Hall Hlen Htop Hk Hroom.
  destruct entries as [|e es]; [done|]. apply Forall_cons in Hall as [He Hes].
  simpl in Hlen. rewrite feed_cons. cbn [fst snd].
  destruct (step_fresh e m ip d C He Htop Hk Hroom) as (Ht & Ha & Hout).
  destruct (feed_quiet es (after (step e m)) ip d C 1 Hes Ht Hk Hroom)
    as (Ht' & Ha' & Hout'); [lia|].
  split; [|split].
  - rewrite Ht'. replace (1 + Z.of_nat (length es)) with 10 by lia. done.
  - by rewrite Ha', Ha.
  - intros x. by rewrite filter_app, Hout, Hout'.
Qed.
End ConnectFacts.

Section AlertClaims.
Context (geoip_enrich asn_enrich : Entry → Entry) (now : string).

Local Abbreviation connect := (connect_from geoip_enrich asn_enrich).
Local Abbreviation step := (update_stats geoip_enrich asn_enrich now).
Local Abbreviation run := (feed geoip_enrich asn_enrich now).

Lemma contains_init (x : string) (cap : Z) :
  BoundedSet.contains x (BoundedSet.init cap) = false.
Proof. apply bool_decide_eq_false_2. simpl. apply not_elem_of_empty. Qed.

(** C5. From a new monitor (with room for at least one address in the
    address counter), ten connect records from one address raise no
    high-frequency alert; the eleventh, which takes the count of the
    address from 10 to 11, raises exactly one; the twelfth raises none:
    twelve records raise one alert in all. *)
Theorem high_frequency_alert_once (cfg : Config) (ip : string)
    (entries : list Entry) (e11 e12 : Entry) :
  1 <= MAX_TOP_ENTRIES cfg → length entries = 10%nat →
  Forall (connect ip) entries → connect ip e11 → connect ip e12 →
  let m10 := (run entries (init cfg)).1 in
  let m11 := after (step e11 m10) in
  (∀ x, filter (is_high_frequency x) (run entries (init cfg)).2 = [])
  ∧ BoundedCounter.getitem (Some ip) (top_ips (stats m10)) = 10
  ∧ BoundedCounter.getitem (Some ip) (top_ips (stats m11)) = 11
  ∧ length (filter (is_high_frequency ip) (emitted (step e11 m10))) = 1%nat
  ∧ filter (is_high_frequency ip) (emitted (step e12 m11)) = []
  ∧ length (filter (is_high_frequency ip)
              (run (entries ++ [e11; e12]) (init cfg)).2) = 1%nat.
Proof.
  intros Hcap Hlen Hall H11 H12 m10 m11.
  assert (Some ip ∉ PyDict.keys ([] : PyDict.dict (option string))) as Hk
    by apply not_elem_of_nil.
  assert (PyDict.len ([] : PyDict.dict (option string)) < MAX_TOP_ENTRIES cfg)
    as Hroom by (unfold PyDict.len; simpl; lia).
  destruct (feed_ramp geoip_enrich asn_enrich now entries (init cfg) ip []
              (MAX_TOP_ENTRIES cfg) Hall Hlen eq_refl Hk Hroom) as (Ht & Ha & Hout).
  fold m10 in Ht, Ha.
  destruct (step_tracked geoip_enrich asn_enrich now e11 m10 ip []
              (MAX_TOP_ENTRIES cfg) 10 H11 Ht Hk Hroom) as (Ht1 & Ha1 & Hout1).
  fold m11 in Ht1, Ha1. rewrite Ha in Ha1, Hout1.
  change (_alerted_ips (init cfg)) with (BoundedSet.init (K:=string) 10000)
    in Ha1, Hout1.
  rewrite contains_init in Ha1, Hout1.
  change (10 <? 10 + 1) with true in Ha1, Hout1. cbn [andb negb] in Ha1, Hout1.
  destruct (step_tracked geoip_enrich asn_enrich now e12 m11 ip []
              (MAX_TOP_ENTRIES cfg) (10 + 1) H12 Ht1 Hk Hroom) as (_ & _ & Hout2).
  assert (BoundedSet.contains ip (_alerted_ips m11) = true) as Hknown.
  { rewrite Ha1. apply bool_decide_eq_true_2.
    rewrite add_room; [simpl; set_solver | apply not_elem_of_empty | reflexivity]. }
  rewrite Hknown in Hout2. rewrite andb_false_r in Hout2. cbn [andb] in Hout2.
  assert (filter (is_high_frequency ip) (emitted (step e12 m11)) = []) as Hnone
    by apply nil_length_inv, Hout2.
  assert (length (filter (is_high_frequency ip) (emitted (step e11 m10))) = 1%nat)
    as Hone by (rewrite Hout1; by rewrite bool_decide_eq_true_2).
  split; [done|]. split; [by rewrite Ht, getitem_last|].
  split; [by rewrite Ht1, getitem_last|]. split; [done|]. split; [done|].
  rewrite feed_app, !feed_cons, feed_nil. cbn [fst snd]. fold m10 m11.
  rewrite !filter_app, Hout, Hnone, !length_app, Hone. reflexivity.
Qed.

(** The long-password rule of [check_alerts] on a successful login. *)
Lemma check_alerts_long_password entry m (p : string) :
  eventid entry = Some "cowrie.login.success"%string → password entry = Some p →
  length (filter is_long_password (check_alerts now entry m).2)
  = if 20 <? Z.of_nat (String.length p) then 1%nat else 0%nat.
Proof.
  intros Hevt Hp. unfold check_alerts. cbn [snd].
  destruct (check_ip_frame now entry m) as (_ & Hout1).
  destruct (check_country_frame now entry
              (check_password now entry (check_ip now entry m).1).1)
    as (_ & _ & Hout3).
  destruct (check_org_frame now entry
              (check_country now entry
                 (check_password now entry (check_ip now entry m).1).1).1)
    as (_ & _ & Hout4).
  rewrite !filter_app, !length_app.
  rewrite (filter_long_password_none _ Hout1).
  rewrite (filter_long_password_none (check_country _ _ _).2)
    by (eapply Forall_impl; [exact Hout3|]; intros a [_ Ha]; exact Ha).
  rewrite (filter_long_password_none (check_org _ _ _).2)
    by (eapply Forall_impl; [exact Hout4|]; intros a [_ Ha]; exact Ha).
  unfold check_password. rewrite Hevt, Hp.
  rewrite bool_decide_eq_true_2 by done.
  destruct p as [|c p]; [done|]. cbn [nonempty].
  destruct (20 <? _); [|done]. unfold _add_alert. cbn [snd].
  rewrite filter_cons_True; [done|]. split; [reflexivity|].
  cbn [al_message]. apply prefix_append.
Qed.

(** C6. Every successful login whose password is longer than 20
    characters raises a long-password alert, also when the one before it
    did: two such logins in a row raise two alerts. A password of exactly
    20 characters raises none. *)
Theorem long_password_alert_every_time (m : CowrieMonitor)
    (e1 e2 e3 : Entry) (p1 p2 p3 : string) :
  login_success_with geoip_enrich asn_enrich p1 e1 →
  login_success_with geoip_enrich asn_enrich p2 e2 →
  login_success_with geoip_enrich asn_enrich p3 e3 →
  20 < Z.of_nat (String.length p1) → 20 < Z.of_nat (String.length p2) →
  Z.of_nat (String.length p3) = 20 →
  length (filter is_long_password (emitted (step e1 m))) = 1%nat
  ∧ length (filter is_long_password (run [e1; e2] m).2) = 2%nat
  ∧ filter is_long_password (emitted (step e3 m)) = [].
Proof.
  intros (Hevt1 & Hp1 & Hloc1) (Hevt2 & Hp2 & Hloc2) (Hevt3 & Hp3 & Hloc3) H1 H2 H3.
  assert (∀ e p m', eventid (asn_enrich (geoip_enrich e))
                    = Some "cowrie.login.success"%string →
            password (asn_enrich (geoip_enrich e)) = Some p →
            located_with_country (asn_enrich (geoip_enrich e)) = true →
            length (filter is_long_password (emitted (step e m')))
            = if 20 <? Z.of_nat (String.length p) then 1%nat else 0%nat) as Hstep.
  { intros e p m' Hevt Hp Hloc.
    destruct (update_stats_returned geoip_enrich asn_enrich now e m' Hloc)
      as (m'' & -> & _). cbn [emitted]. by apply check_alerts_long_password. }
  assert (length (filter is_long_password (emitted (step e1 m))) = 1%nat) as Hone.
  { rewrite (Hstep e1 p1) by done. by rewrite (proj2 (Z.ltb_lt _ _) H1). }
  split; [done|]. split.
  - rewrite !feed_cons, feed_nil. cbn [fst snd].
    rewrite !filter_app, !length_app, Hone.
    rewrite (Hstep e2 p2) by done. by rewrite (proj2 (Z.ltb_lt _ _) H2).
  - apply nil_length_inv. rewrite (Hstep e3 p3) by done.
    by rewrite (proj2 (Z.ltb_ge _ _)) by lia.
Qed.
End AlertClaims.

(** ** Many addresses: the set of alerted addresses fills up *)

Lemma Forall2_replicate_inv {A B} (P : A → B → Prop) (n : nat) (x : A) (k : list B) :
  Forall2 P (replicate n x) k → length k = n ∧ Forall (P x) k.
Proof.
  revert k. induction n as [|n IH]; intros k Hk; simpl in Hk.
  - apply Forall2_nil_inv_l in Hk as ->. done.
  - apply Forall2_cons_inv_l in Hk as (y & k' & Hy & Hk' & ->).
    destruct (IH k' Hk') as [Hlen Hall]. split; [simpl; lia | by constructor].
Qed.

Section Overflow.
Context (geoip_enrich asn_enrich : Entry → Entry) (now : string).
Implicit Types (entry : Entry) (m : CowrieMonitor) (ip : string)
               (d : PyDict.dict (option string)) (A : gset string).

Local Abbreviation connect := (connect_from geoip_enrich asn_enrich).
Local Abbreviation step := (update_stats geoip_enrich asn_enrich now).
Local Abbreviation run := (feed geoip_enrich asn_enrich now).

(** Eleven connects from a new address, with room in the counter and in
    the set of alerted addresses: the address is alerted once and stored. *)
Lemma feed_burst (entries : list Entry) m ip d C A (cap o : Z) :
  Forall (connect ip) entries → length entries = 11%nat →
  top_ips (stats m) = BoundedCounter.mk d C →
  Some ip ∉ PyDict.keys d → PyDict.len d < C →
  _alerted_ips m = BoundedSet.mk A cap o → ip ∉ A → Z.of_nat (size A) < cap →
  top_ips (stats (run entries m).1) = BoundedCounter.mk (d ++ [(Some ip, 11)]) C
  ∧ _alerted_ips (run entries m).1 = BoundedSet.mk (A ∪ {[ip]}) cap o
  ∧ ∀ x, x ≠ ip → filter (is_high_frequency x) (run entries m).2 = [].
Proof.
  intros Hall Hlen Htop Hk Hroom Hal Hnew Hcap.
  destruct (decide (entries = [])) as [->|Hne]; [done|].
  destruct (exists_last Hne) as (es & e & ->).
  rewrite length_app in Hlen. simpl in Hlen.
  apply Forall_app in Hall as [Hes He].
  apply (proj1 (Forall_cons _ _ _)) in He as [He _].
  destruct (feed_ramp geoip_enrich asn_enrich now es m ip d C Hes) as (Ht & Ha & Hout);
    [lia | done | done | done |].
  destruct (step_tracked geoip_enrich asn_enrich now e (run es m).1 ip d C 10
              He Ht Hk Hroom) as (Ht1 & Ha1 & Hout1).
  rewrite Ha, Hal in Ha1, Hout1.
  assert (BoundedSet.contains ip (BoundedSet.mk A cap o) = false) as Hcont
    by by apply bool_decide_eq_false_2.
  rewrite Hcont in Ha1, Hout1. change (10 <? 10 + 1) with true in Ha1, Hout1.
  cbn [andb negb] in Ha1, Hout1. rewrite add_room in Ha1 by done.
  rewrite feed_app, feed_cons, feed_nil. cbn [fst snd].
  split; [done|]. split; [done|].
  intros x Hx. rewrite filter_app, Hout, app_nil_r. simpl.
  apply nil_length_inv. rewrite Hout1. by rewrite bool_decide_eq_false_2.
Qed.

(** Bursts of eleven connects from distinct new addresses, as long as
    both collections have room: each address is counted to 11 and stored
    in the set of alerted addresses. *)
Lemma feed_bursts (ips : list string) (entries : list Entry) m d C A (cap o : Z) :
  Forall2 connect (bursts 11 ips) entries → NoDup ips →
  top_ips (stats m) = BoundedCounter.mk d C →
  (∀ ip, ip ∈ ips → Some ip ∉ PyDict.keys d) →
  PyDict.len d + Z.of_nat (length ips) <= C →
  _alerted_ips m = BoundedSet.mk A cap o →
  (∀ ip, ip ∈ ips → ip ∉ A) →
  Z.of_nat (size A) + Z.of_nat (length ips) <= cap →
  top_ips (stats (run entries m).1)
  = BoundedCounter.mk (d ++ ((λ ip, (Some ip, 11)) <$> ips)) C
  ∧ _alerted_ips (run entries m).1 = BoundedSet.mk (A ∪ list_to_set ips) cap o
  ∧ ∀ x, x ∉ ips → filter (is_high_frequency x) (run entries m).2 = [].
Proof.
  revert entries m d A.
  induction ips as [|ip ips IH]; intros entries m d A Hrec Hnd Htop Hd Hlen Hal HA Hcap.
  - apply Forall2_nil_inv_l in Hrec as ->. rewrite feed_nil. simpl.
    rewrite app_nil_r, (right_id_L ∅ (∪)). done.
  - cbn [bursts] in Hrec.
    apply Forall2_app_inv_l in Hrec as (k1 & k2 & Hk1 & Hk2 & ->).
    apply Forall2_replicate_inv in Hk1 as [Hlen1 Hall1].
    apply NoDup_cons in Hnd as [Hip Hnd]. simpl in Hlen, Hcap.
    destruct (feed_burst k1 m ip d C A cap o Hall1 Hlen1 Htop) as (Ht & Ha & Hout);
      [apply Hd; left | lia | done | apply HA; left | lia |].
    destruct (IH k2 (run k1 m).1 (d ++ [(Some ip, 11)]) (A ∪ {[ip]}) Hk2 Hnd Ht)
      as (Ht' & Ha' & Hout').
    + intros ip' Hin. unfold PyDict.keys. rewrite fmap_app, elem_of_app. simpl.
      intros [Hold|Hnew%list_elem_of_singleton].
      * by apply (Hd ip'); [right|].
      * simplify_eq. done.
    + unfold PyDict.len in *. rewrite length_app. simpl. lia.
    + done.
    + intros ip' Hin. rewrite elem_of_union, elem_of_singleton.
      intros [Hold| ->]; [by apply (HA ip'); [right|] | done].
    + rewrite size_union by (apply disjoint_singleton_r, HA; left).
      rewrite size_singleton. lia.
    + rewrite feed_app. cbn [fst snd]. split; [|split].
      * rewrite Ht'. by rewrite <- app_assoc.
      * rewrite Ha'. f_equal. simpl. by rewrite (assoc_L (∪)).
      * intros x Hx. apply not_elem_of_cons in Hx as [Hne Hx].
        by rewrite filter_app, Hout, Hout'.
Qed.
End Overflow.

Section OverflowClaim.
Context (geoip_enrich asn_enrich : Entry → Entry) (now : string).

Local Abbreviation connect := (connect_from geoip_enrich asn_enrich).
Local Abbreviation step := (update_stats geoip_enrich asn_enrich now).
Local Abbreviation run := (feed geoip_enrich asn_enrich now).

(** C3 does not hold of the code. With the default settings, let 10000
    distinct addresses send eleven connect records each: each is alerted
    once and the set of alerted addresses is full. A further address that
    then sends thirteen connect records is alerted twice: its first
    connect is evicted from the full address counter, its twelfth and its
    thirteenth take its count to 11 and 12, and as the full set cannot
    store the address, the rule fires both times. *)
Theorem alerted_set_overflow_repeats_alert (ips : list string) (x : string)
    (entries : list Entry) :
  NoDup ips → Z.of_nat (length ips) = 10000 → x ∉ ips →
  Forall2 connect (bursts 11 ips ++ replicate 13 x) entries →
  length (filter (is_high_frequency x) (run entries (init default_config)).2)
  = 2%nat.
Proof.
  intros Hnd Hlen Hx Hrec.
  apply Forall2_app_inv_l in Hrec as (kb & kx & Hkb & Hkx & ->).
  destruct (feed_bursts geoip_enrich asn_enrich now ips kb (init default_config)
              [] 10000 ∅ 10000 0 Hkb Hnd eq_refl) as (Ht & Ha & Hout).
  { intros ip _. apply not_elem_of_nil. }
  { unfold PyDict.len. simpl. lia. }
  { reflexivity. }
  { intros ip _. apply not_elem_of_empty. }
  { rewrite size_empty. lia. }
  specialize (Hout x Hx).
  set (mb := (run kb (init default_config)).1) in *.
  set (D := (λ ip, (Some ip, 11)) <$> ips) in *.
  set (A := (∅ ∪ list_to_set ips : gset string)) in *.
  change ([] ++ D) with D in Ht.
  assert (PyDict.keys D = Some <$> ips) as HkeysD.
  { unfold PyDict.keys, D. rewrite <- list_fmap_compose. done. }
  assert (NoDup (PyDict.keys D)) as HndD.
  { rewrite HkeysD. by apply (NoDup_fmap_2 Some). }
  assert (Some x ∉ PyDict.keys D) as HxD.
  { rewrite HkeysD. intros (ip & Heq & Hin)%list_elem_of_fmap. by simplify_eq. }
  assert (PyDict.len D = 10000) as HlenD.
  { unfold PyDict.len, D. rewrite length_fmap. done. }
  assert (Forall (λ kv : option string * Z, 1 < kv.2) D) as HbigD.
  { unfold D. apply Forall_fmap, Forall_true. simpl. lia. }
  assert (x ∉ A) as HxA.
  { unfold A. by rewrite (left_id_L ∅ (∪)), elem_of_list_to_set. }
  assert (Z.of_nat (size A) = 10000) as HsizeA.
  { unfold A. rewrite (left_id_L ∅ (∪)). by rewrite size_list_to_set. }
  apply Forall2_replicate_inv in Hkx as [Hlenx Hallx].
  destruct kx as [|e1 [|e2 [|e3 [|e4 [|e5 [|e6 [|e7 [|e8 [|e9 [|e10 [|e11
                 [|e12 [|e13 [|? ?]]]]]]]]]]]]]]; try (simpl in Hlenx; lia).
  clear Hlenx.
  apply Forall_cons in Hallx as [H1 Hallx]. apply Forall_cons in Hallx as [H2 Hallx].
  change [e3; e4; e5; e6; e7; e8; e9; e10; e11; e12; e13]
    with ([e3; e4; e5; e6; e7; e8; e9; e10; e11] ++ [e12; e13]) in Hallx.
  apply Forall_app in Hallx as [Hmid Hlast].
  apply Forall_cons in Hlast as [H12 Hlast]. apply Forall_cons in Hlast as [H13 _].
  (* the first connect: counted and evicted at once *)
  destruct (update_stats_connect geoip_enrich asn_enrich now e1 mb x H1)
    as (Ht1 & Ha1 & Hout1).
  rewrite Ht in Ht1, Ha1, Hout1.
  destruct (increment_fresh_full (Some x) D 10000 HndD HxD) as
    (_ & _ & Hmax1 & Hlen1 & Hgone1); [lia | done |].
  specialize (Hgone1 HbigD).
  destruct (BoundedCounter.increment (Some x) (BoundedCounter.mk D 10000)).1
    as [d1 C1] eqn:Hinc.
  cbn [BoundedCounter._data BoundedCounter._maxsize] in Hmax1, Hgone1. subst C1.
  unfold BoundedCounter.len in Hlen1. cbn [BoundedCounter._data] in Hlen1.
  change (Z.max 1 (10000 / 10)) with 1000 in Hlen1.
  assert (PyDict.len d1 < 10000) as Hroom by lia.
  rewrite getitem_untracked in Ha1, Hout1 by done.
  change (10 <? 0) with false in Ha1, Hout1. cbn [andb] in Ha1, Hout1.
  set (m1 := after (step e1 mb)) in *.
  (* the second to the eleventh: counted from 1 to 10 *)
  destruct (step_fresh geoip_enrich asn_enrich now e2 m1 x d1 10000 H2 Ht1 Hgone1 Hroom)
    as (Ht2 & Ha2 & Hout2).
  set (m2 := after (step e2 m1)) in *.
  destruct (feed_quiet geoip_enrich asn_enrich now
              [e3; e4; e5; e6; e7; e8; e9; e10; e11] m2 x d1 10000 1
              Hmid Ht2 Hgone1 Hroom) as (Ht3 & Ha3 & Hout3); [simpl; lia|].
  set (m3 := (run [e3; e4; e5; e6; e7; e8; e9; e10; e11] m2).1) in *.
  assert (_alerted_ips m3 = BoundedSet.mk A 10000 0) as Hal3
    by by rewrite Ha3, Ha2, Ha1.
  (* the twelfth: the count is 11, the full set does not take the address *)
  destruct (step_tracked geoip_enrich asn_enrich now e12 m3 x d1 10000 _
              H12 Ht3 Hgone1 Hroom) as (Ht12 & Ha12 & Hout12).
  rewrite Hal3 in Ha12, Hout12.
  assert (∀ o, BoundedSet.contains x (BoundedSet.mk A 10000 o) = false) as Hcont
    by (intros o; by apply bool_decide_eq_false_2).
  rewrite Hcont in Ha12, Hout12. cbn [andb negb length] in Ha12, Hout12.
  change (10 <? 1 + Z.of_nat 9 + 1) with true in Ha12, Hout12.
  cbn [andb] in Ha12, Hout12.
  rewrite add_full in Ha12 by (done || (unfold BoundedSet.len; simpl; lia)).
  cbn [BoundedSet._data BoundedSet._maxsize BoundedSet._overflow_count] in Ha12.
  set (m12 := after (step e12 m3)) in *.
  (* the thirteenth: the count is 12, and the rule fires again *)
  destruct (step_tracked geoip_enrich asn_enrich now e13 m12 x d1 10000 _
              H13 Ht12 Hgone1 Hroom) as (_ & _ & Hout13).
  rewrite Ha12, Hcont in Hout13.
  change (10 <? 1 + Z.of_nat 9 + 1 + 1) with true in Hout13.
  cbn [andb negb] in Hout13.
  specialize (Hout1 x). specialize (Hout12 x). specialize (Hout13 x).
  rewrite bool_decide_eq_true_2 in Hout12, Hout13 by done.
  (* all the alerts for the address *)
  change [e1; e2; e3; e4; e5; e6; e7; e8; e9; e10; e11; e12; e13]
    with ([e1; e2] ++ [e3; e4; e5; e6; e7; e8; e9; e10; e11] ++ [e12; e13]).
  assert (run [e1; e2] mb
          = (m2, emitted (step e1 mb) ++ emitted (step e2 m1) ++ [])) as Hfirst
    by (by rewrite !feed_cons, feed_nil).
  assert (run [e12; e13] m3
          = (after (step e13 m12),
             emitted (step e12 m3) ++ emitted (step e13 m12) ++ [])) as Hlast
    by (by rewrite !feed_cons, feed_nil).
  rewrite feed_app. fold mb. cbn [fst snd].
  rewrite feed_app, Hfirst. cbn [fst snd].
  rewrite feed_app. fold m3. cbn [fst snd]. rewrite Hlast. cbn [fst snd].
  rewrite !filter_app, !length_app, Hout, Hout1, (Hout2 x), (Hout3 x), Hout12, Hout13.
  reflexivity.
Qed.
End OverflowClaim.

(** ** The claims at concrete inputs *)

Lemma connect_entry_connect (ip : string) : connect_from id id ip (connect_entry ip).
Proof. by repeat split. Qed.

Lemma address_inj : Inj (=) (=) address.
Proof.
  intros n1 n2 Heq. unfold address in Heq. cbv [String.append] in Heq.
  simplify_eq. by apply (inj pretty).
Qed.

Lemma high_frequency_alert_once_witness :
  let ip := "203.0.113.7"%string in
  let entries := replicate 10 (connect_entry ip) in
  let m10 := (feed id id "12:00" entries (init default_config)).1 in
  let m11 := after (update_stats id id "12:00" (connect_entry ip) m10) in
  (∀ x, filter (is_high_frequency x)
          (feed id id "12:00" entries (init default_config)).2 = [])
  ∧ BoundedCounter.getitem (Some ip) (top_ips (stats m10)) = 10
  ∧ BoundedCounter.getitem (Some ip) (top_ips (stats m11)) = 11
  ∧ length (filter (is_high_frequency ip)
              (emitted (update_stats id id "12:00" (connect_entry ip) m10))) = 1%nat
  ∧ filter (is_high_frequency ip)
      (emitted (update_stats id id "12:00" (connect_entry ip) m11)) = []
  ∧ length (filter (is_high_frequency ip)
              (feed id id "12:00" (entries ++ [connect_entry ip; connect_entry ip])
                    (init default_config)).2) = 1%nat.
Proof.
  intros ip entries.
  apply (high_frequency_alert_once id id "12:00" default_config ip entries).
  - simpl. lia.
  - reflexivity.
  - apply Forall_replicate, connect_entry_connect.
  - apply connect_entry_connect.
  - apply connect_entry_connect.
Defined.

Lemma long_password_alert_every_time_witness :
  let login p := {| eventid := Some "cowrie.login.success"%string;
                    src_ip := Some "203.0.113.7"%string;
                    timestamp := None;
                    username := Some "root"%string;
                    password := Some p;
                    input := None;
                    geo_location := None;
                    asn_info := None |} in
  let m := init default_config in
  length (filter is_long_password
            (emitted (update_stats id id "12:00" (login "aaaaaaaaaaaaaaaaaaaaa"%string) m)))
  = 1%nat
  ∧ length (filter is_long_password
              (feed id id "12:00" [login "aaaaaaaaaaaaaaaaaaaaa"%string;
                                   login "bbbbbbbbbbbbbbbbbbbbb"%string] m).2) = 2%nat
  ∧ filter is_long_password
      (emitted (update_stats id id "12:00" (login "cccccccccccccccccccc"%string) m)) = [].
Proof.
  intros login m.
  apply (long_password_alert_every_time id id "12:00" m _ _ _
           "aaaaaaaaaaaaaaaaaaaaa" "bbbbbbbbbbbbbbbbbbbbb" "cccccccccccccccccccc");
    try (by repeat split); try (simpl; lia); reflexivity.
Defined.

Lemma alerted_set_overflow_repeats_alert_witness :
  let x := "198.51.100.7"%string in
  let ips := addresses (Z.to_nat 10000) in
  length (filter (is_high_frequency x)
            (feed id id "12:00" (connect_entry <$> (bursts 11 ips ++ replicate 13 x))
                  (init default_config)).2) = 2%nat.
Proof.
  intros x ips. apply (alerted_set_overflow_repeats_alert id id "12:00" ips x).
  - apply NoDup_fmap_2; [apply address_inj | apply NoDup_seq].
  - unfold ips, addresses. rewrite length_fmap, length_seq. lia.
  - intros (n & Heq & _)%list_elem_of_fmap. unfold address in Heq.
    cbv [String.append] in Heq. discriminate.
  - apply Forall2_fmap_r, Forall_Forall2_diag, Forall_true.
    intros ip. apply connect_entry_connect.
Defined.

(** * Further properties *)

(** ** BoundedCounter: order of [top], counts, eviction *)

Section SortedFacts.
Context {K : Type} `{EqDecision K}.
Implicit Types (d : PyDict.dict K) (k : K).

(** [sorted_by le] orders the items by any transitive relation on the
    counts that [le] decides one way or the other. *)
Lemma sorted_by_sorted (le : Z → Z → bool) (R : Z → Z → Prop) d :
  (∀ a b, le a b = true → R a b) → (∀ a b, le a b = false → R b a) →
  (∀ a b c, R a b → R b c → R a c) →
  StronglySorted (λ x y : K * Z, R x.2 y.2) (PyDict.sorted_by le d).
Proof.
  intros Htrue Hfalse Htrans. unfold PyDict.sorted_by.
  induction d as [|x d IH]; simpl; [constructor|].
  revert IH. generalize (foldr (PyDict.insert_by le) [] d). clear d.
  intros l Hl. induction Hl as [|y l Hl IH Hy]; simpl.
  - by repeat constructor.
  - destruct (le x.2 y.2) eqn:Hle.
    + constructor; [by constructor|]. constructor; [by apply Htrue|].
      eapply Forall_impl; [exact Hy|]. intros z Hz. simpl in *.
      eapply Htrans; [apply Htrue, Hle | exact Hz].
    + constructor; [exact IH|]. rewrite insert_by_perm.
      constructor; [by apply Hfalse | exact Hy].
Qed.

Lemma sorted_by_leb_sorted d :
  StronglySorted (λ x y : K * Z, x.2 <= y.2) (PyDict.sorted_by Z.leb d).
Proof.
  apply (sorted_by_sorted Z.leb Z.le); intros; try lia.
Qed.

Lemma sorted_by_geb_sorted d :
  StronglySorted (λ x y : K * Z, y.2 <= x.2) (PyDict.sorted_by Z.geb d).
Proof.
  apply (sorted_by_sorted Z.geb (λ a b, b <= a)); intros; try lia.
Qed.

Lemma slice_to_take {A} (n : Z) (l : list A) :
  PyDict.slice_to n l
  = take (if 0 <=? n then Z.to_nat n else (length l - Z.to_nat (- n))%nat) l.
Proof. unfold PyDict.slice_to. by destruct (0 <=? n). Qed.

Lemma lookup_elem_of k (v : Z) d :
  NoDup (PyDict.keys d) → (k, v) ∈ d → PyDict.lookup k d = Some v.
Proof.
  unfold PyDict.keys. induction d as [|[k' v'] d IH]; simpl.
  - intros _ Hin. by apply elem_of_nil in Hin.
  - rewrite NoDup_cons, elem_of_cons. intros [Hk' Hnd] [Heq|Hin].
    + simplify_eq. by rewrite decide_True.
    + rewrite decide_False; [by apply IH|]. intros ->. apply Hk'.
      apply list_elem_of_fmap. by exists (k', v).
Qed.

Lemma elem_of_lookup k (v : Z) d : PyDict.lookup k d = Some v → (k, v) ∈ d.
Proof.
  induction d as [|[k' v'] d IH]; simpl; [done|].
  destruct (decide (k = k')) as [->|]; intros Hv.
  - simplify_eq. left.
  - right. by apply IH.
Qed.
End SortedFacts.

Section CounterExtras.
Context {K : Type} `{EqDecision K}.
Implicit Types (c : BoundedCounter.t K) (d : PyDict.dict K) (k : K).

(** X1. [top(n)] lists its entries by count, highest first, for every
    counter and every [n]; it has [min(n, len)] entries when [n >= 0], and
    all but the last [-n] entries when [n] is negative (a Python slice). *)
Theorem top_order_length c (n : Z) :
  StronglySorted (λ x y : K * Z, y.2 <= x.2) (BoundedCounter.top n c)
  ∧ Z.of_nat (length (BoundedCounter.top n c))
    = (if 0 <=? n then Z.min n (BoundedCounter.len c)
       else Z.max 0 (BoundedCounter.len c + n)).
Proof.
  unfold BoundedCounter.top. rewrite slice_to_take. split.
  - eapply StronglySorted_app_1_l. rewrite take_drop. apply sorted_by_geb_sorted.
  - rewrite length_take, (Permutation_length (sorted_by_perm Z.geb _)).
    unfold BoundedCounter.len, PyDict.len. destruct (0 <=? n) eqn:Hn.
    + apply Z.leb_le in Hn. lia.
    + apply Z.leb_gt in Hn. lia.
Qed.

(** X2. Every entry of [top(n)] is a key of the counter with its present
    count, and [top(n)] holds all the entries when [n] is at least the
    number of keys. *)
Theorem top_entries c (n : Z) :
  NoDup (PyDict.keys (BoundedCounter._data c)) →
  (∀ k v, (k, v) ∈ BoundedCounter.top n c →
          BoundedCounter.contains k c = true ∧ BoundedCounter.getitem k c = v)
  ∧ (BoundedCounter.len c <= n → BoundedCounter.top n c ≡ₚ BoundedCounter.items c).
Proof.
  intros Hnd. unfold BoundedCounter.top. rewrite slice_to_take. split.
  - intros k v Hin. apply subseteq_take in Hin. rewrite sorted_by_perm in Hin.
    apply (lookup_elem_of k v _ Hnd) in Hin.
    unfold BoundedCounter.contains, PyDict.contains, BoundedCounter.getitem, PyDict.get.
    rewrite Hin. split; [by apply bool_decide_eq_true_2 | done].
  - intros Hlen. unfold BoundedCounter.len, PyDict.len, BoundedCounter.items in *.
    rewrite (proj2 (Z.leb_le 0 n)) by lia.
    rewrite take_ge; [apply sorted_by_perm|].
    rewrite (Permutation_length (sorted_by_perm Z.geb _)). lia.
Qed.

(** X3. An [increment] that does not take the counter over its capacity
    (the key is tracked and the counter is within capacity, or the counter
    has room for one more key) returns the former count plus one, stores
    it, and leaves every other count as it was. *)
Theorem increment_without_eviction c k :
  (BoundedCounter.contains k c = true
   ∧ BoundedCounter.len c <= BoundedCounter._maxsize c)
  ∨ BoundedCounter.len c < BoundedCounter._maxsize c →
  (BoundedCounter.increment k c).2 = BoundedCounter.getitem k c + 1
  ∧ BoundedCounter.getitem k (BoundedCounter.increment k c).1
    = BoundedCounter.getitem k c + 1
  ∧ ∀ k', k' ≠ k →
      BoundedCounter.getitem k' (BoundedCounter.increment k c).1
      = BoundedCounter.getitem k' c.
Proof.
  destruct c as [d C]. unfold BoundedCounter.len. simpl. intros Hcase.
  assert (PyDict.len (PyDict.set k (PyDict.get k 0 d + 1) d) <= C) as Hroom.
  { pose proof (length_set_le k (PyDict.get k 0 d + 1) d) as Hle.
    unfold PyDict.len in *. destruct Hcase as [[Hin Hlen]|Hlen]; [|lia].
    rewrite length_set_present; [done|]. apply lookup_Some_keys.
    by apply bool_decide_eq_true in Hin. }
  unfold BoundedCounter.increment, BoundedCounter.getitem. simpl.
  rewrite maybe_evict_room by done. simpl.
  assert (PyDict.get k 0 (PyDict.set k (PyDict.get k 0 d + 1) d)
          = PyDict.get k 0 d + 1) as Hget
    by (unfold PyDict.get at 1; by rewrite lookup_set_eq).
  split; [done|]. split; [done|].
  intros k' Hne. unfold PyDict.get. by rewrite lookup_set_ne.
Qed.
End CounterExtras.

Lemma top_entries_witness :
  let c := BoundedCounter.mk [("a", 2); ("b", 5); ("c", 2)]%string 10 in
  (∀ k v, (k, v) ∈ BoundedCounter.top 2 c →
          BoundedCounter.contains k c = true ∧ BoundedCounter.getitem k c = v)
  ∧ (BoundedCounter.len c <= 2 → BoundedCounter.top 2 c ≡ₚ BoundedCounter.items c).
Proof.
  intros c. apply top_entries. apply (bool_decide_unpack _). reflexivity.
Defined.

Lemma increment_without_eviction_witness :
  let c := BoundedCounter.mk [("a", 2); ("b", 5)]%string 2 in
  (BoundedCounter.increment "b"%string c).2 = BoundedCounter.getitem "b"%string c + 1
  ∧ BoundedCounter.getitem "b"%string (BoundedCounter.increment "b"%string c).1
    = BoundedCounter.getitem "b"%string c + 1
  ∧ ∀ k', k' ≠ "b"%string →
      BoundedCounter.getitem k' (BoundedCounter.increment "b"%string c).1
      = BoundedCounter.getitem k' c.
Proof.
  intros c. apply increment_without_eviction. left. split; reflexivity.
Defined.

Section EvictionExtras.
Context {K : Type} `{EqDecision K}.
Implicit Types (c : BoundedCounter.t K) (d : PyDict.dict K) (k : K).

Lemma elem_of_keys_del_all_iff (ks : list K) k d :
  NoDup (PyDict.keys d) →
  k ∈ PyDict.keys (foldl (λ d k, PyDict.del k d) d ks) ↔ k ∈ PyDict.keys d ∧ k ∉ ks.
Proof.
  intros Hnd. split.
  - intros Hin. split; [by apply elem_of_keys_del_all in Hin|].
    intros Hks. by apply (not_elem_of_keys_del_all ks k d Hnd Hks).
  - revert d Hnd. induction ks as [|k0 ks IH]; intros d Hnd [Hin Hout]; simpl; [done|].
    apply not_elem_of_cons in Hout as [Hne Hout].
    apply IH; [by apply NoDup_keys_del|]. split; [|done].
    by apply elem_of_keys_del_ne.
Qed.

Lemma lookup_del_all_ne (ks : list K) k d :
  k ∉ ks → PyDict.lookup k (foldl (λ d k, PyDict.del k d) d ks) = PyDict.lookup k d.
Proof.
  revert d. induction ks as [|k0 ks IH]; intros d Hout; simpl; [done|].
  apply not_elem_of_cons in Hout as [Hne Hout].
  rewrite IH by done. by apply lookup_del_ne.
Qed.

Lemma contains_true_keys k c :
  BoundedCounter.contains k c = true ↔ k ∈ PyDict.keys (BoundedCounter._data c).
Proof.
  unfold BoundedCounter.contains, PyDict.contains.
  by rewrite bool_decide_eq_true, lookup_Some_keys.
Qed.

(** X4. Eviction takes the least frequent keys: a key that [_maybe_evict]
    removes has a count no higher than the count of any key it keeps, and
    the keys it keeps keep their counts. *)
Theorem eviction_least_frequent c k k' :
  NoDup (PyDict.keys (BoundedCounter._data c)) →
  BoundedCounter.contains k c = true →
  BoundedCounter.contains k (BoundedCounter._maybe_evict c) = false →
  BoundedCounter.contains k' (BoundedCounter._maybe_evict c) = true →
  BoundedCounter.getitem k c <= BoundedCounter.getitem k' c
  ∧ BoundedCounter.getitem k' (BoundedCounter._maybe_evict c)
    = BoundedCounter.getitem k' c.
Proof.
  intros Hnd Hk Hgone Hkept.
  apply contains_true_keys in Hk, Hkept. apply contains_false_keys in Hgone.
  unfold BoundedCounter._maybe_evict in *.
  destruct (BoundedCounter._maxsize c <? PyDict.len (BoundedCounter._data c));
    [|done].
  cbn [BoundedCounter._data] in *.
  rewrite slice_to_pos in * by lia.
  set (m := Z.to_nat (Z.max 1 (BoundedCounter._maxsize c / 10))) in *.
  set (sorted := PyDict.sorted_by Z.leb (BoundedCounter._data c)) in *.
  rewrite elem_of_keys_del_all_iff in Hgone, Hkept by done.
  destruct Hkept as [Hk' Hout'].
  assert (k ∈ take m sorted.*1) as Hin.
  { destruct (decide (k ∈ take m sorted.*1)); [done|]. destruct Hgone. done. }
  rewrite <- fmap_take in Hin, Hout'.
  apply list_elem_of_fmap in Hin as ([k0 v] & -> & Hin). simpl in *.
  assert (k' ∈ (drop m sorted).*1) as Hin'.
  { rewrite <- (sorted_keys_perm (BoundedCounter._data c)) in Hk'. fold sorted in Hk'.
    rewrite <- (take_drop m sorted), fmap_app, elem_of_app in Hk'.
    by destruct Hk'. }
  apply list_elem_of_fmap in Hin' as ([k1 v'] & -> & Hin'). simpl in *.
  pose proof (sorted_by_leb_sorted (BoundedCounter._data c)) as Hsorted.
  fold sorted in Hsorted. rewrite <- (take_drop m sorted) in Hsorted.
  pose proof (StronglySorted_app_1_elem_of _ _ _ _ _ Hsorted Hin Hin') as Hle.
  simpl in Hle.
  assert ((k0, v) ∈ BoundedCounter._data c) as Hv.
  { rewrite <- (sorted_by_perm Z.leb). by apply subseteq_take in Hin. }
  assert ((k1, v') ∈ BoundedCounter._data c) as Hv'.
  { rewrite <- (sorted_by_perm Z.leb). by apply subseteq_drop in Hin'. }
  apply (lookup_elem_of _ _ _ Hnd) in Hv, Hv'.
  unfold BoundedCounter.getitem, PyDict.get. cbn [BoundedCounter._data].
  rewrite lookup_del_all_ne by (by rewrite <- fmap_take).
  rewrite Hv, Hv'. done.
Qed.
End EvictionExtras.

Lemma eviction_least_frequent_witness :
  let c := BoundedCounter.mk [("a", 4); ("b", 1); ("c", 3)]%string 2 in
  BoundedCounter.getitem "b"%string c <= BoundedCounter.getitem "c"%string c
  ∧ BoundedCounter.getitem "c"%string (BoundedCounter._maybe_evict c)
    = BoundedCounter.getitem "c"%string c.
Proof.
  intros c. apply eviction_least_frequent; try reflexivity.
  apply (bool_decide_unpack _). reflexivity.
Defined.

(** ** BoundedSet: what a run of [add] keeps *)

Section SetExtras.
Context {K : Type} `{Countable K}.
Implicit Types (s : BoundedSet.t K) (x y : K) (A : gset K).

Lemma total_seen_add x s :
  BoundedSet.total_seen s <= BoundedSet.total_seen (BoundedSet.add x s)
  <= BoundedSet.total_seen s + 1.
Proof.
  destruct (decide (x ∈ BoundedSet._data s)) as [Hin|Hout].
  { rewrite add_stored by done. lia. }
  destruct (decide (BoundedSet.len s < BoundedSet._maxsize s)) as [Hroom|Hfull].
  - rewrite add_room by done. unfold BoundedSet.total_seen.
    cbn [BoundedSet._data BoundedSet._overflow_count].
    rewrite size_union by (apply disjoint_singleton_r; exact Hout).
    rewrite size_singleton. lia.
  - rewrite add_full by (done || lia). unfold BoundedSet.total_seen.
    cbn [BoundedSet._data BoundedSet._overflow_count]. lia.
Qed.

(** X5. An [add] never removes a stored item, never changes the capacity,
    raises [total_seen] by one at most and never lowers it, and leaves a
    set that is within its capacity within its capacity. *)
Theorem add_effect x s :
  BoundedSet._maxsize (BoundedSet.add x s) = BoundedSet._maxsize s
  ∧ (∀ y, BoundedSet.contains y s = true → BoundedSet.contains y (BoundedSet.add x s) = true)
  ∧ BoundedSet.total_seen s <= BoundedSet.total_seen (BoundedSet.add x s)
    <= BoundedSet.total_seen s + 1
  ∧ (BoundedSet.len s <= BoundedSet._maxsize s →
     BoundedSet.len (BoundedSet.add x s) <= BoundedSet._maxsize s).
Proof.
  unfold BoundedSet.add, BoundedSet.total_seen, BoundedSet.len, BoundedSet.contains.
  destruct (decide (x ∈ BoundedSet._data s)) as [Hin|Hout].
  { repeat split; auto; lia. }
  destruct (Z.of_nat (size (BoundedSet._data s)) <? BoundedSet._maxsize s) eqn:Hroom;
    simpl.
  - apply Z.ltb_lt in Hroom.
    assert (size (BoundedSet._data s ∪ {[x]}) = S (size (BoundedSet._data s))) as Hsize.
    { rewrite size_union by set_solver. rewrite size_singleton. lia. }
    rewrite Hsize. repeat split; try lia.
    intros y Hy%bool_decide_eq_true. apply bool_decide_eq_true_2. set_solver.
  - repeat split; auto; lia.
Qed.

Lemma add_all_snoc (l : list K) x s :
  foldl (λ s x, BoundedSet.add x s) s (l ++ [x])
  = BoundedSet.add x (foldl (λ s x, BoundedSet.add x s) s l).
Proof. by rewrite foldl_snoc. Qed.

(** X6. Below capacity the set is exact: when the items added to a new set
    are no more than its capacity, counted without repeats, the set stores
    exactly these items and counts no overflow. *)
Theorem add_all_exact (C : Z) (l : list K) :
  Z.of_nat (size (list_to_set l : gset K)) <= C →
  foldl (λ s x, BoundedSet.add x s) (BoundedSet.init C) l
  = BoundedSet.mk (list_to_set l) C 0.
Proof.
  induction l as [|x l IH] using rev_ind; intros Hsize; [done|].
  rewrite add_all_snoc, list_to_set_app_L in *. simpl in *.
  rewrite (right_id_L ∅ (∪)) in *.
  assert (size (list_to_set l : gset K) <= size (list_to_set l ∪ {[x]} : gset K))%nat
    as Hmono by (apply subseteq_size; set_solver).
  rewrite IH by lia.
  destruct (decide (x ∈ (list_to_set l : gset K))) as [Hin|Hout].
  - rewrite add_stored by done. f_equal. set_solver.
  - rewrite add_room; [done | done |]. unfold BoundedSet.len. simpl.
    rewrite size_union, size_singleton in Hsize by set_solver. lia.
Qed.

(** X7. [total_seen] never under-counts: after any items are added to a new
    set, of any capacity, it is at least the number of distinct items and
    at most the number of calls. *)
Theorem total_seen_bounds (C : Z) (l : list K) :
  Z.of_nat (size (list_to_set l : gset K))
  <= BoundedSet.total_seen (foldl (λ s x, BoundedSet.add x s) (BoundedSet.init C) l)
  <= Z.of_nat (length l).
Proof.
  cut (∃ D : gset K,
         let s := foldl (λ s x, BoundedSet.add x s) (BoundedSet.init C) l in
         (list_to_set l : gset K) = BoundedSet._data s ∪ D
         ∧ Z.of_nat (size D) <= BoundedSet._overflow_count s
         ∧ BoundedSet.total_seen s <= Z.of_nat (length l)).
  { intros (D & Hset & HD & Hlen). split; [|done]. rewrite Hset.
    pose proof (size_union_alt (BoundedSet._data
      (foldl (λ s x, BoundedSet.add x s) (BoundedSet.init C) l)) D) as Hsz.
    pose proof (subseteq_size (D ∖ BoundedSet._data
      (foldl (λ s x, BoundedSet.add x s) (BoundedSet.init C) l)) D) as Hsub.
    unfold BoundedSet.total_seen. rewrite Hsz.
    assert (size (D ∖ BoundedSet._data
      (foldl (λ s x, BoundedSet.add x s) (BoundedSet.init C) l)) <= size D)%nat
      by (apply Hsub; set_solver).
    lia. }
  induction l as [|x l IH] using rev_ind.
  { exists ∅. cbn [foldl BoundedSet.init BoundedSet._data BoundedSet._overflow_count
                     length].
    unfold BoundedSet.total_seen.
    cbn [BoundedSet.init BoundedSet._data BoundedSet._overflow_count].
    rewrite !size_empty. split; [by rewrite (left_id_L ∅ (∪))|]. lia. }
  destruct IH as (D & Hset & HD & Hlen). rewrite add_all_snoc.
  set (s := foldl (λ s x, BoundedSet.add x s) (BoundedSet.init C) l) in *.
  rewrite list_to_set_app_L, length_app. simpl in *.
  rewrite (right_id_L ∅ (∪)).
  pose proof (total_seen_add x s) as Hseen.
  destruct (decide (x ∈ BoundedSet._data s)) as [Hin|Hout].
  - exists D. rewrite add_stored by done. split; [set_solver|]. split; [done|]. lia.
  - destruct (decide (BoundedSet.len s < BoundedSet._maxsize s)) as [Hroom|Hfull].
    + exists D. rewrite add_room by done. simpl. split; [set_solver|].
      split; [done|]. rewrite add_room in Hseen by done. lia.
    + exists (D ∪ {[x]}). rewrite add_full by (done || lia). simpl.
      split; [set_solver|]. rewrite add_full in Hseen by (done || lia).
      split; [|lia].
      pose proof (size_union_alt D {[x]}) as Hsz.
      assert (size ({[x]} ∖ D : gset K) <= 1)%nat.
      { rewrite <- (size_singleton (C:=gset K) x). apply subseteq_size. set_solver. }
      lia.
Qed.
End SetExtras.

Lemma add_all_exact_witness :
  foldl (λ s x, BoundedSet.add x s) (BoundedSet.init 3) ["a"; "b"; "a"; "c"; "b"]%string
  = BoundedSet.mk (list_to_set ["a"; "b"; "a"; "c"; "b"]%string) 3 0.
Proof. apply add_all_exact. vm_compute. discriminate. Defined.

(** ** The monitor: histories, counters, the queue *)

Lemma deque_append_all {A} (q : Deque A) (l : list A) :
  deque_ok q →
  dq_items (foldl (λ q a, deque_append a q) q l)
  = drop (length (dq_items q ++ l) - dq_maxlen q) (dq_items q ++ l)
  ∧ dq_maxlen (foldl (λ q a, deque_append a q) q l) = dq_maxlen q.
Proof.
  intros Hok. unfold deque_ok in Hok. induction l as [|x l [IH IHn]] using rev_ind.
  - simpl. rewrite app_nil_r. split; [|done].
    replace (length (dq_items q) - dq_maxlen q)%nat with 0%nat by lia. done.
  - rewrite foldl_snoc. unfold deque_append at 1 3. simpl. split; [|done].
    rewrite IH, IHn, app_assoc. set (L := dq_items q ++ l). set (n := dq_maxlen q).
    rewrite !length_app, length_drop. simpl.
    destruct (decide (length L <= n)%nat) as [Hle|Hgt].
    + replace (length L - n)%nat with 0%nat by lia. simpl.
      by rewrite Nat.sub_0_r.
    + replace (length L - (length L - n) + 1 - n)%nat with 1%nat by lia.
      replace (length L + 1 - n)%nat with ((length L - n) + 1)%nat by lia.
      rewrite <- drop_drop. f_equal. rewrite drop_app_le by lia. done.
Qed.

Section MonitorExtras.
Context (geoip_enrich asn_enrich : Entry → Entry) (now : string).
Implicit Types (entry : Entry) (m : CowrieMonitor) (s : Stats).

Local Abbreviation enrich := (λ entry, asn_enrich (geoip_enrich entry)).
Local Abbreviation step := (update_stats geoip_enrich asn_enrich now).
Local Abbreviation run := (feed geoip_enrich asn_enrich now).

Lemma update_map_data_None evt entry s :
  update_map_data evt entry s = None ↔ located_with_country entry = false.
Proof.
  split.
  - intros Hnone. destruct (located_with_country entry) eqn:Hloc; [|done].
    destruct (update_map_data_located evt entry s Hloc) as (s' & Hs' & _). congruence.
  - unfold located_with_country, update_map_data. intros Hloc.
    destruct (geo_location entry) as [geo|]; [|done].
    destruct (truthy_num (geo_latitude geo)) eqn:Hlat; [|done].
    destruct (truthy_num (geo_longitude geo)) eqn:Hlng; [|done].
    simpl in Hloc. apply bool_decide_eq_false in Hloc.
    destruct (geo_country geo); [destruct Hloc; by eexists|].
    assert (geo_truthy geo = true) as ->.
    { unfold geo_truthy. destruct (geo_latitude geo); [|done].
      by destruct (geo_country geo), (geo_city geo), (geo_longitude geo),
                  (geo_other geo). }
    simpl. by repeat case_match.
Qed.

(** What [check_alerts] leaves alone, and how it extends the history. *)
Lemma check_ip_rule entry m : alert_rule_frame m (check_ip now entry m).
Proof. unfold check_ip, _add_alert. repeat case_match; by repeat split. Qed.

Lemma check_password_rule entry m : alert_rule_frame m (check_password now entry m).
Proof. unfold check_password, _add_alert. repeat case_match; by repeat split. Qed.

Lemma check_country_rule entry m : alert_rule_frame m (check_country now entry m).
Proof. unfold check_country, _add_alert. repeat case_match; by repeat split. Qed.

Lemma check_org_rule entry m : alert_rule_frame m (check_org now entry m).
Proof. unfold check_org, _add_alert. repeat case_match; by repeat split. Qed.

Lemma check_alerts_frame entry m : alert_rule_frame m (check_alerts now entry m).
Proof.
  unfold check_alerts. cbn [fst snd].
  destruct (check_ip_rule entry m) as (S1 & D1 & Q1 & C1 & T1 & P1 & I1 & L1 & A1).
  destruct (check_password_rule entry (check_ip now entry m).1)
    as (S2 & D2 & Q2 & C2 & T2 & P2 & I2 & L2 & A2).
  destruct (check_country_rule entry (check_password now entry (check_ip now entry m).1).1)
    as (S3 & D3 & Q3 & C3 & T3 & P3 & I3 & L3 & A3).
  destruct (check_org_rule entry
              (check_country now entry
                 (check_password now entry (check_ip now entry m).1).1).1)
    as (S4 & D4 & Q4 & C4 & T4 & P4 & I4 & L4 & A4).
  unfold alert_rule_frame. cbn [fst snd].
  rewrite S4, S3, S2, S1, D4, D3, D2, D1, Q4, Q3, Q2, Q1, C4, C3, C2, C1,
    T4, T3, T2, T1, P4, P3, P2, P1, I4, I3, I2, I1, L4, L3, L2, L1.
  repeat split. by rewrite A4, A3, A2, A1, !foldl_app.
Qed.

Lemma update_stats_alerts entry m :
  alerts (after (step entry m))
  = foldl (λ q a, deque_append a q) (alerts m) (emitted (step entry m)).
Proof.
  unfold update_stats. case_match; [|done]. cbn [after emitted].
  destruct (check_alerts_frame (enrich entry)
    (set_stats_dirty true (set_stats
       (update_timeline (eventid entry) (src_ip entry) (enrich entry)
          (update_asn (enrich entry) (update_country (enrich entry) s))) m)))
    as (_ & _ & _ & _ & _ & _ & _ & _ & Hal).
  unfold enqueue_fallback. by case_match.
Qed.

Lemma feed_alerts (entries : list Entry) m :
  alerts (run entries m).1
  = foldl (λ q a, deque_append a q) (alerts m) (run entries m).2.
Proof.
  revert m. induction entries as [|e es IH]; intros m; [done|].
  rewrite feed_cons. cbn [fst snd]. by rewrite foldl_app, <- update_stats_alerts, IH.
Qed.

(** X8. The alert history is the tail of what was emitted: after any
    records are fed to a new monitor, it holds the last [MAX_ALERTS] alerts
    handed to the socket, oldest first. *)
Theorem alert_history_newest (cfg : Config) (entries : list Entry) :
  dq_items (alerts (run entries (init cfg)).1)
  = drop (length (run entries (init cfg)).2 - MAX_ALERTS cfg)
         (run entries (init cfg)).2.
Proof.
  rewrite feed_alerts.
  destruct (deque_append_all (alerts (init cfg)) (run entries (init cfg)).2)
    as [Hitems _]; [unfold deque_ok; simpl; lia|].
  by rewrite Hitems.
Qed.

Lemma update_stats_raised entry m :
  located_with_country (enrich entry) = false →
  step entry m
  = {| after := set_stats (update_event (eventid entry) (src_ip entry) (enrich entry)
                                        (stats m)) m;
       emitted := [];
       outcome := RaisedKeyError |}.
Proof.
  intros Hloc. unfold update_stats.
  by rewrite (proj2 (update_map_data_None _ _ _) Hloc).
Qed.

Lemma update_event_frame evt ip entry s :
  attack_timeline (update_event evt ip entry s) = attack_timeline s
  ∧ countries (update_event evt ip entry s) = countries s
  ∧ organizations (update_event evt ip entry s) = organizations s
  ∧ asns (update_event evt ip entry s) = asns s
  ∧ markers (update_event evt ip entry s) = markers s
  ∧ heatpoints (update_event evt ip entry s) = heatpoints s.
Proof.
  unfold update_event, _process_login. repeat case_match; simpl; repeat split.
Qed.

(** X9. [update_stats] returns exactly when the enriched entry does not
    have both coordinates without a country; otherwise it raises
    [KeyError] half-way: the event is already counted, but no alert is
    emitted, no timeline entry, map marker, country, organization or ASN
    count is added, nothing is queued, and the dirty flag is not set. *)
Theorem update_stats_outcome entry m :
  (outcome (step entry m) = Returned ↔ located_with_country (enrich entry) = true)
  ∧ (outcome (step entry m) = RaisedKeyError →
     emitted (step entry m) = []
     ∧ _stats_dirty (after (step entry m)) = _stats_dirty m
     ∧ _enrich_queue (after (step entry m)) = _enrich_queue m
     ∧ alerts (after (step entry m)) = alerts m
     ∧ attack_timeline (stats (after (step entry m))) = attack_timeline (stats m)
     ∧ markers (stats (after (step entry m))) = markers (stats m)
     ∧ countries (stats (after (step entry m))) = countries (stats m)
     ∧ organizations (stats (after (step entry m))) = organizations (stats m)
     ∧ asns (stats (after (step entry m))) = asns (stats m)).
Proof.
  destruct (located_with_country (enrich entry)) eqn:Hloc.
  - destruct (update_stats_returned geoip_enrich asn_enrich now entry m Hloc)
      as (m' & -> & _). simpl. split; [done|]. discriminate.
  - rewrite update_stats_raised by done. simpl. split; [split; discriminate|].
    intros _.
    destruct (update_event_frame (eventid entry) (src_ip entry) (enrich entry) (stats m))
      as (? & ? & ? & ? & ? & ?).
    repeat split; done.
Qed.
End MonitorExtras.

(** Reduction of the field reads of the aggregate, and of nothing else. *)
Ltac stats_fields :=
  cbn [total_connections failed_logins successful_logins commands_executed
       unique_ips unique_passwords unique_users recent_attacks top_ips top_passwords
       top_users top_commands attack_timeline countries organizations asns markers
       heatpoints set_total_connections set_failed_logins set_successful_logins
       set_commands_executed set_unique_ips set_unique_passwords set_unique_users
       set_recent_attacks set_top_ips set_top_passwords set_top_users set_top_commands
       set_attack_timeline set_countries set_organizations set_asns set_markers
       set_heatpoints stats alerts _alerted_ips _alerted_countries _alerted_orgs
       _enrich_queue _stats_dirty _stats_cache _stats_cache_time last_position
       _last_inode log_path running set_stats set_alerts set_alerted_ips
       set_alerted_countries set_alerted_orgs set_enrich_queue set_stats_dirty
       set_stats_cache set_stats_cache_time set_last_position set_last_inode
       after emitted outcome fst snd] in *.

Section CounterFacts.
Context (geoip_enrich asn_enrich : Entry → Entry) (now : string).
Implicit Types (entry : Entry) (m : CowrieMonitor) (s : Stats).

Local Abbreviation enrich := (λ entry, asn_enrich (geoip_enrich entry)).
Local Abbreviation step := (update_stats geoip_enrich asn_enrich now).
Local Abbreviation run := (feed geoip_enrich asn_enrich now).

(** The aggregate after a call of [update_stats] that returns. *)
Lemma update_stats_returned_stats entry m :
  located_with_country (enrich entry) = true →
  ∃ s', update_map_data (eventid entry) (enrich entry)
          (update_event (eventid entry) (src_ip entry) (enrich entry) (stats m))
        = Some s'
        ∧ stats (after (step entry m))
          = update_timeline (eventid entry) (src_ip entry) (enrich entry)
              (update_asn (enrich entry) (update_country (enrich entry) s'))
        ∧ _stats_dirty (after (step entry m)) = true
        ∧ emitted (step entry m)
          = (check_alerts now (enrich entry)
               (set_stats_dirty true
                  (set_stats
                     (update_timeline (eventid entry) (src_ip entry) (enrich entry)
                        (update_asn (enrich entry) (update_country (enrich entry) s')))
                     m))).2.
Proof.
  intros Hloc.
  destruct (update_map_data_located (eventid entry) (enrich entry)
              (update_event (eventid entry) (src_ip entry) (enrich entry) (stats m))
              Hloc) as (s' & Hs' & _).
  exists s'. split; [done|]. unfold update_stats. rewrite Hs'. stats_fields.
  match goal with |- context [check_alerts now ?e ?m0] =>
    destruct (check_alerts_frame now e m0) as (Hs & Hd & _) end.
  unfold enqueue_fallback. case_match; stats_fields; by rewrite Hs, Hd.
Qed.

Lemma scalars_frame s' s :
  (∃ evt entry, update_map_data evt entry s = Some s')
  ∨ (∃ entry, s' = update_country entry s)
  ∨ (∃ entry, s' = update_asn entry s)
  ∨ (∃ evt ip entry, s' = update_timeline evt ip entry s) →
  total_connections s' = total_connections s
  ∧ failed_logins s' = failed_logins s
  ∧ successful_logins s' = successful_logins s
  ∧ commands_executed s' = commands_executed s.
Proof.
  intros [(evt & entry & Hs)|[(entry & ->)|[(entry & ->)|(evt & ip & entry & ->)]]].
  - unfold update_map_data in Hs. repeat case_match; by simplify_eq.
  - unfold update_country. by repeat case_match.
  - unfold update_asn. by repeat case_match.
  - done.
Qed.

Lemma update_event_scalars evt ip entry s :
  total_connections (update_event evt ip entry s)
  = total_connections s
    + (if bool_decide (evt = Some "cowrie.session.connect"%string) then 1 else 0)
  ∧ failed_logins (update_event evt ip entry s)
    = failed_logins s
      + (if bool_decide (evt = Some "cowrie.login.failed"%string) then 1 else 0)
  ∧ successful_logins (update_event evt ip entry s)
    = successful_logins s
      + (if bool_decide (evt = Some "cowrie.login.success"%string) then 1 else 0)
  ∧ commands_executed (update_event evt ip entry s)
    = commands_executed s
      + (if bool_decide (evt = Some "cowrie.command.input"%string) then 1 else 0).
Proof.
  unfold update_event, _process_login.
  repeat case_bool_decide; simplify_eq; repeat case_match; stats_fields;
    repeat split; lia.
Qed.

(** X10. Each call of [update_stats] adds one to the scalar counter of the
    kind of the record, as the record says it before enrichment, and
    leaves the three others as they were; a record of any other kind
    changes none. This also holds of a call that raises. *)
Theorem event_counters entry m :
  total_connections (stats (after (update_stats geoip_enrich asn_enrich now entry m)))
  = total_connections (stats m)
    + (if bool_decide (eventid entry = Some "cowrie.session.connect"%string)
       then 1 else 0)
  ∧ failed_logins (stats (after (update_stats geoip_enrich asn_enrich now entry m)))
    = failed_logins (stats m)
      + (if bool_decide (eventid entry = Some "cowrie.login.failed"%string)
         then 1 else 0)
  ∧ successful_logins (stats (after (update_stats geoip_enrich asn_enrich now entry m)))
    = successful_logins (stats m)
      + (if bool_decide (eventid entry = Some "cowrie.login.success"%string)
         then 1 else 0)
  ∧ commands_executed (stats (after (update_stats geoip_enrich asn_enrich now entry m)))
    = commands_executed (stats m)
      + (if bool_decide (eventid entry = Some "cowrie.command.input"%string)
         then 1 else 0).
Proof.
  pose proof (update_event_scalars (eventid entry) (src_ip entry) (enrich entry)
                (stats m)) as (E1 & E2 & E3 & E4).
  destruct (located_with_country (enrich entry)) eqn:Hloc.
  - destruct (update_stats_returned_stats entry m Hloc) as (s' & Hs' & -> & _).
    destruct (scalars_frame s' _ (or_introl (ex_intro _ _ (ex_intro _ _ Hs'))))
      as (A1 & A2 & A3 & A4).
    destruct (scalars_frame _ s'
                (or_intror (or_introl (ex_intro _ (enrich entry) eq_refl))))
      as (B1 & B2 & B3 & B4).
    destruct (scalars_frame _ (update_country (enrich entry) s')
                (or_intror (or_intror (or_introl (ex_intro _ (enrich entry) eq_refl)))))
      as (C1 & C2 & C3 & C4).
    destruct (scalars_frame _ (update_asn (enrich entry)
                                 (update_country (enrich entry) s'))
                (or_intror (or_intror (or_intror
                   (ex_intro _ (eventid entry) (ex_intro _ (src_ip entry)
                      (ex_intro _ (enrich entry) eq_refl)))))))
      as (D1 & D2 & D3 & D4).
    rewrite D1, D2, D3, D4, C1, C2, C3, C4, B1, B2, B3, B4, A1, A2, A3, A4. done.
  - rewrite update_stats_raised by done. stats_fields. done.
Qed.
End CounterFacts.

(** ** The enrichment queue and the capacities *)

Lemma put_nowait_all {A} (cap : Z) (l : list A) :
  q_items (foldl (λ q x, put_nowait x q) (queue_new cap) l)
  = (if 0 <? cap then take (Z.to_nat cap) l else l)
  ∧ q_maxsize (foldl (λ q x, put_nowait x q) (queue_new cap) l) = cap.
Proof.
  induction l as [|x l [IH IHn]] using rev_ind.
  - simpl. by destruct (0 <? cap); [rewrite take_nil|].
  - rewrite foldl_snoc. unfold put_nowait at 1 3. rewrite IH, IHn.
    destruct (0 <? cap) eqn:Hcap; simpl; [|done].
    apply Z.ltb_lt in Hcap. rewrite length_take.
    destruct (cap <=? Z.of_nat (Z.to_nat cap `min` length l)) eqn:Hfull; simpl.
    + apply Z.leb_le in Hfull. split; [|done]. rewrite take_app_le; [done|lia].
    + apply Z.leb_gt in Hfull. split; [|done].
      rewrite !take_ge; [done | rewrite length_app; simpl; lia | lia].
Qed.

Section QueueFacts.
Context (geoip_enrich asn_enrich : Entry → Entry) (now : string).
Implicit Types (entry : Entry) (m : CowrieMonitor) (s : Stats).

Local Abbreviation enrich := (λ entry, asn_enrich (geoip_enrich entry)).
Local Abbreviation step := (update_stats geoip_enrich asn_enrich now).
Local Abbreviation run := (feed geoip_enrich asn_enrich now).

Lemma update_stats_queue entry m :
  _enrich_queue (after (step entry m))
  = match fallback_job geoip_enrich asn_enrich entry with
    | Some job => put_nowait job (_enrich_queue m)
    | None => _enrich_queue m
    end.
Proof.
  unfold fallback_job. destruct (located_with_country (enrich entry)) eqn:Hloc.
  - destruct (update_map_data_located (eventid entry) (enrich entry)
                (update_event (eventid entry) (src_ip entry) (enrich entry) (stats m))
                Hloc) as (s' & Hs' & _).
    unfold update_stats. rewrite Hs'. stats_fields.
    match goal with |- context [check_alerts now ?e ?m0] =>
      destruct (check_alerts_frame now e m0) as (_ & _ & Hq & _) end.
    unfold enqueue_fallback. case_match; stats_fields; by rewrite Hq.
  - by rewrite update_stats_raised.
Qed.

Lemma feed_queue (entries : list Entry) m :
  _enrich_queue (run entries m).1
  = foldl (λ q x, put_nowait x q) (_enrich_queue m)
          (omap (fallback_job geoip_enrich asn_enrich) entries).
Proof.
  revert m. induction entries as [|e es IH]; intros m; [done|].
  rewrite feed_cons. cbn [fst snd]. rewrite IH, update_stats_queue. simpl.
  by destruct (fallback_job geoip_enrich asn_enrich e).
Qed.

(** X11. The fallback queue, while no worker takes from it: after any
    records are fed to a new monitor it holds, in order, the enriched
    entries of the calls that returned without an organization, up to
    [ENRICHMENT_QUEUE_SIZE] of them, and the later ones are dropped; a size
    of zero or less keeps them all. *)
Theorem fallback_queue_contents (cfg : Config) (entries : list Entry) :
  q_items (_enrich_queue (run entries (init cfg)).1)
  = (if 0 <? ENRICHMENT_QUEUE_SIZE cfg
     then take (Z.to_nat (ENRICHMENT_QUEUE_SIZE cfg))
               (omap (fallback_job geoip_enrich asn_enrich) entries)
     else omap (fallback_job geoip_enrich asn_enrich) entries).
Proof.
  rewrite feed_queue.
  apply (put_nowait_all (ENRICHMENT_QUEUE_SIZE cfg)
           (omap (fallback_job geoip_enrich asn_enrich) entries)).
Qed.
End QueueFacts.

Lemma counter_ok_increment {K} `{EqDecision K} (k : K) (c : BoundedCounter.t K) :
  counter_ok c → counter_ok (BoundedCounter.increment k c).1.
Proof.
  intros [Hnd Hlen].
  destruct (maybe_evict_set_bound k (PyDict.get k 0 (BoundedCounter._data c) + 1)
              c Hnd Hlen) as (Hnd' & Hlen' & Hmax).
  split; [exact Hnd'|]. unfold BoundedCounter.increment. cbn [fst].
  by rewrite Hmax.
Qed.

Lemma set_ok_add {K} `{Countable K} (x : K) (s : BoundedSet.t K) :
  set_ok s → set_ok (BoundedSet.add x s).
Proof.
  unfold set_ok. intros Hok.
  destruct (decide (x ∈ BoundedSet._data s)) as [Hin|Hout].
  { by rewrite add_stored by done. }
  destruct (decide (BoundedSet.len s < BoundedSet._maxsize s)) as [Hroom|Hfull].
  - rewrite add_room by done. unfold BoundedSet.len in *.
    cbn [BoundedSet._data BoundedSet._maxsize].
    rewrite size_union by (apply disjoint_singleton_r; exact Hout).
    rewrite size_singleton. lia.
  - by rewrite add_full by (done || lia).
Qed.

Lemma deque_ok_append {A} (x : A) (q : Deque A) : deque_ok (deque_append x q).
Proof. unfold deque_ok, deque_append. simpl. rewrite length_drop. lia. Qed.

Lemma queue_ok_put {A} (x : A) (q : Queue A) : queue_ok q → queue_ok (put_nowait x q).
Proof.
  unfold queue_ok, put_nowait. intros Hok.
  destruct (0 <? q_maxsize q) eqn:Hpos; simpl; [|apply Z.ltb_ge in Hpos; lia].
  destruct (q_maxsize q <=? Z.of_nat (length (q_items q))) eqn:Hfull; simpl; [done|].
  apply Z.leb_gt in Hfull. rewrite length_app. simpl. lia.
Qed.

Create HintDb capacity.
#[local] Hint Resolve counter_ok_increment set_ok_add deque_ok_append queue_ok_put
  : capacity.

Ltac solve_capacity :=
  unfold stats_within_capacity in *; stats_fields;
  repeat match goal with H : _ ∧ _ |- _ => destruct H end;
  repeat match goal with |- _ ∧ _ => split end; eauto with capacity.

Section CapacityFacts.
Context (geoip_enrich asn_enrich : Entry → Entry) (now : string).
Implicit Types (entry : Entry) (m : CowrieMonitor) (s : Stats).

Local Abbreviation enrich := (λ entry, asn_enrich (geoip_enrich entry)).
Local Abbreviation step := (update_stats geoip_enrich asn_enrich now).

Lemma update_event_capacity evt ip entry s :
  stats_within_capacity s → stats_within_capacity (update_event evt ip entry s).
Proof.
  intros Hok. unfold update_event, _process_login.
  repeat case_match; solve_capacity.
Qed.

Lemma update_map_data_capacity evt entry s s' :
  update_map_data evt entry s = Some s' →
  stats_within_capacity s → stats_within_capacity s'.
Proof.
  unfold update_map_data. intros Hs Hok.
  repeat case_match; simplify_eq; solve_capacity.
Qed.

Lemma update_rest_capacity evt ip entry s :
  stats_within_capacity s →
  stats_within_capacity
    (update_timeline evt ip entry (update_asn entry (update_country entry s))).
Proof.
  intros Hok. unfold update_timeline, update_asn, update_country.
  repeat case_match; solve_capacity.
Qed.

Lemma check_alerts_capacity entry m :
  within_capacity m → within_capacity (check_alerts now entry m).1.
Proof.
  assert (∀ m, within_capacity m → within_capacity (check_ip now entry m).1) as H1.
  { intros m0 Hok. unfold check_ip, _add_alert, within_capacity in *.
    repeat case_match; solve_capacity. }
  assert (∀ m, within_capacity m → within_capacity (check_password now entry m).1) as H2.
  { intros m0 Hok. unfold check_password, _add_alert, within_capacity in *.
    repeat case_match; solve_capacity. }
  assert (∀ m, within_capacity m → within_capacity (check_country now entry m).1) as H3.
  { intros m0 Hok. unfold check_country, _add_alert, within_capacity in *.
    repeat case_match; solve_capacity. }
  assert (∀ m, within_capacity m → within_capacity (check_org now entry m).1) as H4.
  { intros m0 Hok. unfold check_org, _add_alert, within_capacity in *.
    repeat case_match; solve_capacity. }
  intros Hok. unfold check_alerts. cbn [fst]. auto.
Qed.

Lemma update_asn_stats_capacity entry m :
  within_capacity m → within_capacity (_update_asn_stats entry m).
Proof.
  intros Hok. unfold _update_asn_stats, within_capacity in *.
  repeat case_match; solve_capacity.
Qed.

Lemma init_within_capacity (cfg : Config) :
  0 <= MAX_UNIQUE_IPS cfg → 0 <= MAX_UNIQUE_PASSWORDS cfg →
  0 <= MAX_UNIQUE_USERS cfg → 0 <= MAX_TOP_ENTRIES cfg →
  within_capacity (init cfg).
Proof.
  intros Hips Hpw Hus Htop.
  assert (∀ K `{Countable K} C, 0 <= C → set_ok (BoundedSet.init (K:=K) C)) as Hset.
  { intros K ?? C HC. unfold set_ok, BoundedSet.len.
    cbn [BoundedSet.init BoundedSet._data BoundedSet._maxsize].
    rewrite size_empty. lia. }
  assert (∀ K `{EqDecision K} C, 0 <= C → counter_ok (BoundedCounter.init (K:=K) C))
    as Hctr.
  { intros K ? C HC. split; [apply NoDup_nil_2|].
    unfold BoundedCounter.len, PyDict.len. simpl. lia. }
  assert (∀ A n, deque_ok (deque_new (A:=A) n)) as Hdq
    by (intros A n; unfold deque_ok; simpl; lia).
  unfold within_capacity, stats_within_capacity, init, init_stats. stats_fields.
  repeat match goal with |- _ ∧ _ => split end;
    try apply Hset; try apply Hctr; try apply Hdq; try lia.
  unfold queue_ok. simpl. lia.
Qed.

(** X12. No bounded collection of the monitor outgrows its capacity: when
    the unique sets, frequency counters, histories, alerted sets and the
    queue are within their capacities, they still are after
    [update_stats] (whether it returns or raises), after
    [_update_asn_stats], and after a turn of the enrichment worker. *)
Theorem capacity_invariant entry m :
  within_capacity m →
  within_capacity (after (step entry m))
  ∧ within_capacity (_update_asn_stats entry m)
  ∧ within_capacity (_enrichment_worker asn_enrich m).
Proof.
  intros Hok. split; [|split].
  - assert (stats_within_capacity
              (update_event (eventid entry) (src_ip entry) (enrich entry) (stats m)))
      as Hev by (apply update_event_capacity, Hok).
    unfold update_stats.
    destruct (update_map_data _ _ _) as [s'|] eqn:Hs'.
    + stats_fields.
      assert (within_capacity
                (set_stats_dirty true
                   (set_stats
                      (update_timeline (eventid entry) (src_ip entry) (enrich entry)
                         (update_asn (enrich entry) (update_country (enrich entry) s')))
                      m))) as Hmid.
      { pose proof (update_rest_capacity (eventid entry) (src_ip entry) (enrich entry) s'
                      (update_map_data_capacity _ _ _ _ Hs' Hev)) as Hrest.
        unfold within_capacity in *. stats_fields. tauto. }
      apply (check_alerts_capacity (enrich entry)) in Hmid.
      unfold enqueue_fallback. case_match; [done|].
      unfold within_capacity in *. stats_fields.
      repeat match goal with H : _ ∧ _ |- _ => destruct H end.
      repeat match goal with |- _ ∧ _ => split end; eauto with capacity.
    + stats_fields. unfold within_capacity in *. stats_fields. tauto.
  - by apply update_asn_stats_capacity.
  - unfold _enrichment_worker. destruct (q_items (_enrich_queue m)) eqn:Hq; [done|].
    apply update_asn_stats_capacity. unfold within_capacity in *. stats_fields.
    repeat match goal with H : _ ∧ _ |- _ => destruct H end.
    repeat match goal with |- _ ∧ _ => split end; eauto.
    unfold queue_ok in *. simpl. rewrite Hq in *. simpl in *. lia.
Qed.
End CapacityFacts.

Lemma capacity_invariant_witness :
  let m := init default_config in
  within_capacity (after (update_stats id id "12:00" (connect_entry "203.0.113.7") m))
  ∧ within_capacity (_update_asn_stats (connect_entry "203.0.113.7") m)
  ∧ within_capacity (_enrichment_worker id m).
Proof.
  intros m. apply capacity_invariant.
  apply init_within_capacity; simpl; lia.
Defined.

(** ** Connect records without an address *)

Lemma elem_of_keys_set {K} `{EqDecision K} (k k' : K) (v : Z) (d : PyDict.dict K) :
  k' ∈ PyDict.keys (PyDict.set k v d) → k' = k ∨ k' ∈ PyDict.keys d.
Proof.
  destruct (decide (k ∈ PyDict.keys d)) as [Hin|Hout].
  - rewrite keys_set_present by done. by right.
  - rewrite set_fresh by done. unfold PyDict.keys. rewrite fmap_app, elem_of_app.
    simpl. rewrite list_elem_of_singleton. tauto.
Qed.

Lemma elem_of_keys_increment {K} `{EqDecision K} (k k' : K) (c : BoundedCounter.t K) :
  k' ∈ PyDict.keys (BoundedCounter._data (BoundedCounter.increment k c).1) →
  k' = k ∨ k' ∈ PyDict.keys (BoundedCounter._data c).
Proof.
  unfold BoundedCounter.increment. cbn [fst]. intros Hin%maybe_evict_keys.
  by apply elem_of_keys_set in Hin.
Qed.

Section AnonymousFacts.
Context (geoip_enrich asn_enrich : Entry → Entry) (now : string).
Implicit Types (entry : Entry) (m : CowrieMonitor) (s : Stats).

Local Abbreviation enrich := (λ entry, asn_enrich (geoip_enrich entry)).
Local Abbreviation step := (update_stats geoip_enrich asn_enrich now).
Local Abbreviation run := (feed geoip_enrich asn_enrich now).

Lemma check_alerts_medium entry m :
  eventid entry = Some "cowrie.session.connect"%string → src_ip entry = None →
  (∀ ip, Some ip ∉ PyDict.keys (BoundedCounter._data (top_ips (stats m)))) →
  Forall (λ a, al_level a = "MEDIUM"%string) (check_alerts now entry m).2.
Proof.
  intros Hevt Hip Hkeys. unfold check_alerts. cbn [snd].
  destruct (check_password_frame now entry (check_ip now entry m).1) as (_ & _ & H2).
  destruct (check_country_frame now entry
              (check_password now entry (check_ip now entry m).1).1) as (_ & _ & H3).
  destruct (check_org_frame now entry
              (check_country now entry
                 (check_password now entry (check_ip now entry m).1).1).1)
    as (_ & _ & H4).
  assert ((check_ip now entry m).2 = []) as ->.
  { unfold check_ip. rewrite Hevt, Hip. rewrite bool_decide_eq_true_2 by done.
    cbn [default]. destruct (top_ips (stats m)) as [d C] eqn:Htop.
    rewrite getitem_untracked; [done|]. apply (Hkeys ""%string). }
  rewrite !Forall_app. split; [constructor|]. split; [done|].
  split; (eapply Forall_impl; [eassumption|]; by intros a [Ha _]).
Qed.

Lemma step_anonymous entry m :
  anonymous_connect geoip_enrich asn_enrich entry →
  (∀ ip, Some ip ∉ PyDict.keys (BoundedCounter._data (top_ips (stats m)))) →
  (∀ ip, Some ip ∉ PyDict.keys (BoundedCounter._data
                                  (top_ips (stats (after (step entry m))))))
  ∧ Forall (λ a, al_level a = "MEDIUM"%string) (emitted (step entry m)).
Proof.
  intros (Hevt & Hip & Hevt' & Hip') Hkeys. rewrite Hevt in Hevt'.
  assert (∀ ip, Some ip ∉ PyDict.keys (BoundedCounter._data
            (top_ips (update_event (eventid entry) (src_ip entry) (enrich entry)
                                   (stats m))))) as Hev.
  { intros ip Hin. unfold update_event in Hin. rewrite Hevt, Hip in Hin.
    rewrite bool_decide_eq_true_2 in Hin by done. stats_fields.
    apply elem_of_keys_increment in Hin as [?|Hin]; [done|]. by apply (Hkeys ip). }
  destruct (located_with_country (enrich entry)) eqn:Hloc.
  - destruct (update_map_data_located (eventid entry) (enrich entry)
                (update_event (eventid entry) (src_ip entry) (enrich entry) (stats m))
                Hloc) as (s' & Hs' & Htop).
    destruct (update_stats_returned_stats geoip_enrich asn_enrich now entry m Hloc)
      as (s'' & Hs'' & Hst & _ & Hout).
    rewrite Hs' in Hs''. simplify_eq.
    assert (top_ips (stats (after (step entry m)))
            = top_ips (update_event (eventid entry) (src_ip entry) (enrich entry)
                                    (stats m))) as Hkeep.
    { rewrite Hst. unfold update_timeline. stats_fields.
      by rewrite update_asn_top_ips, update_country_top_ips. }
    split; [by rewrite Hkeep|]. rewrite Hout.
    apply check_alerts_medium; [done | done |]. stats_fields.
    unfold update_timeline. stats_fields.
    by rewrite update_asn_top_ips, update_country_top_ips, Htop.
  - rewrite update_stats_raised by done. stats_fields. split; [done | constructor].
Qed.

(** X13. A connect record without [src_ip] is counted under the key [None]
    while the high-frequency rule looks up the empty string: however many
    such records a new monitor is fed, it never raises a HIGH alert (every
    alert it emits is MEDIUM). *)
Theorem anonymous_connects_never_alert (cfg : Config) (entries : list Entry) :
  Forall (anonymous_connect geoip_enrich asn_enrich) entries →
  Forall (λ a, al_level a = "MEDIUM"%string) (run entries (init cfg)).2.
Proof.
  assert (∀ m, (∀ ip, Some ip ∉ PyDict.keys (BoundedCounter._data (top_ips (stats m)))) →
               Forall (anonymous_connect geoip_enrich asn_enrich) entries →
               Forall (λ a, al_level a = "MEDIUM"%string) (run entries m).2) as Hgen.
  { induction entries as [|e es IH]; intros m Hkeys Hall; [constructor|].
    apply Forall_cons in Hall as [He Hes].
    destruct (step_anonymous e m He Hkeys) as [Hkeys' Hout].
    rewrite feed_cons. cbn [snd]. apply Forall_app. split; [done|]. by apply IH. }
  apply Hgen. intros ip. simpl. apply not_elem_of_nil.
Qed.
End AnonymousFacts.

Lemma anonymous_connects_never_alert_witness :
  let entry := {| eventid := Some "cowrie.session.connect"%string;
                  src_ip := None;
                  timestamp := None;
                  username := None;
                  password := None;
                  input := None;
                  geo_location := None;
                  asn_info := None |} in
  Forall (λ a, al_level a = "MEDIUM"%string)
         (feed id id "12:00" (replicate 40 entry) (init default_config)).2.
Proof.
  intros entry. apply anonymous_connects_never_alert.
  apply Forall_replicate. by repeat split.
Defined.

(** ** The snapshot cache *)

Section CacheFacts.
Context (cfg : Config) (geoip_enrich asn_enrich : Entry → Entry) (now : string).
Implicit Types (entry : Entry) (m : CowrieMonitor) (t : Qc).

Local Abbreviation enrich := (λ entry, asn_enrich (geoip_enrich entry)).
Local Abbreviation step := (update_stats geoip_enrich asn_enrich now).

Lemma get_stats_summary_fresh t m (cached : Summary) :
  _stats_cache m = Some cached → cache_fresh cfg t m = true →
  get_stats_summary cfg t m = (cached, m).
Proof. intros Hc Hfresh. unfold get_stats_summary. by rewrite Hc, Hfresh. Qed.

Lemma get_stats_summary_computed t m :
  cache_fresh cfg t m = false →
  get_stats_summary cfg t m
  = (build_summary m,
     set_stats_dirty false
       (set_stats_cache_time t (set_stats_cache (Some (build_summary m)) m))).
Proof.
  intros Hstale. unfold get_stats_summary.
  destruct (_stats_cache m); [|done]. by rewrite Hstale.
Qed.

(** X14. A snapshot that was just computed is served again as it is: a
    second [get_stats_summary] less than the TTL after the first, with no
    update in between, returns the same summary and changes nothing. *)
Theorem snapshot_served_from_cache (t1 t2 : Qc) m :
  cache_fresh cfg t1 m = false → (t2 - t1 < STATS_CACHE_TTL cfg)%Qc →
  get_stats_summary cfg t2 (get_stats_summary cfg t1 m).2
  = ((get_stats_summary cfg t1 m).1, (get_stats_summary cfg t1 m).2).
Proof.
  intros Hstale Httl. rewrite (get_stats_summary_computed t1 m Hstale). cbn [fst snd].
  apply get_stats_summary_fresh; [done|].
  unfold cache_fresh. stats_fields.
  rewrite bool_decide_eq_true_2 by by eexists.
  by rewrite bool_decide_eq_true_2.
Qed.

(** X15. A record that [update_stats] processes to the end invalidates the
    cache: the next [get_stats_summary], at whatever time, is computed from
    the aggregate as the record left it. *)
Theorem update_invalidates_snapshot (t : Qc) entry m :
  located_with_country (enrich entry) = true →
  (get_stats_summary cfg t (after (step entry m))).1
  = build_summary (after (step entry m)).
Proof.
  intros Hloc.
  destruct (update_stats_returned_stats geoip_enrich asn_enrich now entry m Hloc)
    as (s' & _ & _ & Hdirty & _).
  rewrite get_stats_summary_computed; [done|].
  unfold cache_fresh. by rewrite Hdirty, andb_false_r.
Qed.

(** X16. A record on which [update_stats] raises is counted without the
    dirty flag being set: while the cached snapshot is fresh,
    [get_stats_summary] keeps serving it, although the aggregate has
    changed. *)
Theorem raised_update_leaves_snapshot_stale (t : Qc) entry m (cached : Summary) :
  located_with_country (enrich entry) = false →
  _stats_cache m = Some cached → cache_fresh cfg t m = true →
  (get_stats_summary cfg t (after (step entry m))).1 = cached
  ∧ stats (after (step entry m))
    = update_event (eventid entry) (src_ip entry) (enrich entry) (stats m).
Proof.
  intros Hloc Hc Hfresh. rewrite update_stats_raised by done. stats_fields.
  split; [|done]. by rewrite (get_stats_summary_fresh t _ cached).
Qed.

(** X17. A turn of the push loop sends a summary only when the aggregate is
    dirty, and then a newly computed one; it clears the flag, so that a
    second turn with no update in between sends nothing. *)
Theorem push_only_when_dirty (t1 t2 : Qc) m :
  (stats_push_loop cfg t1 m).1
  = (if _stats_dirty m then Some (build_summary m) else None)
  ∧ (_stats_dirty m = true →
     (stats_push_loop cfg t2 (stats_push_loop cfg t1 m).2).1 = None).
Proof.
  unfold stats_push_loop at 1 3. destruct (_stats_dirty m) eqn:Hdirty.
  - assert (cache_fresh cfg t1 m = false) as Hstale
      by (unfold cache_fresh; by rewrite Hdirty, andb_false_r).
    rewrite get_stats_summary_computed by done. cbn [fst snd].
    split; [done|]. intros _. unfold stats_push_loop. by stats_fields.
  - split; [done|]. discriminate.
Qed.
End CacheFacts.

Lemma snapshot_served_from_cache_witness :
  let m := init default_config in
  get_stats_summary default_config (Qc_of_Z 11)
    (get_stats_summary default_config (Qc_of_Z 10) m).2
  = ((get_stats_summary default_config (Qc_of_Z 10) m).1,
     (get_stats_summary default_config (Qc_of_Z 10) m).2).
Proof.
  intros m. apply snapshot_served_from_cache; [reflexivity|].
  apply (bool_decide_unpack _). reflexivity.
Defined.

Lemma update_invalidates_snapshot_witness :
  let m := (get_stats_summary default_config (Qc_of_Z 10) (init default_config)).2 in
  let entry := connect_entry "203.0.113.7" in
  (get_stats_summary default_config (Qc_of_Z 10)
     (after (update_stats id id "12:00" entry m))).1
  = build_summary (after (update_stats id id "12:00" entry m)).
Proof. intros m entry. by apply update_invalidates_snapshot. Defined.

Lemma raised_update_leaves_snapshot_stale_witness :
  let m := (get_stats_summary default_config (Qc_of_Z 10) (init default_config)).2 in
  let entry := {| eventid := Some "cowrie.session.connect"%string;
                  src_ip := Some "203.0.113.7"%string;
                  timestamp := None;
                  username := None;
                  password := None;
                  input := None;
                  geo_location :=
                    Some {| geo_country := None; geo_city := None;
                            geo_latitude := Some (Qc_of_Z 52);
                            geo_longitude := Some (Qc_of_Z 13);
                            geo_other := false |};
                  asn_info := None |} in
  (get_stats_summary default_config (Qc_of_Z 11)
     (after (update_stats id id "12:00" entry m))).1
  = build_summary (init default_config)
  ∧ stats (after (update_stats id id "12:00" entry m))
    = update_event (eventid entry) (src_ip entry) entry (stats m).
Proof.
  intros m entry.
  apply (raised_update_leaves_snapshot_stale default_config id id "12:00");
    [reflexivity | reflexivity |].
  apply andb_true_intro. split; [reflexivity|].
  apply bool_decide_eq_true_2. apply (bool_decide_unpack _). reflexivity.
Defined.

(** ** The tailer: what a turn reads *)

Lemma append_cons (c : ascii) (s t : string) :
  (String c s +:+ t)%string = String c (s +:+ t).
Proof. reflexivity. Qed.

Lemma append_nil_r (s : string) : (s +:+ "")%string = s.
Proof. induction s as [|c s IH]; [done|]. by rewrite append_cons, IH. Qed.




Lemma substring_none (n : nat) (s : string) : String.substring n 0 s = EmptyString.
Proof. revert s. induction n as [|n IH]; intros [|c s]; simpl; auto. Qed.


Lemma lines_from_nonempty (cur s : string) :
  Forall (λ line, line ≠ EmptyString) (lines_from cur s).
Proof.
  revert cur. induction s as [|c s IH]; intros cur; simpl.
  - destruct cur; by repeat constructor.
  - destruct (Ascii.eqb c "010"); [|apply IH]. constructor; [|apply IH].
    by destruct cur.
Qed.


Lemma readlines_at_end (data : string) :
  readlines data (Z.of_nat (String.length data)) = [].
Proof.
  unfold readlines. rewrite Nat2Z.id, Nat.sub_diag. by rewrite substring_none.
Qed.

Section TailerExtras.
Context (geoip_enrich asn_enrich : Entry → Entry).
Context (parse_log_entry : string → option Entry) (now : string).
Implicit Types (fs : FileSystem) (t : Tailer) (m : CowrieMonitor).

Local Abbreviation step := (update_stats geoip_enrich asn_enrich now).
Local Abbreviation process :=
  (process_lines geoip_enrich asn_enrich parse_log_entry now).
Local Abbreviation turn := (monitor_logs geoip_enrich asn_enrich parse_log_entry now).

(** No rotation: the file is the one seen last (or none was seen yet) and
    is not smaller than the saved offset. *)
Lemma detect_no_rotation fs m (inode : Z) :
  path_inode fs (log_path m) = Some inode →
  _last_inode m = Some inode ∨ _last_inode m = None →
  last_position m <= Z.of_nat (String.length (inode_data fs inode)) →
  _detect_log_rotation fs m = (false, set_last_inode (Some inode) m).
Proof.
  intros Hpath Hino Hpos. unfold _detect_log_rotation. rewrite Hpath.
  rewrite (proj2 (Z.ltb_ge _ _)) by lia.
  destruct Hino as [-> | ->]; simpl; [|done].
  by rewrite (bool_decide_eq_false_2 (Some inode ≠ Some inode)) by (by intros ?).
Qed.

Lemma handle_in_step_mk m (i p : Z) :
  last_position m = p → _last_inode m = Some i →
  handle_in_step {| monitor := m; file_handle := Some {| fh_inode := i; fh_pos := p |} |}.
Proof.
  intros Hp Hi fh Hfh. cbn [file_handle monitor] in *. injection Hfh as <-.
  by split.
Qed.


Lemma update_stats_tail_frame (entry : Entry) m :
  last_position (after (step entry m)) = last_position m
  ∧ _last_inode (after (step entry m)) = _last_inode m
  ∧ log_path (after (step entry m)) = log_path m.
Proof.
  unfold update_stats. case_match; [|done]. stats_fields.
  match goal with |- context [check_alerts now ?e ?m0] =>
    destruct (check_alerts_frame now e m0) as (_ & _ & _ & _ & _ & Hp & Hi & Hl & _) end.
  unfold enqueue_fallback. case_match; stats_fields; by rewrite Hp, Hi, Hl.
Qed.

Lemma process_lines_frame (lines : list string) t :
  last_position (monitor (process lines t).1) = last_position (monitor t)
  ∧ _last_inode (monitor (process lines t).1) = _last_inode (monitor t)
  ∧ log_path (monitor (process lines t).1) = log_path (monitor t)
  ∧ (file_handle (process lines t).1 = file_handle t
     ∨ file_handle (process lines t).1 = None).
Proof.
  revert t. induction lines as [|line rest IH]; intros t; simpl; [by auto|].
  destruct (parse_log_entry line) as [entry|]; [|apply IH].
  destruct (update_stats_tail_frame entry (monitor t)) as (Hp & Hi & Hl).
  destruct (outcome (step entry (monitor t))); cbn [fst].
  - destruct (IH {| monitor := after (step entry (monitor t));
                    file_handle := file_handle t |}) as (Hp' & Hi' & Hl' & Hh').
    cbn [monitor file_handle] in *. by rewrite Hp', Hi', Hl', Hp, Hi, Hl.
  - cbn [monitor file_handle]. auto.
Qed.

(** X19. A turn consumes all it reads: after a turn of [monitor_logs] on an
    existing file, a further read of the unchanged file gets no line, also
    when the turn stopped at a record on which [update_stats] raised; the
    lines after that record are then never processed. *)
Theorem second_poll_reads_nothing fs t (inode : Z) :
  handle_in_step t →
  path_inode fs (log_path (monitor t)) = Some inode →
  (poll_read fs (turn fs t).1).1 = []
  ∧ last_position (monitor (turn fs t).1)
    = Z.of_nat (String.length (inode_data fs inode)).
Proof.
  intros Hstep Hpath. set (size := Z.of_nat (String.length (inode_data fs inode))).
  assert (∃ t1 lines, poll_read fs t = (lines, t1)
                      ∧ last_position (monitor t1) = size
                      ∧ _last_inode (monitor t1) = Some inode
                      ∧ log_path (monitor t1) = log_path (monitor t)
                      ∧ handle_in_step t1) as (t1 & lines & Hpoll & Hp1 & Hi1 & Hl1 & Hs1).
  { unfold poll_read, _detect_log_rotation. rewrite Hpath. fold size.
    destruct (size <? last_position (monitor t)) eqn:Hshrunk.
    - eexists _, _. split; [reflexivity|]. stats_fields.
      assert (tell_after_read (inode_data fs inode) 0 = size) as Htell
        by (unfold tell_after_read, size; lia).
      destruct (file_handle t); cbn [fh_inode fh_pos monitor file_handle];
        stats_fields; rewrite Htell; split_and!; try done;
        by apply handle_in_step_mk.
    - apply Z.ltb_ge in Hshrunk.
      destruct (bool_decide (is_Some (_last_inode (monitor t)))
                && bool_decide (Some inode ≠ _last_inode (monitor t))) eqn:Hrep.
      + eexists _, _. split; [reflexivity|]. stats_fields.
        assert (tell_after_read (inode_data fs inode) 0 = size) as Htell
          by (unfold tell_after_read, size; lia).
        destruct (file_handle t); cbn [fh_inode fh_pos monitor file_handle];
          stats_fields; rewrite Htell; split_and!; try done;
          by apply handle_in_step_mk.
      + eexists _, _. split; [reflexivity|]. stats_fields.
        destruct (file_handle t) as [fh|] eqn:Hh;
          cbn [fh_inode fh_pos monitor file_handle]; stats_fields.
        * destruct (Hstep fh Hh) as [Hp Hi]. rewrite Hi in Hrep.
          rewrite (bool_decide_eq_true_2 (is_Some (Some _))) in Hrep by by eexists.
          apply bool_decide_eq_false in Hrep.
          assert (fh_inode fh = inode) as ->
            by (destruct (decide (fh_inode fh = inode)); [done|];
                destruct Hrep; congruence).
          assert (tell_after_read (inode_data fs inode) (fh_pos fh) = size) as Htell
            by (unfold tell_after_read; fold size; lia).
          rewrite Htell. split_and!; try done. by apply handle_in_step_mk.
        * assert (tell_after_read (inode_data fs inode) (last_position (monitor t))
                  = size) as Htell by (unfold tell_after_read; fold size; lia).
          rewrite Htell. split_and!; try done. by apply handle_in_step_mk. }
  unfold monitor_logs. rewrite Hpoll.
  destruct (process_lines_frame lines t1) as (Hp2 & Hi2 & Hl2 & Hh2).
  set (t2 := (process lines t1).1) in *.
  rewrite Hp1 in Hp2. rewrite Hi1 in Hi2. rewrite Hl1 in Hl2. split; [|done].
  unfold poll_read. rewrite Hl2, Hpath.
  rewrite (detect_no_rotation fs (monitor t2) inode);
    [| by rewrite Hl2 | by left | rewrite Hp2; unfold size; lia].
  cbn [fst]. destruct Hh2 as [Hh2|Hh2]; rewrite Hh2.
  - destruct (file_handle t1) as [fh|] eqn:Hh1.
    + destruct (Hs1 fh Hh1) as [Hp Hi]. rewrite Hi1 in Hi. simplify_eq.
      rewrite Hp, Hp1. apply readlines_at_end.
    + stats_fields. rewrite Hp2. apply readlines_at_end.
  - stats_fields. rewrite Hp2. apply readlines_at_end.
Qed.

(** X20. The batch stops at the first record on which [update_stats]
    raises: the lines that follow it in the batch make no difference to
    the outcome of the turn. *)
Theorem batch_stops_at_exception (lines rest : list string) (line : string)
    (entry : Entry) t :
  parse_log_entry line = Some entry →
  located_with_country (asn_enrich (geoip_enrich entry)) = false →
  process (lines ++ line :: rest) t = process (lines ++ [line]) t.
Proof.
  intros Hparse Hloc. revert t. induction lines as [|l lines IH]; intros t; simpl.
  - rewrite Hparse.
    rewrite (update_stats_raised geoip_enrich asn_enrich now entry (monitor t) Hloc).
    done.
  - destruct (parse_log_entry l); [|apply IH].
    destruct (outcome _); [|done]. by rewrite IH.
Qed.

(** X21. A file that was replaced is read from its start even when it is
    not smaller than the saved offset: when the inode at the path differs
    from the one seen last, the turn sets the offset to 0, opens the new
    file and reads all its lines. *)
Theorem replaced_file_is_reread fs t (inode seen : Z) :
  path_inode fs (log_path (monitor t)) = Some inode →
  _last_inode (monitor t) = Some seen → seen ≠ inode →
  (_detect_log_rotation fs (monitor t)).1 = true
  ∧ (poll_read fs t).1 = lines_from EmptyString (inode_data fs inode)
  ∧ file_handle (poll_read fs t).2
    = Some {| fh_inode := inode;
              fh_pos := Z.of_nat (String.length (inode_data fs inode)) |}
  ∧ _last_inode (monitor (poll_read fs t).2) = Some inode.
Proof.
  intros Hpath Hseen Hne.
  assert (_detect_log_rotation fs (monitor t)
          = (true, set_last_inode (Some inode) (set_last_position 0 (monitor t))))
    as Hrot.
  { unfold _detect_log_rotation. rewrite Hpath, Hseen. destruct (_ <? _); [done|].
    rewrite (bool_decide_eq_true_2 (is_Some (Some seen))) by by eexists.
    by rewrite bool_decide_eq_true_2 by congruence. }
  assert (tell_after_read (inode_data fs inode) 0
          = Z.of_nat (String.length (inode_data fs inode))) as Htell
    by (unfold tell_after_read; lia).
  rewrite Hrot. split; [done|]. unfold poll_read. rewrite Hpath, Hrot.
  destruct (file_handle t); cbn [fst snd fh_inode fh_pos monitor file_handle];
    stats_fields; rewrite Htell, readlines_start; done.
Qed.
End TailerExtras.


Lemma second_poll_reads_nothing_witness :
  let data := "first line
second line
"%string in
  let fs := {| path_inode := λ _, Some 7; inode_data := λ _, data |} in
  let t := {| monitor := init default_config; file_handle := None |} in
  (poll_read fs (monitor_logs id id (λ _, None) "12:00" fs t).1).1 = []
  ∧ last_position (monitor (monitor_logs id id (λ _, None) "12:00" fs t).1)
    = Z.of_nat (String.length data).
Proof.
  intros data fs t.
  apply (second_poll_reads_nothing id id (λ _, None) "12:00" fs t 7);
    [intros fh Hfh; discriminate Hfh | reflexivity].
Defined.

Lemma batch_stops_at_exception_witness :
  let entry := {| eventid := Some "cowrie.session.connect"%string;
                  src_ip := Some "203.0.113.7"%string;
                  timestamp := None;
                  username := None;
                  password := None;
                  input := None;
                  geo_location :=
                    Some {| geo_country := None; geo_city := None;
                            geo_latitude := Some (Qc_of_Z 52);
                            geo_longitude := Some (Qc_of_Z 13);
                            geo_other := false |};
                  asn_info := None |} in
  let parse := λ line : string,
    if String.eqb line "bad" then Some entry
    else if String.eqb line "good" then Some (connect_entry "198.51.100.7")
    else None in
  let t := {| monitor := init default_config; file_handle := None |} in
  let good := "good"%string in
  let blank := "blank"%string in
  let bad := "bad"%string in
  process_lines id id parse "12:00" ([good; blank] ++ bad :: [good; good]) t
  = process_lines id id parse "12:00" ([good; blank] ++ [bad]) t.
Proof.
  intros entry parse t good blank bad.
  apply (batch_stops_at_exception id id parse "12:00" _ _ _ entry);
    reflexivity.
Defined.

Lemma replaced_file_is_reread_witness :
  let data := "first line of the new file
"%string in
  let fs := {| path_inode := λ _, Some 7; inode_data := λ _, data |} in
  let t := {| monitor := set_last_inode (Some 3)
                           (set_last_position 12 (init default_config));
              file_handle := Some {| fh_inode := 3; fh_pos := 12 |} |} in
  (_detect_log_rotation fs (monitor t)).1 = true
  ∧ (poll_read fs t).1 = lines_from EmptyString data
  ∧ file_handle (poll_read fs t).2
    = Some {| fh_inode := 7; fh_pos := Z.of_nat (String.length data) |}
  ∧ _last_inode (monitor (poll_read fs t).2) = Some 7.
Proof.
  intros data fs t.
  apply (replaced_file_is_reread fs t 7 3); [reflexivity | reflexivity | lia].
Defined.

(** ** The rate limiter of the API *)

Section RateLimiter.
Import APIRateLimiter.
Implicit Types (s : APIRateLimiter.t) (ip : string) (now : Qc).

(** The map after the periodic cleanup, as [is_allowed] computes it. *)
Local Abbreviation cleaned now s :=
  (if decide (Qc_of_Z 300 < now - _last_cleanup s)
   then filter (λ kv, ¬ stale now (_window s) kv.2) (_requests s)
   else _requests s)%Qc.

Lemma cleaned_lookup_Some ip now s (l : list Qc) :
  cleaned now s !! ip = Some l → _requests s !! ip = Some l.
Proof.
  destruct (decide _); [|done]. rewrite map_lookup_filter_Some. by intros [? _].
Qed.

Lemma is_allowed_fields ip now s :
  _max (is_allowed ip now s).2 = _max s
  ∧ _window (is_allowed ip now s).2 = _window s.
Proof. unfold is_allowed. by destruct (_ <=? _). Qed.

Lemma filter_all {A} (P : A → Prop) `{∀ x, Decision (P x)} (l : list A) :
  Forall P l → filter P l = l.
Proof.
  induction 1 as [|x l Hx _ IH]; [done|]. by rewrite filter_cons_True, IH.
Qed.

Lemma filter_none {A} (P : A → Prop) `{∀ x, Decision (P x)} (l : list A) :
  Forall (λ x, ¬ P x) l → filter P l = [].
Proof.
  induction 1 as [|x l Hx _ IH]; [done|]. by rewrite filter_cons_False.
Qed.

(** The cleanup keeps the times of a client whose times are all in the
    window. *)
Lemma cleaned_recent ip now s :
  Forall (λ t, (now - t < _window s)%Qc) (requests_of ip s) →
  default [] (cleaned now s !! ip) = requests_of ip s.
Proof.
  intros Hrecent. unfold requests_of in *. destruct (decide _); [|done].
  destruct (_requests s !! ip) as [l|] eqn:Hl; simpl in *.
  - destruct (decide (stale now (_window s) l)) as [Hstale|Hfresh].
    + rewrite (proj2 (map_lookup_filter_None _ _ _)); simpl.
      * unfold stale in Hstale. destruct (last l) as [t|] eqn:Hlast.
        -- apply last_Some in Hlast as [l' ->].
           apply Forall_app in Hrecent as [_ Ht%Forall_inv].
           destruct (Qclt_not_le _ _ Ht (Qclt_le_weak _ _ Hstale)).
        -- by apply last_None in Hlast as ->.
      * right. intros x Hx. simplify_eq. simpl. tauto.
    + by rewrite (proj2 (map_lookup_filter_Some _ _ _ _) (conj Hl Hfresh)).
  - by rewrite (proj2 (map_lookup_filter_None _ _ _)) by by left.
Qed.

(** X22. No client ever has more recorded times than the limit (than none,
    under a negative limit): [is_allowed] keeps this for every client and
    time, whatever the clock does. The memory per client is bounded by the
    limit. *)
Theorem requests_stay_bounded ip now s :
  requests_bounded s → requests_bounded (is_allowed ip now s).2.
Proof.
  intros Hinv ip' l'. unfold is_allowed.
  set (recent := filter _ (default [] (cleaned now s !! ip))).
  assert (Z.of_nat (length recent) <= Z.max 0 (_max s)) as Hrecent.
  { unfold recent. etrans; [apply inj_le, length_filter|].
    destruct (cleaned now s !! ip) as [l|] eqn:Hl; simpl; [|lia].
    by apply (Hinv ip), (cleaned_lookup_Some ip now). }
  destruct (_max s <=? Z.of_nat (length recent)) eqn:Hfull; cbn [snd _requests _max];
    rewrite lookup_insert_Some; intros [[_ <-]|[_ Hl']];
    try (by apply (Hinv ip'), (cleaned_lookup_Some ip' now)); [done|].
  apply Z.leb_gt in Hfull. rewrite length_app. simpl. lia.
Qed.

(** What a call answers to a client whose recorded times are all in the
    window: it allows the call when the client has fewer than the limit,
    and records the time of an allowed call only. *)
Lemma is_allowed_recent ip now s :
  Forall (λ t, (now - t < _window s)%Qc) (requests_of ip s) →
  (is_allowed ip now s).1
  = bool_decide (Z.of_nat (length (requests_of ip s)) < _max s)
  ∧ requests_of ip (is_allowed ip now s).2
    = if (is_allowed ip now s).1 then requests_of ip s ++ [now] else requests_of ip s.
Proof.
  intros Hrecent. unfold is_allowed.
  rewrite (cleaned_recent ip now s Hrecent), (filter_all _ _ Hrecent).
  destruct (_max s <=? _) eqn:Hfull; cbn [fst snd]; unfold requests_of at 3;
    cbn [_requests].
  - apply Z.leb_le in Hfull. split; [by rewrite bool_decide_eq_false_2 by lia|].
    by rewrite (proj2 (lookup_insert_Some _ _ _ _ _) (or_introl (conj eq_refl eq_refl))).
  - apply Z.leb_gt in Hfull. split; [by rewrite bool_decide_eq_true_2 by lia|].
    by rewrite (proj2 (lookup_insert_Some _ _ _ _ _) (or_introl (conj eq_refl eq_refl))).
Qed.

Lemma is_allowed_all_acc ip (times : list Qc) (acc : list bool) s :
  foldl (λ acc now, (acc.1 ++ [(is_allowed ip now acc.2).1], (is_allowed ip now acc.2).2))
        (acc, s) times
  = (acc ++ (is_allowed_all ip times s).1, (is_allowed_all ip times s).2).
Proof.
  unfold is_allowed_all. revert acc s.
  induction times as [|t times IH]; intros acc s; cbn [foldl fst snd].
  - by rewrite app_nil_r.
  - rewrite IH, (IH ([] ++ _)). cbn [fst snd app]. by rewrite <- app_assoc.
Qed.

Lemma is_allowed_all_cons ip now (times : list Qc) s :
  is_allowed_all ip (now :: times) s
  = ((is_allowed ip now s).1 :: (is_allowed_all ip times (is_allowed ip now s).2).1,
     (is_allowed_all ip times (is_allowed ip now s).2).2).
Proof.
  unfold is_allowed_all at 1. cbn [foldl fst snd app]. by rewrite is_allowed_all_acc.
Qed.

Lemma is_allowed_all_recent ip (times : list Qc) s :
  Forall (λ t, Forall (λ t', (t - t' < _window s)%Qc) (requests_of ip s ++ times))
         times →
  (is_allowed_all ip times s).1
  = replicate (length times `min` (Z.to_nat (_max s) - length (requests_of ip s))) true
    ++ replicate (length times - (Z.to_nat (_max s) - length (requests_of ip s))) false.
Proof.
  revert s. induction times as [|now times IH]; intros s Hwin; [done|].
  rewrite is_allowed_all_cons. cbn [fst].
  apply Forall_cons in Hwin as [Hnow Hrest].
  apply Forall_app in Hnow as [Hnow Hnow'].
  destruct (is_allowed_recent ip now s Hnow) as [Hanswer Hl].
  destruct (is_allowed_fields ip now s) as [Hmax Hwindow].
  rewrite IH, Hmax, Hl, Hanswer; clear IH.
  - case_bool_decide as Hroom.
    + rewrite length_app. cbn [length].
      replace (S (length times) `min` (Z.to_nat (_max s) - length (requests_of ip s)))%nat
        with (S (length times `min`
                 (Z.to_nat (_max s) - (length (requests_of ip s) + 1))))%nat by lia.
      replace (S (length times) - (Z.to_nat (_max s) - length (requests_of ip s)))%nat
        with (length times - (Z.to_nat (_max s) - (length (requests_of ip s) + 1)))%nat
        by lia.
      done.
    + cbn [length].
      replace (Z.to_nat (_max s) - length (requests_of ip s))%nat with 0%nat by lia.
      by rewrite !Nat.min_0_r, !Nat.sub_0_r.
  - rewrite Hwindow, Hl. eapply Forall_impl; [exact Hrest|]. intros t Ht. simpl in Ht.
    destruct (is_allowed ip now s).1.
    + rewrite <- app_assoc. exact Ht.
    + apply Forall_app in Ht as [Hold Hnew]. apply Forall_app. split; [done|].
      by apply Forall_inv_tail in Hnew.
Qed.

(** X23. A burst: of the calls of a client with no recorded time, made at
    times that are pairwise less than the window apart, the first [max] are
    allowed and all the later ones are refused (all of them under a limit
    of 0 or less). The periodic cleanup, whenever it falls, makes no
    difference. *)
Theorem burst_allows_the_limit ip (times : list Qc) s :
  requests_of ip s = [] → within_window (_window s) times →
  (is_allowed_all ip times s).1
  = replicate (length times `min` Z.to_nat (_max s)) true
    ++ replicate (length times - Z.to_nat (_max s)) false.
Proof.
  intros Hnew Hwin. rewrite is_allowed_all_recent; rewrite Hnew; [|done].
  by rewrite Nat.sub_0_r.
Qed.

(** X24. The window slides: when every recorded time of a client is at
    least the window old, the client is allowed again (the limit being
    positive), and its record is the time of this call alone. *)
Theorem allowed_again_after_window ip now s :
  0 < _max s →
  Forall (λ t, (_window s <= now - t)%Qc) (requests_of ip s) →
  (is_allowed ip now s).1 = true
  ∧ requests_of ip (is_allowed ip now s).2 = [now].
Proof.
  intros Hmax Hold. unfold is_allowed.
  assert (filter (λ t, (now - t < _window s)%Qc) (default [] (cleaned now s !! ip)) = [])
    as ->.
  { apply filter_none. destruct (cleaned now s !! ip) as [l|] eqn:Hl; simpl; [|done].
    apply cleaned_lookup_Some in Hl. unfold requests_of in Hold. rewrite Hl in Hold.
    eapply Forall_impl; [exact Hold|]. intros t Ht. by apply Qcle_not_lt. }
  rewrite (proj2 (Z.leb_gt _ _)) by (simpl; lia). cbn [fst snd]. split; [done|].
  unfold requests_of. cbn [_requests].
  by rewrite (proj2 (lookup_insert_Some _ _ _ _ _) (or_introl (conj eq_refl eq_refl))).
Qed.
End RateLimiter.

Lemma requests_stay_bounded_witness :
  requests_bounded
    (APIRateLimiter.is_allowed "203.0.113.7" (Qc_of_Z 1001)
       (APIRateLimiter.init 30 (Qc_of_Z 60) (Qc_of_Z 1000))).2.
Proof.
  apply requests_stay_bounded. intros ip l Hl.
  cbn [APIRateLimiter.init APIRateLimiter._requests] in Hl.
  by rewrite lookup_empty in Hl.
Defined.

Lemma burst_allows_the_limit_witness :
  let s := APIRateLimiter.init 2 (Qc_of_Z 60) (Qc_of_Z 1000) in
  let times := [Qc_of_Z 1000; Qc_of_Z 1001; Qc_of_Z 1030; Qc_of_Z 1059] in
  (APIRateLimiter.is_allowed_all "203.0.113.7" times s).1 = [true; true; false; false].
Proof.
  intros s times.
  apply (burst_allows_the_limit "203.0.113.7" times s); [reflexivity|].
  apply (bool_decide_unpack _). vm_compute. reflexivity.
Defined.

Lemma allowed_again_after_window_witness :
  let ip := "203.0.113.7"%string in
  let s := {| APIRateLimiter._requests := {[ ip := [Qc_of_Z 1000; Qc_of_Z 1001] ]};
              APIRateLimiter._max := 2;
              APIRateLimiter._window := Qc_of_Z 60;
              APIRateLimiter._last_cleanup := Qc_of_Z 1000 |} in
  (APIRateLimiter.is_allowed ip (Qc_of_Z 1061) s).1 = true
  ∧ requests_of ip (APIRateLimiter.is_allowed ip (Qc_of_Z 1061) s).2 = [Qc_of_Z 1061].
Proof.
  intros ip s. apply allowed_again_after_window; [reflexivity|].
  apply (bool_decide_unpack _). vm_compute. reflexivity.
Defined.

(** ** The background lookup *)

(** An [increment] with room: the count of the key goes up by one, the key
    is tracked afterwards and the counter is still within its capacity. *)
Lemma increment_counted {K} `{EqDecision K} (k : K) (c : BoundedCounter.t K) :
  BoundedCounter.len c < BoundedCounter._maxsize c
  ∨ (BoundedCounter.contains k c = true
     ∧ BoundedCounter.len c <= BoundedCounter._maxsize c) →
  BoundedCounter.getitem k (BoundedCounter.increment k c).1
  = BoundedCounter.getitem k c + 1
  ∧ BoundedCounter.contains k (BoundedCounter.increment k c).1 = true
  ∧ BoundedCounter.len (BoundedCounter.increment k c).1
    <= BoundedCounter._maxsize (BoundedCounter.increment k c).1.
Proof.
  destruct c as [d C]. unfold BoundedCounter.len. simpl. intros Hcase.
  assert (PyDict.len (PyDict.set k (PyDict.get k 0 d + 1) d) <= C) as Hroom.
  { pose proof (length_set_le k (PyDict.get k 0 d + 1) d) as Hle.
    unfold PyDict.len in *. destruct Hcase as [Hlen|[Hin Hlen]]; [lia|].
    rewrite length_set_present; [done|]. apply lookup_Some_keys.
    by apply bool_decide_eq_true in Hin. }
  unfold BoundedCounter.increment, BoundedCounter.getitem, BoundedCounter.contains.
  simpl. rewrite maybe_evict_room by done. simpl.
  split; [unfold PyDict.get at 1; by rewrite lookup_set_eq|]. split; [|done].
  apply bool_decide_eq_true_2. unfold PyDict.contains, PyDict.get.
  by rewrite lookup_set_eq.
Qed.

Section WorkerExtras.
Context (geoip_enrich asn_enrich : Entry → Entry) (now : string).
Implicit Types (entry : Entry) (m : CowrieMonitor) (s : Stats).

Local Abbreviation enrich := (λ entry, asn_enrich (geoip_enrich entry)).
Local Abbreviation step := (update_stats geoip_enrich asn_enrich now).
Local Abbreviation worker := (_enrichment_worker asn_enrich).

Lemma update_map_data_asn_frame evt entry s s' :
  update_map_data evt entry s = Some s' →
  organizations s' = organizations s ∧ asns s' = asns s.
Proof. unfold update_map_data. intros Hs. repeat case_match; by simplify_eq. Qed.

Lemma update_country_asn_frame entry s :
  organizations (update_country entry s) = organizations s
  ∧ asns (update_country entry s) = asns s.
Proof. unfold update_country. by repeat case_match. Qed.

(** X25. A record for which the lookup finds an ASN but no organization is
    counted twice in the ASN counter: once by [update_stats], which then
    queues the entry because it has no organization, and once more by
    [_enrichment_worker] when the lookup of the queued entry gives the same
    answer. The organization counter is not changed. *)
Theorem asn_without_organization_counted_twice entry m (info : AsnInfo) (a : string) :
  located_with_country (enrich entry) = true →
  asn_info (enrich entry) = Some info →
  nonempty (asn_organization info) = None →
  nonempty (asn_asn info) = Some a →
  asn_info (asn_enrich (enrich entry)) = Some info →
  q_items (_enrich_queue m) = [] →
  asns (stats (worker (after (step entry m))))
  = (BoundedCounter.increment a (BoundedCounter.increment a (asns (stats m))).1).1
  ∧ organizations (stats (worker (after (step entry m)))) = organizations (stats m)
  ∧ q_items (_enrich_queue (worker (after (step entry m)))) = []
  ∧ (BoundedCounter.len (asns (stats m)) < BoundedCounter._maxsize (asns (stats m)) →
     BoundedCounter.getitem a (asns (stats (worker (after (step entry m)))))
     = BoundedCounter.getitem a (asns (stats m)) + 2).
Proof.
  intros Hloc Hinfo Horg Hasn Hagain Hidle.
  destruct (update_stats_returned_stats geoip_enrich asn_enrich now entry m Hloc)
    as (s' & Hs' & Hstats & _).
  destruct (update_map_data_asn_frame _ _ _ _ Hs') as [Ho1 Ha1].
  destruct (update_event_frame (eventid entry) (src_ip entry) (enrich entry) (stats m))
    as (_ & _ & Ho0 & Ha0 & _).
  destruct (update_country_asn_frame (enrich entry) s') as [Ho2 Ha2].
  pose proof (update_stats_queue geoip_enrich asn_enrich now entry m) as Hqueue.
  unfold fallback_job in Hqueue. rewrite Hloc, Hinfo in Hqueue. simpl in Hqueue.
  rewrite Horg in Hqueue.
  assert (q_items (_enrich_queue (after (step entry m))) = [enrich entry]) as Hjob.
  { rewrite Hqueue. unfold put_nowait. rewrite Hidle. simpl.
    destruct (0 <? _) eqn:Hpos; simpl; [|done].
    apply Z.ltb_lt in Hpos. by rewrite (proj2 (Z.leb_gt _ _)) by lia. }
  assert (asns (stats (after (step entry m)))
          = (BoundedCounter.increment a (asns (stats m))).1
          ∧ organizations (stats (after (step entry m))) = organizations (stats m))
    as [Hinline Hinline_org].
  { rewrite Hstats. unfold update_timeline, update_asn. rewrite Hinfo. simpl.
    rewrite Horg, Hasn. stats_fields. by rewrite Ha2, Ha1, Ha0, Ho2, Ho1, Ho0. }
  assert (asn_truthy info = true) as Htruthy.
  { unfold asn_truthy. destruct (asn_asn info); [|done].
    rewrite (bool_decide_eq_true_2 (is_Some (Some _))) by by eexists.
    by rewrite orb_true_r. }
  assert (asns (stats (worker (after (step entry m))))
          = (BoundedCounter.increment a (BoundedCounter.increment a (asns (stats m))).1).1
          ∧ organizations (stats (worker (after (step entry m)))) = organizations (stats m)
          ∧ q_items (_enrich_queue (worker (after (step entry m)))) = [])
    as (Hasns & Horgs & Hq).
  { unfold _enrichment_worker. rewrite Hjob. unfold _update_asn_stats.
    rewrite Hagain, Htruthy, Horg, Hasn. stats_fields.
    by rewrite Hinline, Hinline_org. }
  split; [done|]. split; [done|]. split; [done|]. intros Hroom. rewrite Hasns.
  destruct (increment_counted a (asns (stats m)) (or_introl Hroom))
    as (Hfirst & Hin & Hlen).
  destruct (increment_counted a _ (or_intror (conj Hin Hlen))) as (Hsecond & _).
  rewrite Hsecond, Hfirst. lia.
Qed.
End WorkerExtras.

Lemma asn_without_organization_counted_twice_witness :
  let entry := {| eventid := Some "cowrie.session.connect"%string;
                  src_ip := Some "203.0.113.7"%string;
                  timestamp := None;
                  username := None;
                  password := None;
                  input := None;
                  geo_location := None;
                  asn_info := Some {| asn_organization := None;
                                      asn_asn := Some "AS64500"%string;
                                      asn_other := false |} |} in
  let m := init default_config in
  let m' := _enrichment_worker id (after (update_stats id id "12:00" entry m)) in
  asns (stats m')
  = (BoundedCounter.increment "AS64500"%string
       (BoundedCounter.increment "AS64500"%string (asns (stats m))).1).1
  ∧ organizations (stats m') = organizations (stats m)
  ∧ q_items (_enrich_queue m') = []
  ∧ (BoundedCounter.len (asns (stats m)) < BoundedCounter._maxsize (asns (stats m)) →
     BoundedCounter.getitem "AS64500"%string (asns (stats m'))
     = BoundedCounter.getitem "AS64500"%string (asns (stats m)) + 2).
Proof.
  intros entry m m'.
  apply (asn_without_organization_counted_twice id id "12:00" entry m
           {| asn_organization := None; asn_asn := Some "AS64500"%string;
              asn_other := false |}); reflexivity.
Defined.

(** ** The success rate of the snapshot *)

Lemma rate_in_range (successful failed : Z) :
  0 <= successful → 0 <= failed →
  (Qc_of_Z 0
   <= Qc_of_Z successful / Qc_of_Z (Z.max 1 (failed + successful)) * Qc_of_Z 100)%Qc
  ∧ (Qc_of_Z successful / Qc_of_Z (Z.max 1 (failed + successful)) * Qc_of_Z 100
     <= Qc_of_Z 100)%Qc.
Proof.
  intros Hs Hf. set (d := Z.max 1 (failed + successful)).
  assert (Qc_of_Z 0 < Qc_of_Z d)%Qc as Hd
    by (apply (proj1 (Z2Qc_inj_lt _ _)); unfold d; lia).
  assert (Qc_of_Z 0 <= Qc_of_Z successful)%Qc as Hs0
    by (by apply (proj1 (Z2Qc_inj_le _ _))).
  assert (Qc_of_Z successful <= Qc_of_Z d)%Qc as Hsd
    by (apply (proj1 (Z2Qc_inj_le _ _)); unfold d; lia).
  assert (Qc_of_Z 0 <= Qc_of_Z 100)%Qc as H100
    by (apply (proj1 (Z2Qc_inj_le _ _)); lia).
  rewrite Z2Qc_inj_0 in *.
  assert (0 <= / Qc_of_Z d)%Qc as Hinv by (by apply Qclt_le_weak, Qcinv_pos).
  unfold Qcdiv. split.
  - by repeat apply Qcmult_nonneg_nonneg.
  - rewrite <- (Qcmult_1_l (Qc_of_Z 100)) at 2.
    apply Qcmult_le_mono_nonneg_r; [done|].
    rewrite <- (Qcmult_inv_r (Qc_of_Z d)).
    + by apply Qcmult_le_mono_nonneg_r.
    + intros Hz. apply Qclt_not_eq in Hd. congruence.
Qed.

Section RateFacts.
Context (geoip_enrich asn_enrich : Entry → Entry) (now : string).
Implicit Types (entry : Entry) (m : CowrieMonitor) (s : Stats).

Local Abbreviation enrich := (λ entry, asn_enrich (geoip_enrich entry)).
Local Abbreviation step := (update_stats geoip_enrich asn_enrich now).
Local Abbreviation run := (feed geoip_enrich asn_enrich now).

(** No call of [update_stats] lowers a login counter. *)
Lemma update_stats_logins entry m :
  failed_logins (stats m) <= failed_logins (stats (after (step entry m)))
  ∧ successful_logins (stats m) <= successful_logins (stats (after (step entry m))).
Proof.
  pose proof (update_event_scalars (eventid entry) (src_ip entry) (enrich entry)
                (stats m)) as (_ & E2 & E3 & _).
  assert (failed_logins (stats (after (step entry m)))
          = failed_logins (update_event (eventid entry) (src_ip entry) (enrich entry)
                                        (stats m))
          ∧ successful_logins (stats (after (step entry m)))
            = successful_logins (update_event (eventid entry) (src_ip entry)
                                              (enrich entry) (stats m)))
    as [-> ->].
  { destruct (located_with_country (enrich entry)) eqn:Hloc.
    - destruct (update_stats_returned_stats geoip_enrich asn_enrich now entry m Hloc)
        as (s' & Hs' & -> & _).
      destruct (scalars_frame s' _ (or_introl (ex_intro _ _ (ex_intro _ _ Hs'))))
        as (_ & A2 & A3 & _).
      destruct (scalars_frame _ s'
                  (or_intror (or_introl (ex_intro _ (enrich entry) eq_refl))))
        as (_ & B2 & B3 & _).
      destruct (scalars_frame _ (update_country (enrich entry) s')
                  (or_intror (or_intror (or_introl (ex_intro _ (enrich entry) eq_refl)))))
        as (_ & C2 & C3 & _).
      destruct (scalars_frame _ (update_asn (enrich entry)
                                   (update_country (enrich entry) s'))
                  (or_intror (or_intror (or_intror
                     (ex_intro _ (eventid entry) (ex_intro _ (src_ip entry)
                        (ex_intro _ (enrich entry) eq_refl)))))))
        as (_ & D2 & D3 & _).
      by rewrite D2, D3, C2, C3, B2, B3, A2, A3.
    - by rewrite update_stats_raised by done. }
  rewrite E2, E3. repeat case_bool_decide; lia.
Qed.

Lemma feed_logins (entries : list Entry) m :
  failed_logins (stats m) <= failed_logins (stats (run entries m).1)
  ∧ successful_logins (stats m) <= successful_logins (stats (run entries m).1).
Proof.
  revert m. induction entries as [|entry entries IH]; intros m; [done|].
  rewrite feed_cons. cbn [fst].
  destruct (update_stats_logins entry m), (IH (after (step entry m))). lia.
Qed.

(** X26. The success rate of a snapshot is a percentage: after any records
    are fed to a new monitor, the rate that [get_stats_summary] computes
    lies between 0 and 100. *)
Theorem success_rate_in_range (cfg : Config) (entries : list Entry) :
  (Qc_of_Z 0 <= sm_success_rate (build_summary (run entries (init cfg)).1))%Qc
  ∧ (sm_success_rate (build_summary (run entries (init cfg)).1) <= Qc_of_Z 100)%Qc.
Proof.
  destruct (feed_logins entries (init cfg)) as [Hf Hs].
  apply rate_in_range; [exact Hs | exact Hf].
Qed.
End RateFacts.

(** ** Addresses that were alerted *)

Lemma contains_add {K} `{Countable K} (x y : K) (s : BoundedSet.t K) :
  BoundedSet.contains y s = true → BoundedSet.contains y (BoundedSet.add x s) = true.
Proof.
  unfold BoundedSet.add, BoundedSet.contains. intros Hy%bool_decide_eq_true.
  apply bool_decide_eq_true_2. repeat case_match; cbn [BoundedSet._data]; [done| |done].
  apply elem_of_union. by left.
Qed.

Section AlertedFacts.
Context (geoip_enrich asn_enrich : Entry → Entry) (now : string).
Implicit Types (entry : Entry) (m : CowrieMonitor) (x : string).

Local Abbreviation step := (update_stats geoip_enrich asn_enrich now).
Local Abbreviation run := (feed geoip_enrich asn_enrich now).

(** The high-frequency rule on any record, for an address that is stored
    in the set of alerted addresses. *)
Lemma check_ip_alerted entry m x :
  BoundedSet.contains x (_alerted_ips m) = true →
  filter (is_high_frequency x) (check_ip now entry m).2 = []
  ∧ BoundedSet.contains x (_alerted_ips (check_ip now entry m).1) = true.
Proof.
  intros Hx. unfold check_ip. case_bool_decide; [|done].
  destruct (_ && _) eqn:Hhot; [|done]. apply andb_prop in Hhot as [_ Hnew].
  unfold _add_alert. cbn [fst snd]. stats_fields. split; [|by apply contains_add].
  rewrite filter_cons_False; [done|]. intros [_ Hmsg]. cbn [al_message] in Hmsg.
  apply high_frequency_message_inj in Hmsg. rewrite Hmsg, Hx in Hnew. done.
Qed.

Lemma step_alerted entry m x :
  BoundedSet.contains x (_alerted_ips m) = true →
  filter (is_high_frequency x) (emitted (step entry m)) = []
  ∧ BoundedSet.contains x (_alerted_ips (after (step entry m))) = true.
Proof.
  intros Hx. destruct (located_with_country (asn_enrich (geoip_enrich entry))) eqn:Hloc.
  - destruct (update_stats_returned geoip_enrich asn_enrich now entry m Hloc)
      as (m' & -> & _ & Hal).
    cbn [after emitted]. set (e' := asn_enrich (geoip_enrich entry)).
    rewrite <- Hal in Hx. destruct (check_ip_alerted e' m' x Hx) as (F1 & A1).
    destruct (check_password_frame now e' (check_ip now e' m').1) as (_ & A2 & F2).
    destruct (check_country_frame now e'
                (check_password now e' (check_ip now e' m').1).1) as (_ & A3 & F3).
    destruct (check_org_frame now e'
                (check_country now e'
                   (check_password now e' (check_ip now e' m').1).1).1)
      as (_ & A4 & F4).
    destruct (enqueue_fallback_frame e' (check_alerts now e' m').1) as (_ & A5).
    rewrite A5. unfold check_alerts. cbn [fst snd]. rewrite A4, A3, A2.
    split; [|done]. rewrite !filter_app, F1.
    rewrite !filter_high_frequency_medium; [done| | |done].
    + eapply Forall_impl; [exact F4|]. by intros a [? _].
    + eapply Forall_impl; [exact F3|]. by intros a [? _].
  - by rewrite (update_stats_raised geoip_enrich asn_enrich now entry m Hloc).
Qed.

(** X27. An address that is stored in the set of alerted addresses is
    never alerted again: whatever records follow, and whatever the lookups
    answer, no high-frequency alert for it is emitted, and it stays in the
    set. *)
Theorem alerted_address_stays_silent (entries : list Entry) m x :
  BoundedSet.contains x (_alerted_ips m) = true →
  filter (is_high_frequency x) (run entries m).2 = []
  ∧ BoundedSet.contains x (_alerted_ips (run entries m).1) = true.
Proof.
  revert m. induction entries as [|entry entries IH]; intros m Hx; [done|].
  rewrite feed_cons. cbn [fst snd].
  destruct (step_alerted entry m x Hx) as [Hquiet Hkept].
  destruct (IH _ Hkept) as [Hquiet' Hkept'].
  by rewrite filter_app, Hquiet, Hquiet'.
Qed.
End AlertedFacts.

Lemma alerted_address_stays_silent_witness :
  let ip := "203.0.113.7"%string in
  let m := set_alerted_ips (BoundedSet.add ip (BoundedSet.init 10000))
             (init default_config) in
  let entries := replicate 12 (connect_entry ip) in
  filter (is_high_frequency ip) (feed id id "12:00" entries m).2 = []
  ∧ BoundedSet.contains ip (_alerted_ips (feed id id "12:00" entries m).1) = true.
Proof.
  intros ip m entries. apply alerted_address_stays_silent. vm_compute. reflexivity.
Defined.
